(** * koordinater-til-vegreferanse: the batch conversion core

    A shallow embedding of the Go sources
      - the selector            (VegreferanseSelector, calculateMatchScore,
                                 extractCategory),
      - the rate limiter        (RateLimiter.Wait),
      - the disk cache          (VegreferanseDiskCache.Get / Set),
      - the API client          (VegvesenetAPIV4.GetVegreferanseMatches),
      - the worker pool         (processCoordinatesToVegreferanse,
                                 applyVegreferanseSelector, writeResults),
    and the properties of the specification stated over them.

    Conventions.  A Go [string] is a sequence of bytes and is modelled by
    [string] (a list of [ascii], one per byte).  A Go [int] is a 64-bit
    signed integer, modelled by [Z] with the wrap-around written out
    ([wrap64]).  A Go [float64] is a binary64 number, modelled by the
    kernel's primitive [float].  A Go [error] is modelled by its message. *)

From Stdlib Require Import ZArith List String Ascii Lia Bool.
From Stdlib Require Import Uint63 Floats.PrimFloat Floats.SpecFloat Floats.FloatOps.
From stdpp Require Import base list strings gmap pretty sorting.

Local Open Scope Z_scope.

(** ** Go's machine integers *)

Definition min_int64 : Z := - 2 ^ 63.
Definition max_int64 : Z := 2 ^ 63 - 1.

(** Two's complement wrap-around of [int] arithmetic. *)
Definition wrap64 (z : Z) : Z := (z + 2 ^ 63) mod 2 ^ 64 - 2 ^ 63.

Definition in_int64 (z : Z) : bool := (min_int64 <=? z) && (z <=? max_int64).

(** ** Go's float64 *)

Definition float64 : Set := PrimFloat.float.

(** The integer part of a binary64 number (the fraction is discarded);
    [None] for infinities and NaN. *)
Definition trunc_float64 (f : float64) : option Z :=
  match Prim2SF f with
  | S754_zero _ => Some 0
  | S754_finite s m e =>
      let mag := if 0 <=? e then Z.pos m * 2 ^ e else Z.pos m / 2 ^ (- e) in
      Some (if s then - mag else mag)
  | S754_infinity _ => None
  | S754_nan => None
  end.

(** The conversion [int(f)].  The language fixes it when the truncated value
    fits an [int]; otherwise the value is implementation-dependent, and the
    gc compiler on amd64 yields the "integer indefinite" value [-2^63]. *)
Definition int_of_float64 (f : float64) : Z :=
  match trunc_float64 f with
  | Some z => if in_int64 z then z else min_int64
  | None => min_int64
  end.

(** [float64(z)] for the small integers the statements below use. *)
Definition float64_of_int (z : Z) : float64 :=
  if z <? 0 then PrimFloat.opp (PrimFloat.of_uint63 (Uint63.of_Z (- z)))
  else PrimFloat.of_uint63 (Uint63.of_Z z).

(** ** Go's strings *)

Module GoString.

Definition code (c : ascii) : Z := Z.of_N (N_of_ascii c).

(** [c >= '0' && c <= '9'] *)
Definition is_digit (c : ascii) : bool := (48 <=? code c) && (code c <=? 57).

(** The six ASCII white space bytes of [strings.Fields]' fast path:
    tab, line feed, vertical tab, form feed, carriage return, space. *)
Definition asciiSpace (b : Z) : bool :=
  ((9 <=? b) && (b <=? 13)) || (b =? 32).

(** [strings.Fields] splits around runs of code points for which
    [unicode.IsSpace] holds.  Besides the six ASCII bytes these are U+0085,
    U+00A0, U+1680, U+2000..U+200A, U+2028, U+2029, U+202F, U+205F and
    U+3000.  Go decodes only the shortest UTF-8 form, and a lead byte is
    never a continuation byte, so such a code point is present exactly
    where its byte sequence occurs.  [space_width s] is the number of bytes
    of the white space code point that [s] starts with, and [0] when it
    starts with none. *)
Definition space_width (s : string) : nat :=
  match s with
  | EmptyString => 0%nat
  | String c0 r0 =>
      let b0 := code c0 in
      if asciiSpace b0 then 1%nat
      else
        match r0 with
        | EmptyString => 0%nat
        | String c1 r1 =>
            let b1 := code c1 in
            if (b0 =? 194) && ((b1 =? 133) || (b1 =? 160)) then 2%nat
            else
              match r1 with
              | EmptyString => 0%nat
              | String c2 _ =>
                  let b2 := code c2 in
                  if (b0 =? 225) && (b1 =? 154) && (b2 =? 128) then 3%nat
                  else if (b0 =? 226) && (b1 =? 128)
                          && (((128 <=? b2) && (b2 <=? 138))
                              || (b2 =? 168) || (b2 =? 169) || (b2 =? 175))
                  then 3%nat
                  else if (b0 =? 226) && (b1 =? 129) && (b2 =? 159) then 3%nat
                  else if (b0 =? 227) && (b1 =? 128) && (b2 =? 128) then 3%nat
                  else 0%nat
              end
        end
  end.

(** A finished field is emitted only when it is not empty. *)
Definition flush (cur : string) : list string :=
  match cur with
  | EmptyString => []
  | _ => [cur]
  end.

(** The scan of [strings.Fields]: [skip] counts the bytes still to drop of
    the white space code point being crossed, [cur] is the field read so
    far. *)
Fixpoint fields_scan (skip : nat) (cur : string) (s : string) : list string :=
  match s with
  | EmptyString => flush cur
  | String c r =>
      match skip with
      | S k => fields_scan k cur r
      | O =>
          match space_width s with
          | O => fields_scan 0 (cur ++ String c EmptyString) r
          | S k => flush cur ++ fields_scan k EmptyString r
          end
      end
  end.

Definition Fields (s : string) : list string := fields_scan 0 EmptyString s.

(** [parts[i]] once [len(parts) > i] has been checked. *)
Definition index (parts : list string) (i : nat) : string :=
  nth i parts EmptyString.

(** [len(s)] of a slice, as an [int]. *)
Definition len {A} (l : list A) : Z := Z.of_nat (length l).

End GoString.

Import GoString.

(** ** The data model of the API client *)

(** [VegreferanseMatch] and the anonymous structs nested in it. *)
Record Vegsystem := {
  Vegkategori : string;
  Fase : string;
  Nummer : Z
}.

Record Strekning := {
  StrekningNr : Z;          (* field Strekning *)
  Delstrekning : Z;
  Arm : bool;
  Adskilte_lop : string;
  Trafikantgruppe : string;
  Retning : string;
  Meter : float64
}.

Record Vegsystemreferanse := {
  vegsystem : Vegsystem;    (* field Vegsystem *)
  strekning : Strekning;    (* field Strekning *)
  Kortform : string
}.

Record VegreferanseMatch := {
  vegsystemreferanse : Vegsystemreferanse;   (* field Vegsystemreferanse *)
  Avstand : float64
}.

(** [m.Vegsystemreferanse.Kortform] *)
Definition kortform (m : VegreferanseMatch) : string :=
  Kortform (vegsystemreferanse m).

(** The zero value of each struct. *)
Definition zero_Vegsystem : Vegsystem :=
  {| Vegkategori := ""; Fase := ""; Nummer := 0 |}.
Definition zero_Strekning : Strekning :=
  {| StrekningNr := 0; Delstrekning := 0; Arm := false; Adskilte_lop := "";
     Trafikantgruppe := ""; Retning := ""; Meter := 0%float |}.

(** A match of which only the label and the distance are set, as the tests of
    the selector build them. *)
Definition mkMatch (label : string) (dist : float64) : VegreferanseMatch :=
  {| vegsystemreferanse :=
       {| vegsystem := zero_Vegsystem; strekning := zero_Strekning;
          Kortform := label |};
     Avstand := dist |}.

(** ** The selector *)

Module Selector.

(** [extractCategory]: the bytes of [road] before its first digit, all of
    [road] when it has none.  The source ranges over code points; a digit is
    a single byte that occurs in no longer UTF-8 sequence, so the byte index
    it slices at is the index of the first digit byte. *)
Fixpoint extractCategory (road : string) : string :=
  match road with
  | EmptyString => EmptyString
  | String c r =>
      if is_digit c then EmptyString else String c (extractCategory r)
  end.

(** [calculateMatchScore] *)
Definition calculateMatchScore (previous current : string) (distance : float64) : Z :=
  let score := 0 in
  let prevParts := Fields previous in
  let currParts := Fields current in
  if (len prevParts <? 1) || (len currParts <? 1) then 0
  else
    let prevRoad := index prevParts 0 in
    let currRoad := index currParts 0 in
    let score :=
      if String.eqb prevRoad currRoad then wrap64 (score + 1000)
      else
        let prevCategory := extractCategory prevRoad in
        let currCategory := extractCategory currRoad in
        if String.eqb prevCategory currCategory then wrap64 (score + 100)
        else score in
    let score :=
      if (1 <? len prevParts) && (1 <? len currParts) then
        let prevSection := index prevParts 1 in
        let currSection := index currParts 1 in
        if String.eqb prevSection currSection then wrap64 (score + 50)
        else score
      else score in
    let distanceAdjustment := int_of_float64 (PrimFloat.mul distance 10%float) in
    wrap64 (score - distanceAdjustment).

Record VegreferanseSelector := {
  history : list string;     (* oldest first *)
  maxHistory : Z
}.

(** [NewVegreferanseSelector]: [make([]string, 0, maxHistory)] panics on a
    negative capacity, which is [None] here (it also panics on a capacity too
    large to allocate; the model lets such a selector be). *)
Definition NewVegreferanseSelector (maxHistory : Z) : option VegreferanseSelector :=
  if maxHistory <? 0 then None
  else Some {| history := []; maxHistory := maxHistory |}.

(** [AddToHistory] *)
Definition AddToHistory (s : VegreferanseSelector) (vegreferanse : string)
  : VegreferanseSelector :=
  if String.eqb vegreferanse "" then s
  else
    let h := history s ++ [vegreferanse] in
    if maxHistory s <? len h
    then {| history := tail h; maxHistory := maxHistory s |}
    else {| history := h; maxHistory := maxHistory s |}.

(** The variables of the scan in [SelectBestMatch]. *)
Record scan := {
  bestMatch : Z;
  bestScore : Z;
  closestMatchDistance : float64;
  closestMatchIndex : Z
}.

(** One iteration of [for i, match := range matches]. *)
Definition scan_step (lastVegreferanse : string) (st : scan) (i : Z)
    (m : VegreferanseMatch) : scan :=
  let currentVegreferanse := kortform m in
  let score := calculateMatchScore lastVegreferanse currentVegreferanse (Avstand m) in
  let '(bm, bs) :=
    if bestScore st <? score then (i, score) else (bestMatch st, bestScore st) in
  let '(cd, ci) :=
    if PrimFloat.ltb (Avstand m) (closestMatchDistance st)
    then (Avstand m, i)
    else (closestMatchDistance st, closestMatchIndex st) in
  {| bestMatch := bm; bestScore := bs;
     closestMatchDistance := cd; closestMatchIndex := ci |}.

Fixpoint scan_from (lastVegreferanse : string) (i : Z)
    (matches : list VegreferanseMatch) (st : scan) : scan :=
  match matches with
  | [] => st
  | m :: rest =>
      scan_from lastVegreferanse (i + 1) rest (scan_step lastVegreferanse st i m)
  end.

(** [SelectBestMatch].  The block between the scan and the [return] only
    prints (it is where [closestMatchDistance] and [closestMatchIndex] are
    read), so the label returned is a function of [bestMatch] alone. *)
Definition SelectBestMatch (s : VegreferanseSelector)
    (matches : list VegreferanseMatch) : string :=
  match matches with
  | [] => ""
  | first :: _ =>
      if (len matches =? 1) || (len (history s) =? 0) then kortform first
      else
        let lastVegreferanse := List.last (history s) "" in
        let st0 := {| bestMatch := -1; bestScore := -1;
                      closestMatchDistance := Avstand first;
                      closestMatchIndex := 0 |} in
        let st := scan_from lastVegreferanse 0 matches st0 in
        if 0 <=? bestMatch st
        then kortform (nth (Z.to_nat (bestMatch st)) matches first)
        else kortform first
  end.

End Selector.

(** ** The rate limiter *)

Module RateLimit.

(** A [time.Time] is its reading of the monotonic clock, in nanoseconds; a
    [time.Duration] is an [int64] count of nanoseconds. *)
Definition Time := Z.
Definition Duration := Z.

(** [t.Sub(u)]: the difference, saturated to the range of [Duration]. *)
Definition Sub (t u : Time) : Duration :=
  let d := t - u in
  if d <? min_int64 then min_int64
  else if max_int64 <? d then max_int64
  else d.

Record RateLimiter := {
  calls : list Time;
  limit : Z;
  timeFrame : Duration
}.

(** The largest capacity [make([]time.Time, 0, cap)] accepts.  [makeslice]
    panics ("cap out of range") when the capacity is negative or when its
    size in bytes exceeds what the runtime allocates at once; a [time.Time]
    holds 24 bytes (two 64-bit words and a pointer) and the gc runtime on
    amd64 allocates [2^48] bytes at most. *)
Definition max_calls_cap : Z := 2 ^ 48 / 24.

(** [NewRateLimiter]: [None] is the panic of [make([]time.Time, 0, limit)]
    for a capacity out of range.  Within the range the allocation is taken to
    succeed, as every allocation of the program is; a machine that runs out of
    memory ends the process. *)
Definition NewRateLimiter (limit : Z) (timeFrame : Duration) : option RateLimiter :=
  if (limit <? 0) || (max_calls_cap <? limit) then None
  else Some {| calls := []; limit := limit; timeFrame := timeFrame |}.

(** The loop that keeps the timestamps younger than the time frame. *)
Definition validCalls (now : Time) (timeFrame : Duration) (calls : list Time)
  : list Time :=
  filter (fun call => Is_true (Sub now call <? timeFrame)) calls.

(** What one execution of [Wait] meets outside the program: the time that
    passes between the previous reading of the clock and [time.Now()]
    ([pause]), and the time by which [time.Sleep] overshoots the duration it
    was asked for ([oversleep]).  Neither can be negative: the clock is
    monotonic and [Sleep] pauses for at least its argument. *)
Record Delay := {
  pause : N;
  oversleep : N
}.

(** The outcome of [Wait]: the limiter, the clock after the call and the
    timestamp it appended; [None] when the call panics ([r.calls[0]] on an
    empty slice).  [Wait] runs under [r.mu], so the executions of its body
    by concurrent goroutines follow one another in the order in which they
    take the lock: each starts from the limiter the previous one left. *)
Definition Wait (r : RateLimiter) (clock : Time) (d : Delay)
  : option (RateLimiter * Time * Time) :=
  let now := clock + Z.of_N (pause d) in
  let r_calls := validCalls now (timeFrame r) (calls r) in
  if limit r <=? len r_calls then
    match r_calls with
    | [] => None
    | oldest :: _ =>
        let waitTime := wrap64 (timeFrame r - Sub now oldest) in
        if 0 <? waitTime then
          let now := now + waitTime + Z.of_N (oversleep d) in
          let r_calls := validCalls now (timeFrame r) r_calls in
          Some ({| calls := r_calls ++ [now]; limit := limit r;
                   timeFrame := timeFrame r |}, now, now)
        else
          Some ({| calls := r_calls ++ [now]; limit := limit r;
                   timeFrame := timeFrame r |}, now, now)
    end
  else
    Some ({| calls := r_calls ++ [now]; limit := limit r;
             timeFrame := timeFrame r |}, now, now).

(** A run: the executions of [Wait] in lock order, with the timestamps
    admitted so far (oldest first).  A panic ends the run. *)
Fixpoint run (r : RateLimiter) (clock : Time) (admitted : list Time)
    (ds : list Delay) : list Time :=
  match ds with
  | [] => admitted
  | d :: rest =>
      match Wait r clock d with
      | None => admitted
      | Some (r', clock', now) => run r' clock' (admitted ++ [now]) rest
      end
  end.

(** The admitted calls whose timestamp lies in the window [[t, t + T)]. *)
Definition in_window (t : Time) (T : Duration) (admitted : list Time) : list Time :=
  filter (fun a => Is_true ((t <=? a) && (a <? t + T))) admitted.

End RateLimit.

(** ** What the program takes from its libraries and from the outside *)

(** A Go call that returns [(value, error)]. *)
Inductive result (A : Type) : Type :=
| Ok (a : A)
| Err (msg : string).
Arguments Ok {A} a.
Arguments Err {A} msg.

(** [V4PositionResponseItem] *)
Record Veglenkesekvens := {
  Veglenkesekvensid : Z;
  RelativPosisjon : float64;
  veglenke_Kortform : string
}.

Record Geometri := {
  Wkt : string;
  Srid : Z
}.

Record V4PositionResponseItem := {
  item_Vegsystemreferanse : Vegsystemreferanse;
  item_Veglenkesekvens : Veglenkesekvens;
  item_Geometri : Geometri;
  Kommune : Z;
  item_Avstand : float64
}.

Definition V4PositionResponse := list V4PositionResponseItem.

(** [V4ErrorResponse] *)
Record V4Message := {
  Message : string;
  Code : Z;
  HelpURL : string
}.

Record V4ErrorResponse := {
  Messages : list V4Message;
  Type_ : string;
  Title : string;
  Status : Z;
  Detail : string
}.

(** The library functions the client calls, whose code is not the
    program's: formatting, path handling and the JSON codec. *)
Record Library := {
  (** [fmt.Sprintf("%.6f", v)] *)
  Sprintf_6f : float64 -> string;
  (** [filepath.Join(a, b)] and [filepath.Dir(p)] *)
  filepath_Join : string -> string -> string;
  filepath_Dir : string -> string;
  (** [json.Marshal] of a [[]VegreferanseMatch] *)
  json_Marshal : list VegreferanseMatch -> result string;
  (** [json.Unmarshal] into a [[]VegreferanseMatch], a [V4PositionResponse]
      and a [V4ErrorResponse] *)
  json_Unmarshal_matches : string -> result (list VegreferanseMatch);
  json_Unmarshal_response : string -> result V4PositionResponse;
  json_Unmarshal_error : string -> result V4ErrorResponse;
  (** the error of [http.NewRequest(method, url, nil)], if any *)
  http_NewRequest_error : string -> string -> option string;
  (** [uuid.NewString()], drawn once for [clientSessionID] *)
  clientSessionID : string
}.

(** ** The disk cache *)

Module DiskCache.

(** The part of the file system the cache lives in: the content of each
    file and the directories, by path. *)
Record FS := {
  files : gmap string string;
  dirs : gset string
}.

(** Which calls to the operating system fail while one call of the client
    runs. *)
Record Faults := {
  mkdir_fails : bool;      (* os.MkdirAll returns an error *)
  read_fails : bool;       (* os.ReadFile returns an error *)
  write_fails : bool;      (* os.WriteFile returns an error *)
  (** what an [os.WriteFile] that fails has done to the file: nothing
      ([None]: the file could not be opened), or, the file opened and
      truncated, it has written the first [n] bytes of the data
      ([Some n]; all of them when only the close fails) *)
  write_leaves : option nat
}.

Definition no_faults : Faults :=
  {| mkdir_fails := false; read_fails := false; write_fails := false;
     write_leaves := None |}.

(** [os.Stat(p)] finds something at [p]. *)
Definition exists_path (fs : FS) (p : string) : bool :=
  bool_decide (p ∈ dirs fs) || bool_decide (is_Some (files fs !! p)).

(** [os.MkdirAll(p, 0755)]: the error, if any, and the file system after. *)
Definition MkdirAll (fs : FS) (f : Faults) (p : string) : option string * FS :=
  if mkdir_fails f then (Some "mkdir failed", fs)
  else (None, {| files := files fs; dirs := {[ p ]} ∪ dirs fs |}).

Record VegreferanseDiskCache := {
  cacheDir : string
}.

(** [strings.ReplaceAll(key, ",", "_")] *)
Fixpoint ReplaceAll_comma (key : string) : string :=
  match key with
  | EmptyString => EmptyString
  | String c r =>
      String (if Ascii.eqb c "," then "_"%char else c) (ReplaceAll_comma r)
  end.

Section WithLibrary.
Context (L : Library).

(** [getCacheFilePath].  The shortest key [Sprintf] can give is
    ["NaN,NaN"], so [safeKey[:4]] is always in range. *)
Definition getCacheFilePath (c : VegreferanseDiskCache) (x y : float64)
    (fs : FS) (f : Faults) : string * FS :=
  let key := Sprintf_6f L x +:+ "," +:+ Sprintf_6f L y in
  let safeKey := ReplaceAll_comma key in
  let prefix := substring 0 4 safeKey in
  let subDir := filepath_Join L (cacheDir c) prefix in
  let fs :=
    if exists_path fs subDir then fs else snd (MkdirAll fs f subDir) in
  (filepath_Join L subDir (safeKey +:+ ".json"), fs).

(** [Get]: the matches and [found], and the file system after. *)
Definition Get (c : VegreferanseDiskCache) (x y : float64)
    (fs : FS) (f : Faults) : option (list VegreferanseMatch) * FS :=
  let '(filePath, fs) := getCacheFilePath c x y fs f in
  if negb (exists_path fs filePath) then (None, fs)
  else if read_fails f then (None, fs)
  else
    match files fs !! filePath with
    | None => (None, fs)               (* a directory: ReadFile fails *)
    | Some data =>
        match json_Unmarshal_matches L data with
        | Err _ => (None, fs)
        | Ok matches => (Some matches, fs)
        end
    end.

(** [Set]: the error, if any, and the file system after. *)
Definition Set_ (c : VegreferanseDiskCache) (x y : float64)
    (matches : list VegreferanseMatch) (fs : FS) (f : Faults)
  : option string * FS :=
  let '(filePath, fs) := getCacheFilePath c x y fs f in
  match json_Marshal L matches with
  | Err e => (Some ("failed to serialize matches: " +:+ e), fs)
  | Ok data =>
      let dirPath := filepath_Dir L filePath in
      match MkdirAll fs f dirPath with
      | (Some e, fs) => (Some ("failed to create cache subdirectory: " +:+ e), fs)
      | (None, fs) =>
          if write_fails f then
            (Some "failed to write cache file: write failed",
             match write_leaves f with
             | None => fs
             | Some n =>
                 {| files := <[ filePath := substring 0 n data ]> (files fs);
                    dirs := dirs fs |}
             end)
          else (None, {| files := <[ filePath := data ]> (files fs);
                         dirs := dirs fs |})
      end
  end.

End WithLibrary.

End DiskCache.

(** ** The API client *)

Module Api.
Import RateLimit DiskCache.

Record Request := {
  req_method : string;
  req_url : string;
  req_header : list (string * string);
  req_query : list (string * string)
}.

(** What [api.apiClient.Do(req)] and [io.ReadAll(resp.Body)] give. *)
Inductive HttpOutcome :=
| DoFails (err : string)                    (* no response *)
| ReadFails (status : Z) (err : string)     (* the body cannot be read *)
| Response (status : Z) (body : string).

(** What one call of the client meets outside the program. *)
Record Env := {
  faults : Faults;
  delay : Delay;
  http : HttpOutcome
}.

(** What the client shares with the outside: the file system, the clock and
    the requests sent so far (oldest first). *)
Record World := {
  fs : FS;
  clock : Time;
  sent : list Request
}.

Record VegvesenetAPIV4 := {
  baseURL : string;
  rateLimiter : RateLimiter;
  diskCache : option VegreferanseDiskCache     (* [None] is the nil pointer *)
}.

Definition clientName : string := "Koordinater til Vegreferanse".
Definition StatusOK : Z := 200.
Definition StatusNotFound : Z := 404.

Definition with_fs (w : World) (fs' : FS) : World :=
  {| fs := fs'; clock := clock w; sent := sent w |}.

Section WithLibrary.
Context (L : Library).

(** [createRequest] *)
Definition createRequest (api : VegvesenetAPIV4) (method endpoint : string)
  : result Request :=
  let url := baseURL api +:+ endpoint in
  match http_NewRequest_error L method url with
  | Some err => Err ("failed to create request: " +:+ err)
  | None =>
      Ok {| req_method := method; req_url := url;
            req_header :=
              [("Accept", "application/vnd.vegvesen.nvdb-v4+json");
               ("X-Client", clientName);
               ("X-Client-Session", clientSessionID L)];
            req_query := [] |}
  end.

(** [executeRequest]: the body and the status code, or the error; [None]
    when the rate limiter panics. *)
Definition executeRequest (api : VegvesenetAPIV4) (w : World) (e : Env)
    (req : Request)
  : option (result (string * Z) * VegvesenetAPIV4 * World) :=
  match Wait (rateLimiter api) (clock w) (delay e) with
  | None => None
  | Some (r, clock', _) =>
      let api := {| baseURL := baseURL api; rateLimiter := r;
                    diskCache := diskCache api |} in
      let w := {| fs := fs w; clock := clock'; sent := sent w ++ [req] |} in
      match http e with
      | DoFails err => Some (Err ("request failed: " +:+ err), api, w)
      | ReadFails _ err =>
          Some (Err ("failed to read response body: " +:+ err), api, w)
      | Response status body => Some (Ok (body, status), api, w)
      end
  end.

(** [handleErrorResponse]: the error, [None] for nil. *)
Definition handleErrorResponse (statusCode : Z) (respBody : string)
  : option string :=
  if statusCode =? StatusNotFound then None
  else
    let raw :=
      Some ("API returned status code " +:+ pretty statusCode +:+ ": "
            +:+ respBody) in
    match json_Unmarshal_error L respBody with
    | Ok errorResp =>
        if 0 <? len (Messages errorResp) then
          let errorMsg :=
            fold_left
              (fun acc msg =>
                 acc +:+ "[" +:+ pretty (Code msg) +:+ "] "
                 +:+ Message msg +:+ " ")
              (Messages errorResp) "" in
          Some ("API error: " +:+ errorMsg)
        else if negb (String.eqb (Detail errorResp) "") then
          Some ("API error: " +:+ Detail errorResp)
        else raw
    | Err _ => raw
    end.

(** [api.diskCache.Set(x, y, matches)] when the cache is there; its error
    is dropped. *)
Definition cache_matches (api : VegvesenetAPIV4) (w : World) (e : Env)
    (x y : float64) (matches : list VegreferanseMatch) : World :=
  match diskCache api with
  | None => w
  | Some c => with_fs w (snd (Set_ L c x y matches (fs w) (faults e)))
  end.

(** The conversion of the response items to matches. *)
Definition to_match (item : V4PositionResponseItem) : VegreferanseMatch :=
  {| vegsystemreferanse := item_Vegsystemreferanse item;
     Avstand := item_Avstand item |}.

(** [GetVegreferanseMatches]: the matches or the error, the client and
    the world after the call; [None] when the rate limiter panics.  A
    Go [error] that is nil next to a nil slice would be [Ok []]. *)
Definition GetVegreferanseMatches (api : VegvesenetAPIV4) (w : World)
    (e : Env) (x y : float64)
  : option (result (list VegreferanseMatch) * VegvesenetAPIV4 * World) :=
  let '(hit, w) :=
    match diskCache api with
    | None => (None, w)
    | Some c =>
        let '(found, fs') := Get L c x y (fs w) (faults e) in
        (found, with_fs w fs')
    end in
  match hit with
  | Some matches => Some (Ok matches, api, w)
  | None =>
      match createRequest api "GET" "/vegnett/api/v4/posisjon" with
      | Err err => Some (Err err, api, w)
      | Ok req =>
          let req :=
            {| req_method := req_method req; req_url := req_url req;
               req_header := req_header req;
               req_query :=
                 [("nord", Sprintf_6f L y); ("ost", Sprintf_6f L x);
                  ("srid", "5973"); ("maks_antall", "10")] |} in
          match executeRequest api w e req with
          | None => None
          | Some (Err err, api, w) => Some (Err err, api, w)
          | Some (Ok (respBody, statusCode), api, w) =>
              if negb (statusCode =? StatusOK) then
                if statusCode =? StatusNotFound then
                  Some (Ok [], api, cache_matches api w e x y [])
                else
                  match handleErrorResponse statusCode respBody with
                  | Some err => Some (Err err, api, w)
                  | None => Some (Ok [], api, w)
                  end
              else
                match json_Unmarshal_response L respBody with
                | Err err =>
                    Some (Err ("failed to parse response: " +:+ err), api, w)
                | Ok result =>
                    if len result =? 0 then
                      Some (Ok [], api, cache_matches api w e x y [])
                    else
                      let matches := map to_match result in
                      Some (Ok matches, api, cache_matches api w e x y matches)
                end
          end
      end
  end.

End WithLibrary.

End Api.

(** ** The worker pool *)

Module Pool.
Import Selector.

Record processTask := {
  task_lineIdx : Z;
  task_line : string
}.

Record processResult := {
  lineIdx : Z;
  line : string;
  vegreferanse : string;
  matches : list VegreferanseMatch;
  err : option string          (* [None] is the nil error *)
}.

Record CoordToVegrefConfig := {
  XColumn : Z;
  YColumn : Z
}.

(** The zero value [make([]processResult, n)] fills the slice with. *)
Definition zero_processResult : processResult :=
  {| lineIdx := 0; line := ""; vegreferanse := ""; matches := []; err := None |}.

Definition max (a b : Z) : Z := if b <? a then a else b.

(** [strings.Split(line, "\t")]: the fields between the tabs, always at
    least one. *)
Fixpoint split_scan (cur : string) (s : string) : list string :=
  match s with
  | EmptyString => [cur]
  | String c r =>
      if Ascii.eqb c "009"%char then cur :: split_scan EmptyString r
      else split_scan (cur +:+ String c EmptyString) r
  end.
Definition Split_tab (s : string) : list string := split_scan EmptyString s.

(** [fields[i]]: [None] is the panic of an index out of range. *)
Definition at_index (fields : list string) (i : Z) : option string :=
  if i <? 0 then None else fields !! Z.to_nat i.

Section WithProvider.
(** The provider behind the [VegreferanseProvider] interface: what it
    remembers between calls ([PS]: cache, rate limiter, the service) and
    its method [GetVegreferanseMatches].  [strconv.ParseFloat(s, 64)] is
    the library's. *)
Context {PS : Type}.
Context (GetVegreferanseMatches :
           PS -> float64 -> float64 -> result (list VegreferanseMatch) * PS).
Context (ParseFloat : string -> result float64).
Context (modeConfig : CoordToVegrefConfig).

Definition failed (task : processTask) (msg : string) : processResult :=
  {| lineIdx := task_lineIdx task; line := task_line task;
     vegreferanse := ""; matches := []; err := Some msg |}.

(** The body of the worker's loop for one task: the result it sends and
    the provider after; [None] when indexing [fields] panics. *)
Definition worker_body (ps : PS) (task : processTask)
  : option (processResult * PS) :=
  let line := task_line task in
  let fields := Split_tab line in
  if len fields <=? max (XColumn modeConfig) (YColumn modeConfig) then
    Some (failed task "line doesn't have enough columns for coordinates", ps)
  else
    match at_index fields (XColumn modeConfig) with
    | None => None
    | Some xs =>
        match ParseFloat xs with
        | Err e => Some (failed task ("invalid X coordinate: " +:+ e), ps)
        | Ok x =>
            match at_index fields (YColumn modeConfig) with
            | None => None
            | Some ys =>
                match ParseFloat ys with
                | Err e =>
                    Some (failed task ("invalid Y coordinate: " +:+ e), ps)
                | Ok y =>
                    match GetVegreferanseMatches ps x y with
                    | (Err e, ps) =>
                        Some (failed task ("API error: " +:+ e), ps)
                    | (Ok ms, ps) =>
                        let v :=
                          match ms with
                          | [] => ""
                          | m :: _ => kortform m
                          end in
                        Some ({| lineIdx := task_lineIdx task;
                                 line := line;
                                 vegreferanse := v;
                                 matches := ms;
                                 err := None |}, ps)
                    end
                end
            end
        end
    end.

(** A worker goroutine: waiting on [taskChannel], holding a task, or
    returned (its [range] ended on the closed, drained channel). *)
Inductive worker :=
| Idle
| Busy (task : processTask)
| Exited.

(** The goroutines of [processCoordinatesToVegreferanse] up to
    [wg.Wait()]: the tasks the main goroutine has still to send, whether
    it has closed [taskChannel], the two channels (oldest first), the
    workers and the provider they share.  Both channels have room for
    every line, so no send blocks. *)
Record pool := {
  pending : list processTask;
  closed : bool;
  taskChannel : list processTask;
  workers : list worker;
  resultChannel : list processResult;
  provider : PS
}.

(** The tasks of [for i, line := range lines]. *)
Fixpoint tasks_from (i : Z) (lines : list string) : list processTask :=
  match lines with
  | [] => []
  | l :: rest => {| task_lineIdx := i; task_line := l |} :: tasks_from (i + 1) rest
  end.

Definition init (lines : list string) (workers : Z) (ps : PS) : pool :=
  {| pending := tasks_from 0 lines; closed := false; taskChannel := [];
     workers := replicate (Z.to_nat workers) Idle; resultChannel := [];
     provider := ps |}.

(** One step of one goroutine; the scheduler picks which. *)
Inductive step : pool -> pool -> Prop :=
| step_send st t rest :
    pending st = t :: rest ->
    step st {| pending := rest; closed := closed st;
               taskChannel := taskChannel st ++ [t];
               workers := workers st; resultChannel := resultChannel st;
               provider := provider st |}
| step_close st :
    pending st = [] -> closed st = false ->
    step st {| pending := []; closed := true;
               taskChannel := taskChannel st;
               workers := workers st; resultChannel := resultChannel st;
               provider := provider st |}
| step_receive st w t rest :
    workers st !! w = Some Idle ->
    taskChannel st = t :: rest ->
    step st {| pending := pending st; closed := closed st;
               taskChannel := rest;
               workers := <[ w := Busy t ]> (workers st);
               resultChannel := resultChannel st;
               provider := provider st |}
| step_work st w t r ps :
    workers st !! w = Some (Busy t) ->
    worker_body (provider st) t = Some (r, ps) ->
    step st {| pending := pending st; closed := closed st;
               taskChannel := taskChannel st;
               workers := <[ w := Idle ]> (workers st);
               resultChannel := resultChannel st ++ [r];
               provider := ps |}
| step_exit st w :
    workers st !! w = Some Idle ->
    taskChannel st = [] -> closed st = true ->
    step st {| pending := pending st; closed := closed st;
               taskChannel := taskChannel st;
               workers := <[ w := Exited ]> (workers st);
               resultChannel := resultChannel st;
               provider := provider st |}.

(** [wg.Wait()] returns: the main goroutine has closed the channel and
    every worker has returned. *)
Definition joined (st : pool) : Prop :=
  closed st = true /\ Forall (fun w => w = Exited) (workers st).

(** [results[result.lineIdx] = result] for the results read from the
    channel; [None] is the panic of an index out of range. *)
Fixpoint collect (results : list processResult) (received : list processResult)
  : option (list processResult) :=
  match received with
  | [] => Some results
  | r :: rest =>
      if (0 <=? lineIdx r) && (lineIdx r <? len results)
      then collect (<[ Z.to_nat (lineIdx r) := r ]> results) rest
      else None
  end.

(** What [sort.Slice] promises for the order [results[i].lineIdx <
    results[j].lineIdx]: the same elements, none before a smaller one.
    The sort is not stable. *)
Definition sort_Slice (before after : list processResult) : Prop :=
  before ≡ₚ after /\
  StronglySorted (fun a b => (lineIdx b <? lineIdx a) = false) after.

(** [processCoordinatesToVegreferanse] returns [results] (its error is
    always nil) and leaves the provider as [ps']. *)
Definition processCoordinatesToVegreferanse (lines : list string) (ps : PS)
    (workers : Z) (results : list processResult) (ps' : PS) : Prop :=
  exists st collected,
    rtc step (init lines workers ps) st /\ joined st /\
    provider st = ps' /\
    collect (replicate (length lines) zero_processResult) (resultChannel st)
      = Some collected /\
    sort_Slice collected results.

End WithProvider.

(** [applyVegreferanseSelector]: the loop, with the selector it threads. *)
Fixpoint apply_from (selector : VegreferanseSelector) (results : list processResult)
  : list processResult * VegreferanseSelector :=
  match results with
  | [] => ([], selector)
  | result :: rest =>
      if 0 <? len (matches result) then
        let v := SelectBestMatch selector (matches result) in
        let selector := AddToHistory selector v in
        let '(rest', s') := apply_from selector rest in
        ({| lineIdx := lineIdx result; line := line result; vegreferanse := v;
            matches := matches result; err := err result |} :: rest', s')
      else
        let '(rest', s') := apply_from selector rest in
        (result :: rest', s')
  end.

Definition applyVegreferanseSelector (results : list processResult)
  : list processResult :=
  match NewVegreferanseSelector 10 with
  | None => results
  | Some selector => fst (apply_from selector results)
  end.

(** [writeResults]: the lines written to the output file, the header
    first.  The calls to the operating system are taken to succeed; one that
    fails ends the function with a prefix of this output. *)
Definition row (result : processResult) : string :=
  line result +:+ String "009"%char EmptyString +:+ vegreferanse result
  +:+ String "010"%char EmptyString.

Definition written (result : processResult) : bool :=
  match err result with
  | Some _ => false
  | None => true
  end.

Definition writeResults (header : string) (results : list processResult)
  : list string :=
  (header +:+ String "010"%char EmptyString)
  :: map row (List.filter written results).

(** The [coord_to_vegref] branch of [processFile], from the results of the
    pool to the lines of the output file. *)
Definition output_of (header : string) (results : list processResult)
  : list string :=
  writeResults (header +:+ String "009"%char "Vegreferanse")
    (applyVegreferanseSelector results).

End Pool.

(** ** More of Go's strings *)

Module Strings.

(** [strings.HasPrefix(s, prefix)] *)
Definition HasPrefix (s prefix : string) : bool := String.prefix prefix s.

(** [s[n:]], for [n <= len(s)] *)
Fixpoint drop_bytes (n : nat) (s : string) : string :=
  match n, s with
  | S n, String _ r => drop_bytes n r
  | _, _ => s
  end.

(** [strings.TrimPrefix(s, prefix)] *)
Definition TrimPrefix (s prefix : string) : string :=
  if HasPrefix s prefix then drop_bytes (String.length prefix) s else s.

(** [strings.HasSuffix(s, suffix)] *)
Definition HasSuffix (s suffix : string) : bool :=
  (String.length suffix <=? String.length s)%nat
  && String.eqb (drop_bytes (String.length s - String.length suffix) s) suffix.

(** [strings.TrimSuffix(s, suffix)] *)
Definition TrimSuffix (s suffix : string) : string :=
  if HasSuffix s suffix
  then substring 0 (String.length s - String.length suffix) s
  else s.

(** [strings.Contains(s, substr)] *)
Fixpoint Contains (s substr : string) : bool :=
  String.prefix substr s
  || match s with
     | EmptyString => false
     | String _ r => Contains r substr
     end.

(** The scan of [strings.ReplaceAll(s, old, new)] for an [old] that is not
    empty, as in every call of the program: the occurrences of [old] that do
    not overlap, from the left.  [skip] counts the bytes still to drop of the
    occurrence being replaced.  (With an empty [old] Go inserts [new] around
    every code point, which this scan does not do.) *)
Fixpoint replace_scan (old new : string) (skip : nat) (s : string) : string :=
  match s with
  | EmptyString => EmptyString
  | String c r =>
      match skip with
      | S k => replace_scan old new k r
      | O =>
          if String.prefix old s
          then new +:+ replace_scan old new (String.length old - 1) r
          else String c (replace_scan old new 0 r)
      end
  end.

Definition ReplaceAll (s old new : string) : string := replace_scan old new 0 s.

End Strings.

(** ** From a road reference to coordinates *)

Module Reverse.
Import RateLimit DiskCache Api Strings.

Record Coordinate := {
  X : float64;     (* Easting *)
  Y : float64      (* Northing *)
}.

(** [Coordinate{}] *)
Definition zero_Coordinate : Coordinate := {| X := 0%float; Y := 0%float |}.

(** [LocationData], the type local to [GetCoordinatesFromVegreferanse] *)
Record LocationData := {
  loc_Geometri : Geometri       (* field Geometri *)
}.

(** The library functions of the reverse lookup. *)
Record ReverseLibrary := {
  (** [url.QueryEscape] *)
  url_QueryEscape : string -> string;
  (** [json.Unmarshal] into a [map[string]LocationData] *)
  json_Unmarshal_locations : string -> result (gmap string LocationData);
  (** [strconv.ParseFloat(s, 64)] *)
  strconv_ParseFloat : string -> result float64
}.

Section WithLibrary.
Context (L : Library) (RL : ReverseLibrary).

(** The part of [parseWKTToCoordinate] after the prefix and the suffix are
    trimmed. *)
Definition parse_coordinates (wkt : string) : result Coordinate :=
  let parts := Fields wkt in
  if len parts <? 2 then
    Err ("invalid WKT format, not enough coordinate values: " +:+ wkt)
  else
    match strconv_ParseFloat RL (index parts 0) with
    | Err e => Err ("failed to parse X coordinate: " +:+ e)
    | Ok x =>
        match strconv_ParseFloat RL (index parts 1) with
        | Err e => Err ("failed to parse Y coordinate: " +:+ e)
        | Ok y => Ok {| X := x; Y := y |}
        end
    end.

(** [parseWKTToCoordinate] *)
Definition parseWKTToCoordinate (wkt : string) : result Coordinate :=
  if String.eqb wkt "" then Err "empty WKT string"
  else
    let wkt := ReplaceAll wkt "POINT Z(" "POINT Z (" in
    let wkt := ReplaceAll wkt "POINT ZM(" "POINT ZM (" in
    let wkt := ReplaceAll wkt "POINT M(" "POINT M (" in
    let wkt := ReplaceAll wkt "POINT(" "POINT (" in
    if HasPrefix wkt "POINT Z (" then
      parse_coordinates (TrimSuffix (TrimPrefix wkt "POINT Z (") ")")
    else if HasPrefix wkt "POINT ZM (" then
      parse_coordinates (TrimSuffix (TrimPrefix wkt "POINT ZM (") ")")
    else if HasPrefix wkt "POINT M (" then
      parse_coordinates (TrimSuffix (TrimPrefix wkt "POINT M (") ")")
    else if HasPrefix wkt "POINT (" then
      parse_coordinates (TrimSuffix (TrimPrefix wkt "POINT (") ")")
    else if Contains wkt "EMPTY" then
      Err ("empty geometry in WKT: " +:+ wkt)
    else
      Err ("unrecognized WKT format: " +:+ wkt).

(** [GetCoordinatesFromVegreferanse]: the coordinate or the error, the
    client and the world after the call; [None] when the rate limiter
    panics. *)
Definition GetCoordinatesFromVegreferanse (api : VegvesenetAPIV4) (w : World)
    (e : Env) (vegreferanse : string)
  : option (result Coordinate * VegvesenetAPIV4 * World) :=
  let encodedVegreferanse := url_QueryEscape RL vegreferanse in
  let endpoint :=
    "/vegnett/api/v4/veg/batch?vegsystemreferanser=" +:+ encodedVegreferanse in
  match createRequest L api "GET" endpoint with
  | Err err => Some (Err err, api, w)
  | Ok req =>
      match executeRequest api w e req with
      | None => None
      | Some (Err err, api, w) => Some (Err err, api, w)
      | Some (Ok (respBody, statusCode), api, w) =>
          if negb (statusCode =? StatusOK) then
            if statusCode =? StatusNotFound then
              Some (Err ("vegreferanse not found: " +:+ vegreferanse), api, w)
            else
              match handleErrorResponse L statusCode respBody with
              | Some err => Some (Err err, api, w)
              | None => Some (Ok zero_Coordinate, api, w)
              end
          else
            match json_Unmarshal_locations RL respBody with
            | Err err =>
                Some (Err ("failed to parse response: " +:+ err), api, w)
            | Ok responseMap =>
                match responseMap !! vegreferanse with
                | None =>
                    Some (Err ("no data found for vegreferanse: "
                               +:+ vegreferanse), api, w)
                | Some locationData =>
                    Some (parseWKTToCoordinate (Wkt (loc_Geometri locationData)),
                          api, w)
                end
            end
      end
  end.

(** [GetVegreferanseFromCoordinates] *)
Definition GetVegreferanseFromCoordinates (api : VegvesenetAPIV4) (w : World)
    (e : Env) (x y : float64)
  : option (result string * VegvesenetAPIV4 * World) :=
  match GetVegreferanseMatches L api w e x y with
  | None => None
  | Some (Err err, api, w) => Some (Err err, api, w)
  | Some (Ok matches, api, w) =>
      match matches with
      | [] => Some (Ok "", api, w)                  (* len(matches) == 0 *)
      | first :: _ => Some (Ok (kortform first), api, w)
      end
  end.

End WithLibrary.

End Reverse.

(** ** The road report *)

Module Report.
Import Pool.

Record roadRange := {
  startRow : Z;
  endRow : Z
}.

(** [extractRoadNumber] *)
Definition extractRoadNumber (vegreferanse : string) : string :=
  if String.eqb vegreferanse "" then ""
  else
    match Fields vegreferanse with
    | [] => ""
    | first :: _ => first
    end.

(** [roadNumbers[road] = append(roadNumbers[road], r)]; a road that is not
    in the map has the nil slice. *)
Definition append_range (roadNumbers : gmap string (list roadRange))
    (road : string) (r : roadRange) : gmap string (list roadRange) :=
  <[ road := (roadNumbers !!! road) ++ [r] ]> roadNumbers.

(** The variables of the loop of [identifyRoadRanges]. *)
Record ranges_state := {
  roadNumbers : gmap string (list roadRange);
  currentRoad : string;
  currentRange : roadRange
}.

(** [currentRange.endRow = i] and the append that follows it. *)
Definition finish (st : ranges_state) (i : Z) : ranges_state :=
  let currentRange := {| startRow := startRow (currentRange st); endRow := i |} in
  {| roadNumbers := append_range (roadNumbers st) (currentRoad st) currentRange;
     currentRoad := currentRoad st;
     currentRange := currentRange |}.

(** One iteration of [for i, result := range results].  The index is below
    the length of a slice, so [i + 1] does not overflow. *)
Definition ranges_step (st : ranges_state) (i : Z) (result : processResult)
  : ranges_state :=
  let roadNumber := extractRoadNumber (vegreferanse result) in
  if String.eqb roadNumber "" then
    if negb (String.eqb (currentRoad st) "") then
      let st := finish st i in
      {| roadNumbers := roadNumbers st; currentRoad := "";
         currentRange := currentRange st |}
    else st
  else if negb (String.eqb roadNumber (currentRoad st)) then
    let st := if negb (String.eqb (currentRoad st) "") then finish st i else st in
    {| roadNumbers := roadNumbers st; currentRoad := roadNumber;
       currentRange := {| startRow := i + 1; endRow := 0 |} |}
  else
    {| roadNumbers := roadNumbers st; currentRoad := currentRoad st;
       currentRange := {| startRow := startRow (currentRange st); endRow := i + 1 |} |}.

Fixpoint ranges_from (i : Z) (results : list processResult) (st : ranges_state)
  : ranges_state :=
  match results with
  | [] => st
  | result :: rest => ranges_from (i + 1) rest (ranges_step st i result)
  end.

(** [identifyRoadRanges] *)
Definition identifyRoadRanges (results : list processResult)
  : gmap string (list roadRange) :=
  let st :=
    ranges_from 0 results
      {| roadNumbers := ∅; currentRoad := "";
         currentRange := {| startRow := 0; endRow := 0 |} |} in
  if negb (String.eqb (currentRoad st) "")
  then roadNumbers (finish st (len results))
  else roadNumbers st.

(** The merging loop of [generateRoadReport]: [merged ++ [lastRange]] is
    [mergedRanges], which is never empty. *)
Fixpoint merge_from (merged : list roadRange) (lastRange : roadRange)
    (ranges : list roadRange) : list roadRange :=
  match ranges with
  | [] => merged ++ [lastRange]
  | currentRange :: rest =>
      if startRow currentRange <=? wrap64 (endRow lastRange + 1) then
        if endRow lastRange <? endRow currentRange then
          merge_from merged
            {| startRow := startRow lastRange; endRow := endRow currentRange |} rest
        else merge_from merged lastRange rest
      else merge_from (merged ++ [lastRange]) currentRange rest
  end.

(** The ranges [generateRoadReport] prints for one road. *)
Definition mergeRanges (ranges : list roadRange) : list roadRange :=
  match ranges with
  | first :: (second :: others) =>          (* len(ranges) > 1 *)
      merge_from [] first (second :: others)
  | _ => ranges
  end.

(** [sort.Strings]: by bytes. *)
Definition sort_Strings (l : list string) : list string :=
  merge_sort (fun a b => String.leb a b = true)
    (H := fun a b => bool_eq_dec (String.leb a b) true) l.

(** [fmt.Printf("%s - Rows %d-%d\n", road, r.startRow+1, r.endRow+1)] *)
Definition report_line (road : string) (r : roadRange) : string :=
  road +:+ " - Rows " +:+ pretty (wrap64 (startRow r + 1)) +:+ "-"
  +:+ pretty (wrap64 (endRow r + 1)) +:+ String "010"%char EmptyString.

(** [generateRoadReport]: the lines it prints. *)
Definition generateRoadReport (roadNumbers : gmap string (list roadRange))
  : list string :=
  (String "010"%char "Road numbers summary:" +:+ String "010"%char EmptyString)
  :: if len (map_to_list roadNumbers) =? 0 then
       ["No road numbers identified." +:+ String "010"%char EmptyString]
     else
       let roadList := sort_Strings (map fst (map_to_list roadNumbers)) in
       concat
         (map (fun road => map (report_line road) (mergeRanges (roadNumbers !!! road)))
              roadList).

End Report.

(** ** The configuration and the input file *)

Module Input.
Import Pool.

Record VegrefToCoordConfig := {
  VegreferanseColumn : Z
}.

Record Config := {
  Mode : string;
  InputPath : string;
  OutputPath : string;
  DisableCache : bool;
  CacheDir : string;
  ClearCache : bool;
  RateLimit : Z;
  RateLimitTime : Z;
  Workers : Z;
  CoordToVegref : option CoordToVegrefConfig;     (* [None] is the nil pointer *)
  VegrefToCoord : option VegrefToCoordConfig
}.

(** What [os.Open] and the [bufio.Scanner] give for the input file: no file,
    or the lines the calls of [scanner.Scan()] deliver and the error
    [scanner.Err()] reports after the last of them, if any. *)
Inductive InputFile :=
| OpenFails (err : string)
| Scans (lines : list string) (err : option string).

(** The [switch config.Mode] of [readInputFile]: the error it returns, if
    any. *)
Definition check_columns (config : Config) (expectedColumnCount : Z)
  : option string :=
  if String.eqb (Mode config) "coord_to_vegref" then
    match CoordToVegref config with
    | None => Some "coord_to_vegref configuration is not initialized"
    | Some c =>
        if (XColumn c <? 0) || (expectedColumnCount <=? XColumn c) then
          Some ("column X index " +:+ pretty (XColumn c)
                +:+ " is out of range (file has " +:+ pretty expectedColumnCount
                +:+ " columns)")
        else if (YColumn c <? 0) || (expectedColumnCount <=? YColumn c) then
          Some ("column Y index " +:+ pretty (YColumn c)
                +:+ " is out of range (file has " +:+ pretty expectedColumnCount
                +:+ " columns)")
        else None
    end
  else if String.eqb (Mode config) "vegref_to_coord" then
    match VegrefToCoord config with
    | None => Some "vegref_to_coord configuration is not initialized"
    | Some c =>
        if (VegreferanseColumn c <? 0)
           || (expectedColumnCount <=? VegreferanseColumn c) then
          Some ("column Vegreferanse index " +:+ pretty (VegreferanseColumn c)
                +:+ " is out of range (file has " +:+ pretty expectedColumnCount
                +:+ " columns)")
        else None
    end
  else None.

(** [readInputFile]: the header and the data lines, or the error. *)
Definition readInputFile (file : InputFile) (config : Config)
  : result (string * list string) :=
  match file with
  | OpenFails err => Err ("failed to open input file: " +:+ err)
  | Scans [] _ => Err "input file is empty"
  | Scans (header :: lines) scan_err =>
      let headerColumns := Split_tab header in
      let expectedColumnCount := len headerColumns in
      match check_columns config expectedColumnCount with
      | Some err => Err err
      | None =>
          match scan_err with
          | Some err => Err ("error reading input file: " +:+ err)
          | None => Ok (header, lines)
          end
      end
  end.

End Input.

(** ** The worker pool of the reverse mode *)

Module ReversePool.
Import Pool Input Reverse.

(** The bytes of the white space code point a text ends with, read from
    the reversed text: [rev] starts with the last byte.  [0] when it ends
    with none.  The code points are those of [space_width]. *)
Definition space_width_end (rev : string) : nat :=
  match rev with
  | EmptyString => 0%nat
  | String c2 r1 =>
      let b2 := code c2 in
      if asciiSpace b2 then 1%nat
      else
        match r1 with
        | EmptyString => 0%nat
        | String c1 r0 =>
            let b1 := code c1 in
            if (b1 =? 194) && ((b2 =? 133) || (b2 =? 160)) then 2%nat
            else
              match r0 with
              | EmptyString => 0%nat
              | String c0 _ =>
                  let b0 := code c0 in
                  if (b0 =? 225) && (b1 =? 154) && (b2 =? 128) then 3%nat
                  else if (b0 =? 226) && (b1 =? 128)
                          && (((128 <=? b2) && (b2 <=? 138))
                              || (b2 =? 168) || (b2 =? 169) || (b2 =? 175))
                  then 3%nat
                  else if (b0 =? 226) && (b1 =? 129) && (b2 =? 159) then 3%nat
                  else if (b0 =? 227) && (b1 =? 128) && (b2 =? 128) then 3%nat
                  else 0%nat
              end
        end
  end.

(** The white space code points at the head of [s] are dropped; [skip]
    counts the bytes still to drop of the one being crossed. *)
Fixpoint trim_scan (width : string -> nat) (skip : nat) (s : string) : string :=
  match s with
  | EmptyString => EmptyString
  | String c r =>
      match skip with
      | S k => trim_scan width k r
      | O =>
          match width s with
          | O => s
          | S k => trim_scan width k r
          end
      end
  end.

(** [strings.TrimSpace]: the white space code points at the head are
    dropped, then those at the end. *)
Definition TrimSpace (s : string) : string :=
  String.rev (trim_scan space_width_end 0 (String.rev (trim_scan space_width 0 s))).

Section WithProvider.
(** The provider behind the [CoordinateProvider] interface, with what it
    remembers between calls, and [fmt.Sprintf("%.6f", v)]. *)
Context {PS : Type}.
Context (GetCoordinatesFromVegreferanse : PS -> string -> result Coordinate * PS).
Context (Sprintf_6f : float64 -> string).
Context (modeConfig : VegrefToCoordConfig).

(** The body of the worker's loop for one task: the result it sends and
    the provider after; [None] when indexing [fields] panics. *)
Definition worker_body (ps : PS) (task : processTask)
  : option (processResult * PS) :=
  let line := task_line task in
  let fields := Split_tab line in
  if len fields <=? VegreferanseColumn modeConfig then
    Some (failed task "line doesn't have enough columns for vegreferanse", ps)
  else
    match at_index fields (VegreferanseColumn modeConfig) with
    | None => None
    | Some field =>
        let vegreferanse := TrimSpace field in
        if String.eqb vegreferanse "" then
          Some (failed task "empty vegreferanse", ps)
        else
          match GetCoordinatesFromVegreferanse ps vegreferanse with
          | (Err e, ps) => Some (failed task ("API error: " +:+ e), ps)
          | (Ok coords, ps) =>
              let xValue := Sprintf_6f (X coords) in
              let yValue := Sprintf_6f (Y coords) in
              Some ({| lineIdx := task_lineIdx task;
                       line := line;
                       vegreferanse :=
                         xValue +:+ String "009"%char EmptyString +:+ yValue;
                       matches := [];
                       err := None |}, ps)
          end
    end.

(** One step of one goroutine of [processVegreferanseToCoordinates]: the
    goroutines and the channels are those of
    [processCoordinatesToVegreferanse], the body of the loop is the one
    above. *)
Inductive step : pool -> pool -> Prop :=
| step_send st t rest :
    pending st = t :: rest ->
    step st {| pending := rest; closed := closed st;
               taskChannel := taskChannel st ++ [t];
               workers := workers st; resultChannel := resultChannel st;
               provider := provider st |}
| step_close st :
    pending st = [] -> closed st = false ->
    step st {| pending := []; closed := true;
               taskChannel := taskChannel st;
               workers := workers st; resultChannel := resultChannel st;
               provider := provider st |}
| step_receive st w t rest :
    workers st !! w = Some Idle ->
    taskChannel st = t :: rest ->
    step st {| pending := pending st; closed := closed st;
               taskChannel := rest;
               workers := <[ w := Busy t ]> (workers st);
               resultChannel := resultChannel st;
               provider := provider st |}
| step_work st w t r ps :
    workers st !! w = Some (Busy t) ->
    worker_body (provider st) t = Some (r, ps) ->
    step st {| pending := pending st; closed := closed st;
               taskChannel := taskChannel st;
               workers := <[ w := Idle ]> (workers st);
               resultChannel := resultChannel st ++ [r];
               provider := ps |}
| step_exit st w :
    workers st !! w = Some Idle ->
    taskChannel st = [] -> closed st = true ->
    step st {| pending := pending st; closed := closed st;
               taskChannel := taskChannel st;
               workers := <[ w := Exited ]> (workers st);
               resultChannel := resultChannel st;
               provider := provider st |}.

(** [processVegreferanseToCoordinates] returns [results] (its error is
    always nil) and leaves the provider as [ps']. *)
Definition processVegreferanseToCoordinates (lines : list string) (ps : PS)
    (workers : Z) (results : list processResult) (ps' : PS) : Prop :=
  exists st collected,
    rtc step (init lines workers ps) st /\ joined st /\
    provider st = ps' /\
    collect (replicate (length lines) zero_processResult) (resultChannel st)
      = Some collected /\
    sort_Slice collected results.

End WithProvider.

(** The [vegref_to_coord] branch of [processFile], from the results of the
    pool to the lines of the output file. *)
Definition output_of (header : string) (results : list processResult)
  : list string :=
  writeResults
    (header +:+ String "009"%char "X_UTM33" +:+ String "009"%char "Y_UTM33")
    results.

End ReversePool.

(** ** The constructors of the client *)

Module Setup.
Import RateLimit DiskCache Api.

(** [NewVegreferanseDiskCache]: the cache or the error, and the file system
    after. *)
Definition NewVegreferanseDiskCache (cacheDir : string) (fs : FS) (f : Faults)
  : result VegreferanseDiskCache * FS :=
  match MkdirAll fs f cacheDir with
  | (Some err, fs) => (Err ("failed to create cache directory: " +:+ err), fs)
  | (None, fs) => (Ok {| cacheDir := cacheDir |}, fs)
  end.

(** [NewVegvesenetAPIV4]: the client and the file system after; [None] when
    [NewRateLimiter] panics.  A disk cache that cannot be initialized is
    a warning, and the client is made without it. *)
Definition NewVegvesenetAPIV4 (callsLimit : Z) (timeFrame : Duration)
    (diskCachePath : string) (fs : FS) (f : Faults)
  : option (VegvesenetAPIV4 * FS) :=
  let '(diskCache, fs) :=
    if negb (String.eqb diskCachePath "") then
      match NewVegreferanseDiskCache diskCachePath fs f with
      | (Ok c, fs) => (Some c, fs)
      | (Err _, fs) => (None, fs)
      end
    else (None, fs) in
  match NewRateLimiter callsLimit timeFrame with
  | None => None
  | Some r =>
      Some ({| baseURL := "https://nvdbapiles.atlas.vegvesen.no";
               rateLimiter := r;
               diskCache := diskCache |}, fs)
  end.

End Setup.

(** * Properties *)

Import Selector.

(** ** The selector's tests *)

Example extractCategory_tests :
  extractCategory "E18" = "E" /\ extractCategory "Kv1000" = "Kv" /\
  extractCategory "Fv100" = "Fv" /\ extractCategory "Rv4" = "Rv" /\
  extractCategory "" = "" /\ extractCategory "NoNumbers" = "NoNumbers".
Proof. repeat split. Qed.

Example Fields_tests :
  Fields "E18 S65D1 m12621" = ["E18"; "S65D1"; "m12621"] /\
  Fields "  Kv1000   S1D1 " = ["Kv1000"; "S1D1"] /\
  Fields "" = [] /\ Fields "   " = [].
Proof. repeat split. Qed.

(** A no-break space (U+00A0, bytes C2 A0) and an ideographic space (U+3000,
    bytes E3 80 80) separate fields; a lone byte C2 does not. *)
Example Fields_unicode_tests :
  Fields ("E18" +:+ String "194"%char (String "160"%char "S65D1")) = ["E18"; "S65D1"] /\
  Fields ("E18" +:+ String "227"%char (String "128"%char (String "128"%char "S65D1")))
  = ["E18"; "S65D1"] /\
  Fields ("E18" +:+ String "194"%char "S65D1")
  = ["E18" +:+ String "194"%char "S65D1"].
Proof. repeat split. Qed.

Example select_empty_history :
  SelectBestMatch {| history := []; maxHistory := 5 |}
    [mkMatch "E18 S65D1 m12621" 2.5%float; mkMatch "Kv1000 S1D1 m500" 1%float]
  = "E18 S65D1 m12621".
Proof. reflexivity. Qed.

Example select_with_history :
  SelectBestMatch {| history := ["E18 S65D1 m12500"]; maxHistory := 5 |}
    [mkMatch "Kv1000 S1D1 m500" 1%float; mkMatch "E18 S65D1 m12600" 3%float]
  = "E18 S65D1 m12600".
Proof. vm_compute. reflexivity. Qed.

Example select_same_category :
  SelectBestMatch {| history := ["E6 S28D1 m3200"]; maxHistory := 5 |}
    [mkMatch "E18 S65D1 m12600" 2%float; mkMatch "Fv100 S1D1 m500" 1.5%float]
  = "E18 S65D1 m12600".
Proof. vm_compute. reflexivity. Qed.

(** ** The scan of [SelectBestMatch] *)

(** The scores of the candidates against the last selection. *)
Definition scores (lastVegreferanse : string) (matches : list VegreferanseMatch)
  : list Z :=
  map (fun m => calculateMatchScore lastVegreferanse (kortform m) (Avstand m))
      matches.

(** [i] is the first index at which [l] takes its greatest value. *)
Definition first_maximal (l : list Z) (i : nat) : Prop :=
  exists v, l !! i = Some v /\
            (forall j w, l !! j = Some w -> w <= v) /\
            (forall j w, (j < i)%nat -> l !! j = Some w -> w < v).

(** The scan either keeps the best it started with, no later score being
    greater, or ends on the first position where the greatest later score,
    greater than the one it started with, is taken. *)
Lemma scan_from_best last ms : forall i st,
  let st' := scan_from last i ms st in
  (bestMatch st' = bestMatch st /\ bestScore st' = bestScore st /\
   forall w, w ∈ scores last ms -> w <= bestScore st)
  \/
  (exists k : nat,
      bestMatch st' = i + Z.of_nat k /\
      (scores last ms) !! k = Some (bestScore st') /\
      bestScore st < bestScore st' /\
      (forall j w, (scores last ms) !! j = Some w -> w <= bestScore st') /\
      (forall j w, (j < k)%nat -> (scores last ms) !! j = Some w -> w < bestScore st')).
Proof.
  induction ms as [|m ms IH]; intros i st; simpl.
  - left. split; [done|]. split; [done|]. intros w Hw. inversion Hw.
  - set (sc := calculateMatchScore last (kortform m) (Avstand m)).
    set (st1 := scan_step last st i m).
    assert (Hst1 : ((bestScore st <? sc) = true /\ bestMatch st1 = i /\ bestScore st1 = sc)
                   \/ ((bestScore st <? sc) = false /\ bestMatch st1 = bestMatch st
                       /\ bestScore st1 = bestScore st)).
    { unfold st1, scan_step. fold sc.
      destruct (bestScore st <? sc) eqn:E;
        destruct (PrimFloat.ltb _ _); simpl; [left|left|right|right]; done. }
    destruct (IH (i + 1) st1) as [(Hm & Hs & Hle) | (k & Hm & Hk & Hlt & Hall & Hbefore)].
    + destruct Hst1 as [(E & Hm1 & Hs1) | (E & Hm1 & Hs1)].
      * right. exists 0%nat. apply Z.ltb_lt in E.
        rewrite Hm, Hs, Hm1, Hs1. split; [lia|]. split; [done|]. split; [lia|].
        split.
        -- intros [|j] w Hj; simpl in Hj.
           ++ injection Hj as <-. lia.
           ++ specialize (Hle w). rewrite Hs1 in Hle. apply Hle.
              apply list_elem_of_lookup. eauto.
        -- intros j w Hj. lia.
      * left. apply Z.ltb_ge in E. rewrite Hm, Hs, Hm1, Hs1.
        split; [done|]. split; [done|].
        intros w Hw. apply elem_of_cons in Hw as [->|Hw]; [done|].
        specialize (Hle w Hw). lia.
    + right. exists (S k). rewrite Hm. split; [lia|]. split; [done|].
      assert (Hge : bestScore st <= bestScore st1 /\ sc <= bestScore st1).
      { destruct Hst1 as [(E & _ & Hs1) | (E & _ & Hs1)]; rewrite Hs1.
        - apply Z.ltb_lt in E. lia.
        - apply Z.ltb_ge in E. lia. }
      split; [lia|]. split.
      * intros [|j] w Hj; simpl in Hj.
        -- injection Hj as <-. lia.
        -- eapply Hall; eauto.
      * intros [|j] w Hlt' Hj; simpl in Hj.
        -- injection Hj as <-. lia.
        -- eapply Hbefore; [|eauto]. lia.
Qed.

(** The label returned once the scan has run: the candidate at [bestMatch]
    when the scan found one, the first candidate otherwise. *)
Lemma SelectBestMatch_scanned s first rest :
  (2 <= length (first :: rest))%nat -> history s <> [] ->
  let st := scan_from (List.last (history s) "") 0 (first :: rest)
              {| bestMatch := -1; bestScore := -1;
                 closestMatchDistance := Avstand first; closestMatchIndex := 0 |} in
  SelectBestMatch s (first :: rest) =
    if 0 <=? bestMatch st
    then kortform (nth (Z.to_nat (bestMatch st)) (first :: rest) first)
    else kortform first.
Proof.
  intros Hlen Hh. unfold SelectBestMatch.
  destruct (len (first :: rest) =? 1) eqn:E1.
  { apply Z.eqb_eq in E1. unfold len in E1. simpl in Hlen, E1. lia. }
  destruct (len (history s) =? 0) eqn:E2.
  { apply Z.eqb_eq in E2. unfold len in E2. destruct (history s); [done|]. simpl in E2. lia. }
  reflexivity.
Qed.

(** The claim of the specification about the choice among several
    candidates: the label returned is that of the first candidate of greatest
    score against the last selection. *)
Definition first_maximal_wins (s : VegreferanseSelector)
    (matches : list VegreferanseMatch) : Prop :=
  exists i c,
    first_maximal (scores (List.last (history s) "") matches) i /\
    matches !! i = Some c /\
    SelectBestMatch s matches = kortform c.

(** C1, as amended.  With at least two candidates and a non-empty history,
    [SelectBestMatch] returns the label of the first candidate of greatest
    score whenever some candidate scores at least 0; when every candidate
    scores below 0 it returns the label of the first candidate of the list. *)
Theorem SelectBestMatch_first_maximal_nonnegative s matches :
  (2 <= length matches)%nat -> history s <> [] ->
  let sc := scores (List.last (history s) "") matches in
  ((exists v, v ∈ sc /\ 0 <= v) -> first_maximal_wins s matches) /\
  ((forall v, v ∈ sc -> v < 0) ->
   exists first, head matches = Some first /\
                 SelectBestMatch s matches = kortform first).
Proof.
  intros Hlen Hh sc. destruct matches as [|first rest]; [simpl in Hlen; lia|].
  pose proof (SelectBestMatch_scanned s first rest Hlen Hh) as Hsel.
  cbv zeta in Hsel.
  set (st0 := {| bestMatch := -1; bestScore := -1;
                 closestMatchDistance := Avstand first; closestMatchIndex := 0 |}) in *.
  pose proof (scan_from_best (List.last (history s) "") (first :: rest) 0 st0) as Hscan.
  cbv zeta in Hscan. fold sc in Hscan.
  set (st := scan_from (List.last (history s) "") 0 (first :: rest) st0) in *.
  change (bestMatch st0) with (-1) in Hscan.
  change (bestScore st0) with (-1) in Hscan.
  destruct Hscan as [(Hm & Hs & Hle) | (k & Hm & Hk & Hlt & Hall & Hbefore)].
  - split.
    + intros (v & Hv & Hpos). specialize (Hle v Hv). lia.
    + intros _. exists first. split; [done|].
      rewrite Hsel, Hm. reflexivity.
  - split.
    + intros _. unfold first_maximal_wins, first_maximal. fold sc.
      assert (exists c, (first :: rest) !! k = Some c) as [c Hc].
      { apply lookup_lt_is_Some. apply lookup_lt_Some in Hk.
        unfold sc, scores in Hk. rewrite length_map in Hk. exact Hk. }
      exists k, c. split; [|split; [exact Hc|]].
      * exists (bestScore st). repeat split; assumption.
      * rewrite Hsel, Hm.
        replace (0 <=? 0 + Z.of_nat k) with true by (symmetry; apply Z.leb_le; lia).
        replace (Z.to_nat (0 + Z.of_nat k)) with k by lia.
        f_equal. apply nth_lookup_Some with (d := first) in Hc. exact Hc.
    + intros Hneg. exfalso.
      assert (bestScore st < 0).
      { apply Hneg. apply list_elem_of_lookup. eauto. }
      lia.
Qed.

(** A selector and two candidates that satisfy the premises of C1. *)
Definition far_selector : VegreferanseSelector :=
  {| history := ["E18 S65D1 m12500"]; maxHistory := 10 |}.
Definition far_candidates : list VegreferanseMatch :=
  [mkMatch "Fv30 S1D1 m10" 0.5%float; mkMatch "Rv4 S2D1 m20" 0.25%float].

(** C1 fails as stated: both candidates score below 0 ([-5] and [-2]), the
    second is the one of greatest score, and the first is returned. *)
Lemma SelectBestMatch_first_maximal_counterexample :
  (2 <= length far_candidates)%nat /\ history far_selector <> [] /\
  scores (List.last (history far_selector) "") far_candidates = [-5; -2] /\
  SelectBestMatch far_selector far_candidates = "Fv30 S1D1 m10" /\
  ~ first_maximal_wins far_selector far_candidates.
Proof.
  assert (Hsc : scores (List.last (history far_selector) "") far_candidates = [-5; -2])
    by (vm_compute; reflexivity).
  assert (Hsel : SelectBestMatch far_selector far_candidates = "Fv30 S1D1 m10")
    by (vm_compute; reflexivity).
  split; [simpl; lia|]. split; [discriminate|]. split; [exact Hsc|].
  split; [exact Hsel|].
  intros (i & c & (v & Hv & Hmax & _) & Hc & Hret).
  rewrite Hsc in Hv, Hmax. rewrite Hsel in Hret.
  destruct i as [|[|i]]; simpl in Hv, Hc.
  - injection Hv as <-. specialize (Hmax 1%nat (-2) eq_refl). lia.
  - injection Hc as <-. discriminate Hret.
  - discriminate Hv.
Qed.

(** The amended C1 at the candidates of the selector's own test. *)
Lemma SelectBestMatch_first_maximal_nonnegative_witness :
  first_maximal_wins {| history := ["E18 S65D1 m12500"]; maxHistory := 5 |}
    [mkMatch "Kv1000 S1D1 m500" 1%float; mkMatch "E18 S65D1 m12600" 3%float].
Proof.
  apply (SelectBestMatch_first_maximal_nonnegative
           {| history := ["E18 S65D1 m12500"]; maxHistory := 5 |}
           [mkMatch "Kv1000 S1D1 m500" 1%float; mkMatch "E18 S65D1 m12600" 3%float]).
  - simpl. lia.
  - discriminate.
  - exists 1020. split; [|lia].
    apply list_elem_of_In. right. left. vm_compute. reflexivity.
Defined.

(** C10.  [SelectBestMatch] returns the empty string for no candidate, and
    otherwise the label of one of the candidates it was given. *)
Theorem SelectBestMatch_among_candidates s matches :
  match matches with
  | [] => SelectBestMatch s matches = ""
  | _ :: _ => exists c, c ∈ matches /\ SelectBestMatch s matches = kortform c
  end.
Proof.
  destruct matches as [|first rest]; [reflexivity|].
  unfold SelectBestMatch.
  destruct ((len (first :: rest) =? 1) || (len (history s) =? 0)).
  { exists first. split; [left|reflexivity]. }
  match goal with |- context [0 <=? bestMatch ?st] => destruct (0 <=? bestMatch st) end.
  - match goal with |- context [nth ?n ?l ?d] =>
      destruct (nth_in_or_default n l d) as [Hin | Hd]; [|rewrite Hd] end.
    + eexists. split; [|reflexivity]. apply list_elem_of_In. exact Hin.
    + exists first. split; [left|reflexivity].
  - exists first. split; [left|reflexivity].
Qed.

(** ** The score *)

(** The score as the specification words it: 1000 for equal road
    identifiers, else 100 for equal road categories, 50 more for equal
    sections present on both sides, less ten times the distance.  A token is
    equal to another when both are there and are the same string. *)
Definition claimed_score (previous current : string) (distance : float64)
  : float64 :=
  let same (a b : option string) : bool :=
    match a, b with
    | Some a, Some b => String.eqb a b
    | _, _ => false
    end in
  let prevRoad := head (Fields previous) in
  let currRoad := head (Fields current) in
  let bonus :=
    if same prevRoad currRoad then 1000
    else if same (extractCategory <$> prevRoad) (extractCategory <$> currRoad)
         then 100 else 0 in
  let section :=
    if same (Fields previous !! 1%nat) (Fields current !! 1%nat) then 50 else 0 in
  PrimFloat.sub (float64_of_int (bonus + section)) (PrimFloat.mul 10%float distance).

(** The two bonuses of [calculateMatchScore]. *)
Definition road_bonus (prevRoad currRoad : string) : Z :=
  if decide (prevRoad = currRoad) then 1000
  else if decide (extractCategory prevRoad = extractCategory currRoad) then 100
       else 0.

Definition section_bonus (prevRest currRest : list string) : Z :=
  match prevRest, currRest with
  | prevSection :: _, currSection :: _ =>
      if decide (prevSection = currSection) then 50 else 0
  | _, _ => 0
  end.

Lemma eqb_decide (a b : string) (x y : Z) :
  (if String.eqb a b then x else y) = if decide (a = b) then x else y.
Proof.
  destruct (String.eqb_spec a b) as [->|Hne]; destruct (decide _); congruence.
Qed.

Lemma wrap64_small z : - 2 ^ 63 <= z < 2 ^ 63 -> wrap64 z = z.
Proof. intros H. unfold wrap64. rewrite Z.mod_small; lia. Qed.

Lemma road_bonus_range a b : 0 <= road_bonus a b <= 1000.
Proof. unfold road_bonus. repeat destruct (decide _); lia. Qed.

(** [extractCategory] gives the longest prefix without a digit. *)
Lemma extractCategory_prefix road :
  exists rest,
    road = extractCategory road +:+ rest /\
    Forall (fun c => is_digit c = false) (list_ascii_of_string (extractCategory road)) /\
    match rest with
    | EmptyString => True
    | String c _ => is_digit c = true
    end.
Proof.
  induction road as [|c r (rest & Heq & Hnd & Hrest)]; simpl.
  - exists EmptyString. split; [done|]. split; [constructor|done].
  - destruct (is_digit c) eqn:E.
    + exists (String c r). simpl. split; [done|]. split; [constructor|done].
    + exists rest. split; [change (String c r = String c (extractCategory r +:+ rest)); by f_equal|].
      split; [by constructor|done].
Qed.

(** C3, as amended.  When either label has no token the score is 0.
    Otherwise it is the bonus for the road (1000 for the same identifier, else
    100 for the same category, else 0) plus 50 when both labels have a second
    token and these are equal, less [int(distance * 10)], the product cut to
    an integer, in the arithmetic of [int]; and the category of an identifier
    is its longest prefix without a digit. *)
Theorem calculateMatchScore_formula previous current distance :
  calculateMatchScore previous current distance =
    match Fields previous, Fields current with
    | prevRoad :: prevRest, currRoad :: currRest =>
        wrap64 (road_bonus prevRoad currRoad + section_bonus prevRest currRest
                - int_of_float64 (PrimFloat.mul distance 10%float))
    | _, _ => 0
    end
  /\ forall road, exists rest,
       road = extractCategory road +:+ rest /\
       Forall (fun c => is_digit c = false)
              (list_ascii_of_string (extractCategory road)) /\
       match rest with
       | EmptyString => True
       | String c _ => is_digit c = true
       end.
Proof.
  split; [|apply extractCategory_prefix].
  unfold calculateMatchScore.
  destruct (Fields previous) as [|prevRoad prevRest]; [reflexivity|].
  destruct (Fields current) as [|currRoad currRest].
  { change (len (@nil string) <? 1) with true. rewrite orb_true_r. reflexivity. }
  replace ((len (prevRoad :: prevRest) <? 1) || (len (currRoad :: currRest) <? 1))
    with false
    by (symmetry; unfold len; apply orb_false_iff; split; apply Z.ltb_ge;
        rewrite length_cons; lia).
  unfold index. cbn [nth].
  change (wrap64 (0 + 1000)) with 1000. change (wrap64 (0 + 100)) with 100.
  rewrite !eqb_decide. fold (road_bonus prevRoad currRoad).
  pose proof (road_bonus_range prevRoad currRoad) as Hr.
  f_equal. f_equal.
  destruct prevRest as [|prevSection prevRest].
  { change (1 <? len [prevRoad]) with false. cbn [andb section_bonus]. lia. }
  destruct currRest as [|currSection currRest].
  { change (1 <? len [currRoad]) with false. rewrite andb_false_r.
    cbn [section_bonus]. lia. }
  replace ((1 <? len (prevRoad :: prevSection :: prevRest))
           && (1 <? len (currRoad :: currSection :: currRest))) with true
    by (symmetry; unfold len; apply andb_true_iff; split; apply Z.ltb_lt;
        rewrite !length_cons; lia).
  cbn [nth section_bonus]. destruct (decide (prevSection = currSection)); [|lia].
  rewrite wrap64_small; lia.
Qed.

(** C3 fails as stated: for a candidate whose label is empty the code
    returns 0, where the claim gives 0 less ten times the distance. *)
Lemma calculateMatchScore_claimed_counterexample :
  calculateMatchScore "E18 S65D1 m12500" "" 2.5%float = 0 /\
  float64_of_int (calculateMatchScore "E18 S65D1 m12500" "" 2.5%float)
  <> claimed_score "E18 S65D1 m12500" "" 2.5%float.
Proof.
  split; [reflexivity|]. intros H.
  assert (E : PrimFloat.eqb
                (float64_of_int (calculateMatchScore "E18 S65D1 m12500" "" 2.5%float))
                (claimed_score "E18 S65D1 m12500" "" 2.5%float) = true).
  { rewrite H. vm_compute. reflexivity. }
  vm_compute in E. discriminate E.
Qed.

(** The score at the candidates of the selector's tests, and a distance the
    conversion cuts. *)
Example calculateMatchScore_tests :
  calculateMatchScore "E18 S65D1 m12500" "E18 S65D1 m12600" 3%float = 1020 /\
  calculateMatchScore "E18 S65D1 m12500" "Kv1000 S1D1 m500" 1%float = -10 /\
  calculateMatchScore "E6 S28D1 m3200" "E18 S65D1 m12600" 2%float = 80 /\
  calculateMatchScore "E18 S65D1 m12500" "E18 S65D1 m3" 0.25%float = 1048.
Proof. vm_compute. repeat split. Qed.

(** ** The history *)

(** The labels appended one after the other. *)
Definition add_all (s : VegreferanseSelector) (labels : list string)
  : VegreferanseSelector :=
  fold_left AddToHistory labels s.

Lemma AddToHistory_maxHistory s v : maxHistory (AddToHistory s v) = maxHistory s.
Proof.
  unfold AddToHistory. destruct (String.eqb v ""); [done|].
  destruct (_ <? _); done.
Qed.

Lemma tail_drop {A} (l : list A) : forall n, tail (drop n l) = drop (S n) l.
Proof.
  induction l as [|a l IH]; intros [|n]; try reflexivity.
  simpl. rewrite <- IH. reflexivity.
Qed.

(** Appending a label that is not empty to a history that holds the last
    [maxHistory] labels of [all] leaves the last [maxHistory] labels of
    [all ++ [v]]. *)
Lemma AddToHistory_suffix s all v :
  0 <= maxHistory s -> v <> "" ->
  history s = drop (length all - Z.to_nat (maxHistory s)) all ->
  history (AddToHistory s v)
  = drop (length (all ++ [v]) - Z.to_nat (maxHistory s)) (all ++ [v]).
Proof.
  intros Hmh Hv Hh. unfold AddToHistory.
  destruct (String.eqb_spec v "") as [->|_]; [done|].
  rewrite Hh, length_app. cbn [length].
  set (n := length all). set (k := Z.to_nat (maxHistory s)).
  assert (Hlen : length (drop (n - k) all ++ [v]) = (n - (n - k) + 1)%nat).
  { rewrite length_app, length_drop. reflexivity. }
  unfold len. rewrite Hlen.
  destruct (maxHistory s <? Z.of_nat (n - (n - k) + 1)) eqn:E; cbn [history].
  - apply Z.ltb_lt in E. assert (k <= n)%nat by lia.
    replace (n + 1 - k)%nat with (S (n - k)) by lia.
    rewrite <- (drop_app_le all [v] (n - k)) by lia.
    apply tail_drop.
  - apply Z.ltb_ge in E. assert (n < k)%nat by lia.
    replace (n - k)%nat with 0%nat by lia.
    replace (n + 1 - k)%nat with 0%nat by lia. reflexivity.
Qed.

Lemma add_all_suffix labels : forall s all,
  0 <= maxHistory s -> Forall (fun l => l <> "") labels ->
  history s = drop (length all - Z.to_nat (maxHistory s)) all ->
  history (add_all s labels)
  = drop (length (all ++ labels) - Z.to_nat (maxHistory s)) (all ++ labels)
  /\ maxHistory (add_all s labels) = maxHistory s.
Proof.
  induction labels as [|v labels IH]; intros s all Hmh Hne Hh.
  - rewrite app_nil_r. done.
  - inversion Hne as [|? ? Hv Hrest]; subst.
    destruct (IH (AddToHistory s v) (all ++ [v])) as [IH1 IH2].
    + by rewrite AddToHistory_maxHistory.
    + exact Hrest.
    + rewrite AddToHistory_maxHistory. by apply AddToHistory_suffix.
    + rewrite AddToHistory_maxHistory in IH1, IH2.
      rewrite <- app_assoc in IH1. done.
Qed.

(** C8.  From a new selector, once more than [maxHistory] labels, none
    empty, have been appended, the history holds exactly [maxHistory] labels:
    the last [maxHistory] appended, in the order of their insertion; the oldest
    has been evicted. *)
Theorem AddToHistory_keeps_last maxHistory s0 labels :
  NewVegreferanseSelector maxHistory = Some s0 ->
  Forall (fun l => l <> "") labels ->
  maxHistory < len labels ->
  let s := add_all s0 labels in
  len (history s) = maxHistory /\
  history s = drop (length labels - Z.to_nat maxHistory) labels /\
  (exists oldest evicted, labels = (oldest :: evicted) ++ history s) /\
  (forall oldest rest, labels = oldest :: rest -> oldest ∉ rest ->
                       oldest ∉ history s).
Proof.
  intros Hnew Hne Hlen s. unfold NewVegreferanseSelector in Hnew.
  destruct (maxHistory <? 0) eqn:E; [discriminate|]. apply Z.ltb_ge in E.
  injection Hnew as <-.
  destruct (add_all_suffix labels
              {| history := []; Selector.maxHistory := maxHistory |} [])
    as [Hh _]; [done|done|done|].
  cbn [Selector.maxHistory app] in Hh. fold s in Hh.
  unfold len in *.
  assert (Hk : (Z.to_nat maxHistory < length labels)%nat) by lia.
  split; [rewrite Hh, length_drop; lia|]. split; [exact Hh|].
  assert (Hsplit : labels = take (length labels - Z.to_nat maxHistory) labels ++ history s).
  { rewrite Hh. symmetry. apply take_drop. }
  split.
  - destruct (take (length labels - Z.to_nat maxHistory) labels) as [|o ev] eqn:Et.
    + apply (f_equal length) in Et. rewrite length_take in Et. simpl in Et. lia.
    + exists o, ev. exact Hsplit.
  - intros oldest rest -> Hnotin Hin.
    rewrite Hh in Hin.
    replace (length (oldest :: rest) - Z.to_nat maxHistory)%nat
      with (S (length rest - Z.to_nat maxHistory)) in Hin by (simpl in *; lia).
    cbn [drop] in Hin. apply Hnotin.
    eapply elem_of_sublist; [exact Hin|apply sublist_drop].
Qed.

(** C8 at a selector that keeps two labels, after three appends. *)
Lemma AddToHistory_keeps_last_witness :
  let s := add_all {| history := []; maxHistory := 2 |}
             ["E18 S65D1 m1"; "E18 S65D1 m2"; "E18 S65D1 m3"] in
  len (history s) = 2 /\
  history s = ["E18 S65D1 m2"; "E18 S65D1 m3"] /\
  (exists oldest evicted,
      ["E18 S65D1 m1"; "E18 S65D1 m2"; "E18 S65D1 m3"]
      = (oldest :: evicted) ++ history s) /\
  (forall oldest rest,
      ["E18 S65D1 m1"; "E18 S65D1 m2"; "E18 S65D1 m3"] = oldest :: rest ->
      oldest ∉ rest -> oldest ∉ history s).
Proof.
  apply (AddToHistory_keeps_last 2 {| history := []; maxHistory := 2 |}
           ["E18 S65D1 m1"; "E18 S65D1 m2"; "E18 S65D1 m3"]).
  - reflexivity.
  - repeat constructor; discriminate.
  - unfold len. simpl. lia.
Defined.

(** The calls a client of the selector can make. *)
Inductive selector_call :=
| CallAddToHistory (vegreferanse : string)
| CallSelectBestMatch (matches : list VegreferanseMatch).

(** A call: what it returns, if anything, and the selector after it. *)
Definition perform (s : VegreferanseSelector) (c : selector_call)
  : option string * VegreferanseSelector :=
  match c with
  | CallAddToHistory v => (None, AddToHistory s v)
  | CallSelectBestMatch ms => (Some (SelectBestMatch s ms), s)
  end.

Definition perform_all (s : VegreferanseSelector) (cs : list selector_call)
  : VegreferanseSelector :=
  fold_left (fun s c => snd (perform s c)) cs s.

Definition no_empty_label (s : VegreferanseSelector) : Prop :=
  Forall (fun l => l <> "") (history s).

Lemma AddToHistory_no_empty_label s v :
  no_empty_label s -> no_empty_label (AddToHistory s v).
Proof.
  unfold no_empty_label, AddToHistory. intros Hs.
  destruct (String.eqb_spec v "") as [->|Hv]; [exact Hs|].
  assert (Hall : Forall (fun l => l <> "") (history s ++ [v])).
  { apply Forall_app. split; [exact Hs|]. by constructor. }
  destruct (_ <? _); cbn [history]; [|exact Hall].
  destruct (history s ++ [v]); [constructor|]. by inversion Hall.
Qed.

Lemma perform_all_no_empty_label cs : forall s,
  no_empty_label s -> no_empty_label (perform_all s cs).
Proof.
  induction cs as [|c cs IH]; intros s Hs; [exact Hs|].
  apply IH. destruct c; simpl; [by apply AddToHistory_no_empty_label|exact Hs].
Qed.

Lemma apply_from_no_empty_label results : forall s,
  no_empty_label s -> no_empty_label (snd (Pool.apply_from s results)).
Proof.
  induction results as [|r results IH]; intros s Hs; simpl; [exact Hs|].
  destruct (0 <? len (Pool.matches r)).
  - specialize (IH (AddToHistory s (SelectBestMatch s (Pool.matches r)))
                   (AddToHistory_no_empty_label _ _ Hs)).
    destruct (Pool.apply_from _ results). exact IH.
  - specialize (IH s Hs). destruct (Pool.apply_from s results). exact IH.
Qed.

(** C9.  From a new selector, whatever calls of [AddToHistory] (the empty
    string included) and [SelectBestMatch] are made, and all along
    [applyVegreferanseSelector], no entry of the history is the empty
    label. *)
Theorem history_no_empty_label maxHistory s0 :
  NewVegreferanseSelector maxHistory = Some s0 ->
  (forall cs, no_empty_label (perform_all s0 cs)) /\
  (forall results, no_empty_label (snd (Pool.apply_from s0 results))) /\
  (forall s, AddToHistory s "" = s).
Proof.
  intros Hnew. unfold NewVegreferanseSelector in Hnew.
  destruct (maxHistory <? 0); [discriminate|]. injection Hnew as <-.
  assert (H0 : no_empty_label {| history := []; Selector.maxHistory := maxHistory |})
    by constructor.
  split; [|split].
  - intros cs. by apply perform_all_no_empty_label.
  - intros results. by apply apply_from_no_empty_label.
  - reflexivity.
Qed.

(** C9 at the selector of [applyVegreferanseSelector]. *)
Lemma history_no_empty_label_witness :
  no_empty_label
    (perform_all {| history := []; maxHistory := 10 |}
       [CallAddToHistory ""; CallSelectBestMatch [mkMatch "" 1%float];
        CallAddToHistory "E18 S65D1 m12500"; CallAddToHistory ""]).
Proof.
  apply (history_no_empty_label 10 {| history := []; maxHistory := 10 |}).
  reflexivity.
Defined.

(** ** The rate limiter *)

Section RateLimitFacts.
Import RateLimit.

(** Two filters that agree on the elements of a list. *)
Lemma filter_ext_in {A} (P Q : A -> Prop) `{!forall x, Decision (P x)}
    `{!forall x, Decision (Q x)} (l : list A) :
  (forall x, x ∈ l -> P x <-> Q x) -> filter P l = filter Q l.
Proof.
  induction l as [|a l IH]; intros Hext; [reflexivity|].
  rewrite !filter_cons.
  rewrite IH by (intros x Hx; apply Hext; by right).
  destruct (decide (P a)) as [HP|HP], (decide (Q a)) as [HQ|HQ]; try reflexivity.
  - exfalso. apply HQ. by apply (Hext a); [left|].
  - exfalso. apply HP. by apply (Hext a); [left|].
Qed.

Lemma length_filter_mono {A} (P Q : A -> Prop) `{!forall x, Decision (P x)}
    `{!forall x, Decision (Q x)} (l : list A) :
  (forall x, x ∈ l -> P x -> Q x) ->
  (length (filter P l) <= length (filter Q l))%nat.
Proof.
  induction l as [|a l IH]; intros Himp; [reflexivity|].
  rewrite !filter_cons.
  assert (IH' : (length (filter P l) <= length (filter Q l))%nat)
    by (apply IH; intros x Hx; apply Himp; by right).
  destruct (decide (P a)) as [HP|HP], (decide (Q a)) as [HQ|HQ]; simpl; try lia.
  exfalso. apply HQ. by apply (Himp a); [left|].
Qed.

(** A timestamp is young at [c] when less than the time frame has passed
    since. *)
Definition young (c : Time) (T : Duration) (a : Time) : Prop := c - a < T.

Global Instance young_dec c T a : Decision (young c T a).
Proof. unfold young. apply _. Defined.

Lemma Sub_young c T a :
  in_int64 T = true -> a <= c -> Is_true (Sub c a <? T) <-> young c T a.
Proof.
  intros HT Hac. unfold in_int64, min_int64, max_int64 in HT.
  apply andb_true_iff in HT as [H1 H2].
  apply Z.leb_le in H1, H2.
  unfold Sub, young, min_int64, max_int64.
  rewrite Is_true_true, Z.ltb_lt.
  destruct (c - a <? - 2 ^ 63) eqn:E1; [apply Z.ltb_lt in E1; lia|].
  destruct (2 ^ 63 - 1 <? c - a) eqn:E2.
  - apply Z.ltb_lt in E2. lia.
  - reflexivity.
Qed.

Lemma validCalls_young now T calls :
  in_int64 T = true -> (forall a, a ∈ calls -> a <= now) ->
  validCalls now T calls = filter (young now T) calls.
Proof.
  intros HT Hle. unfold validCalls. apply filter_ext_in.
  intros a Ha. apply Sub_young; auto.
Qed.

Lemma young_later c c' T a : c <= c' -> young c' T a -> young c T a.
Proof. unfold young. lia. Qed.

Lemma filter_young_later c c' T (l : list Time) :
  c <= c' -> filter (young c' T) (filter (young c T) l) = filter (young c' T) l.
Proof.
  intros Hc. induction l as [|a l IH]; [reflexivity|].
  rewrite (filter_cons (young c T)), (filter_cons (young c' T) a l).
  destruct (decide (young c T a)) as [Y|Y].
  - rewrite filter_cons, IH. reflexivity.
  - rewrite IH. destruct (decide (young c' T a)) as [Y'|Y']; [|reflexivity].
    exfalso. apply Y. eapply young_later; eauto.
Qed.

(** What a call of [Wait] that returns has done: it has read the clock at
    some [now], no earlier than when it was called, kept the young
    timestamps, fewer than [limit], and appended [now]. *)
Lemma Wait_returns r clock d r' clock' now :
  in_int64 (timeFrame r) = true ->
  (forall a, a ∈ calls r -> a <= clock) ->
  len (calls r) <= limit r ->
  Wait r clock d = Some (r', clock', now) ->
  clock <= now /\ clock' = now /\
  limit r' = limit r /\ timeFrame r' = timeFrame r /\
  calls r' = filter (young now (timeFrame r)) (calls r) ++ [now] /\
  len (filter (young now (timeFrame r)) (calls r)) < limit r.
Proof.
  intros HT Hle Hlen. unfold Wait.
  set (now0 := clock + Z.of_N (pause d)).
  assert (Hnow0 : clock <= now0) by (unfold now0; lia).
  assert (Hle0 : forall a, a ∈ calls r -> a <= now0)
    by (intros a Ha; specialize (Hle a Ha); lia).
  rewrite (validCalls_young now0 _ _ HT Hle0).
  set (c1 := filter (young now0 (timeFrame r)) (calls r)).
  assert (Hc1 : (length c1 <= length (calls r))%nat) by apply length_filter.
  destruct (limit r <=? len c1) eqn:E.
  - apply Z.leb_le in E. destruct c1 as [|oldest c1'] eqn:Ec1; [discriminate|].
    assert (Hin : oldest ∈ filter (young now0 (timeFrame r)) (calls r))
      by (fold c1; rewrite Ec1; left).
    apply list_elem_of_filter in Hin as [Hy Hin].
    assert (Hsub : Sub now0 oldest = now0 - oldest).
    { unfold in_int64, min_int64, max_int64 in HT.
      apply andb_true_iff in HT as [H1 H2]. apply Z.leb_le in H1, H2.
      specialize (Hle0 _ Hin). unfold young in Hy.
      unfold Sub, min_int64, max_int64.
      destruct (_ <? - 2 ^ 63) eqn:E1; [apply Z.ltb_lt in E1; lia|].
      destruct (2 ^ 63 - 1 <? _) eqn:E2; [apply Z.ltb_lt in E2; lia|].
      reflexivity. }
    rewrite Hsub.
    assert (Hw : wrap64 (timeFrame r - (now0 - oldest)) = timeFrame r - (now0 - oldest)).
    { unfold in_int64, min_int64, max_int64 in HT.
      apply andb_true_iff in HT as [H1 H2]. apply Z.leb_le in H1, H2.
      specialize (Hle0 _ Hin). unfold young in Hy.
      unfold wrap64. rewrite Z.mod_small; lia. }
    rewrite Hw.
    assert (Hpos : 0 < timeFrame r - (now0 - oldest)) by (unfold young in Hy; lia).
    replace (0 <? timeFrame r - (now0 - oldest)) with true
      by (symmetry; by apply Z.ltb_lt).
    set (now1 := now0 + (timeFrame r - (now0 - oldest)) + Z.of_N (oversleep d)).
    assert (Hnow1 : now0 <= now1) by (unfold now1; lia).
    intros [= <- <- <-]. cbn [calls limit timeFrame].
    assert (Hle1 : forall a, a ∈ oldest :: c1' -> a <= now1).
    { intros a Ha. rewrite <- Ec1 in Ha. unfold c1 in Ha.
      apply list_elem_of_filter in Ha as [_ Ha]. specialize (Hle0 a Ha). lia. }
    rewrite (validCalls_young now1 _ _ HT Hle1).
    rewrite <- Ec1. unfold c1. rewrite filter_young_later by exact Hnow1.
    split; [lia|]. split; [done|]. split; [done|]. split; [done|]. split; [done|].
    (* the oldest timestamp has left the time frame *)
    assert (Hold : ~ young now1 (timeFrame r) oldest) by (unfold young, now1; lia).
    rewrite <- (filter_young_later now0 now1) by exact Hnow1. fold c1. rewrite Ec1.
    rewrite filter_cons_False by exact Hold.
    pose proof (length_filter (young now1 (timeFrame r)) c1') as Hf.
    unfold len in *. cbn [length] in Hc1, E. lia.
  - apply Z.leb_gt in E. intros [= <- <- <-]. cbn [calls limit timeFrame].
    fold c1. repeat split; try done. 
Qed.

(** A call of [Wait] on a limiter that admits at least one call per time
    frame returns. *)
Lemma Wait_no_panic r clock d :
  1 <= limit r -> exists out, Wait r clock d = Some out.
Proof.
  intros Hlim. unfold Wait.
  destruct (limit r <=? len _) eqn:E; [|eauto].
  apply Z.leb_le in E.
  destruct (validCalls _ _ _) as [|oldest rest]; [unfold len in E; simpl in E; lia|].
  destruct (0 <? _); eauto.
Qed.

(** What holds of the limiter, the clock and the timestamps admitted so
    far between two calls of [Wait]. *)
Record rate_inv (T : Duration) (lim : Z) (r : RateLimiter) (clock : Time)
    (admitted : list Time) : Prop := {
  inv_timeFrame : timeFrame r = T;
  inv_limit : limit r = lim;
  inv_admitted_past : forall a, a ∈ admitted -> a <= clock;
  inv_calls_past : forall a, a ∈ calls r -> a <= clock;
  inv_calls_len : len (calls r) <= lim;
  inv_young : forall c, clock <= c ->
                filter (young c T) admitted = filter (young c T) (calls r);
  inv_window : forall t, len (in_window t T admitted) <= lim
}.

Lemma in_window_app t T l1 l2 :
  in_window t T (l1 ++ l2) = in_window t T l1 ++ in_window t T l2.
Proof. unfold in_window. apply filter_app. Qed.

Lemma rate_inv_Wait T lim r clock admitted d r' clock' now :
  in_int64 T = true ->
  rate_inv T lim r clock admitted ->
  Wait r clock d = Some (r', clock', now) ->
  rate_inv T lim r' clock' (admitted ++ [now]).
Proof.
  intros HT [HTr Hlim Hadm Hcalls Hlen Hyoung Hwin] HW.
  subst T lim.
  destruct (Wait_returns r clock d r' clock' now HT Hcalls Hlen HW)
    as (Hnow & -> & Hl' & HT' & Hc' & Hfew).
  set (F := filter (young now (timeFrame r)) (calls r)) in *.
  split.
  - exact HT'.
  - exact Hl'.
  - intros a Ha. apply elem_of_app in Ha as [Ha|Ha].
    + specialize (Hadm a Ha). lia.
    + apply list_elem_of_singleton in Ha as ->. lia.
  - intros a Ha. rewrite Hc' in Ha. apply elem_of_app in Ha as [Ha|Ha].
    + apply list_elem_of_filter in Ha as [_ Ha]. specialize (Hcalls a Ha). lia.
    + apply list_elem_of_singleton in Ha as ->. lia.
  - rewrite Hc'. unfold len in *. rewrite length_app. simpl. lia.
  - intros c Hc. rewrite Hc', !filter_app. f_equal.
    unfold F. rewrite filter_young_later by exact Hc.
    apply Hyoung. lia.
  - intros t. rewrite in_window_app. unfold len. rewrite length_app.
    unfold in_window at 2. rewrite filter_singleton by exact [].
    destruct (decide (Is_true ((t <=? now) && (now <? t + timeFrame r)))) as [Hin|Hout].
    + cbn [length].
      assert ((length (in_window t (timeFrame r) admitted) <= length F)%nat).
      { unfold F. rewrite <- Hyoung by exact Hnow.
        apply length_filter_mono. intros a Ha Hw.
        apply Is_true_true, andb_true_iff in Hin as [_ H2].
        apply Is_true_true, andb_true_iff in Hw as [H3 _].
        apply Z.ltb_lt in H2. apply Z.leb_le in H3. unfold young. lia. }
      unfold len in Hfew. lia.
    + cbn [length]. specialize (Hwin t). unfold len in Hwin. lia.
Qed.

Lemma rate_inv_run T lim ds : forall r clock admitted,
  in_int64 T = true ->
  rate_inv T lim r clock admitted ->
  (forall t, len (in_window t T (run r clock admitted ds)) <= lim) /\
  (1 <= lim -> length (run r clock admitted ds) = (length admitted + length ds)%nat).
Proof.
  induction ds as [|d ds IH]; intros r clock admitted HT Hinv.
  - simpl. split; [apply Hinv|]. lia.
  - cbn [run]. destruct (Wait r clock d) as [[[r' clock'] now]|] eqn:HW.
    + destruct (IH r' clock' (admitted ++ [now]) HT
                  (rate_inv_Wait _ _ _ _ _ _ _ _ _ HT Hinv HW)) as [IH1 IH2].
      split; [exact IH1|]. intros Hl. rewrite (IH2 Hl), length_app. simpl. lia.
    + split; [apply Hinv|]. intros Hl.
      destruct (Wait_no_panic r clock d) as [out Hout];
        [by rewrite (inv_limit _ _ _ _ _ Hinv)|congruence].
Qed.

(** C5.  Whatever the pauses between the calls and however long each
    sleep lasts beyond what was asked, the calls that [Wait] admits in any
    window [[t, t + timeFrame)] are at most [limit]; and a limiter with a
    limit of at least 1 admits every call. *)
Theorem Wait_rate_bound limit timeFrame r0 clock ds t :
  in_int64 timeFrame = true ->
  NewRateLimiter limit timeFrame = Some r0 ->
  len (in_window t timeFrame (run r0 clock [] ds)) <= limit /\
  (1 <= limit -> length (run r0 clock [] ds) = length ds).
Proof.
  intros HT Hnew. unfold NewRateLimiter in Hnew.
  destruct (limit <? 0) eqn:E; [discriminate|]. apply Z.ltb_ge in E.
  destruct (max_calls_cap <? limit); [discriminate|]. cbn [orb] in Hnew.
  injection Hnew as <-.
  destruct (rate_inv_run timeFrame limit ds
              {| calls := []; RateLimit.limit := limit;
                 RateLimit.timeFrame := timeFrame |} clock [] HT) as [H1 H2].
  - split; try done.
    + intros a Ha. inversion Ha.
    + intros a Ha. inversion Ha.
  - split; [apply H1|]. intros Hl. by rewrite (H2 Hl).
Qed.

End RateLimitFacts.

(** C5 for two calls per 10 ns and four callers arriving at once: the third
    and the fourth are held back. *)
Lemma Wait_rate_bound_witness :
  RateLimit.run {| RateLimit.calls := []; RateLimit.limit := 2;
                   RateLimit.timeFrame := 10 |} 100 []
    (replicate 4 {| RateLimit.pause := 0; RateLimit.oversleep := 0 |})
  = [100; 100; 110; 110] /\
  len (RateLimit.in_window 100 10
         (RateLimit.run {| RateLimit.calls := []; RateLimit.limit := 2;
                           RateLimit.timeFrame := 10 |} 100 []
            (replicate 4 {| RateLimit.pause := 0; RateLimit.oversleep := 0 |})))
  <= 2.
Proof.
  split; [reflexivity|].
  apply (Wait_rate_bound 2 10
           {| RateLimit.calls := []; RateLimit.limit := 2;
              RateLimit.timeFrame := 10 |} 100
           (replicate 4 {| RateLimit.pause := 0; RateLimit.oversleep := 0 |}) 100);
    reflexivity.
Defined.

(** ** The worker pool *)

Section PoolFacts.
Import Pool.
Context {PS : Type}.
Context (GetVegreferanseMatches :
           PS -> float64 -> float64 -> result (list VegreferanseMatch) * PS).
Context (ParseFloat : string -> result float64).
Context (modeConfig : CoordToVegrefConfig).

Local Abbreviation worker_body := (worker_body GetVegreferanseMatches ParseFloat modeConfig).
Local Abbreviation step := (step GetVegreferanseMatches ParseFloat modeConfig).
Local Abbreviation run := (processCoordinatesToVegreferanse GetVegreferanseMatches ParseFloat modeConfig).

(** The result a worker sends carries the index and the text of its task. *)
Lemma worker_body_task ps task r ps' :
  worker_body ps task = Some (r, ps') ->
  lineIdx r = task_lineIdx task /\ line r = task_line task.
Proof.
  unfold Pool.worker_body, failed. intros H.
  repeat match type of H with
         | (if ?b then _ else _) = _ => destruct b
         | match ?x with _ => _ end = _ => destruct x
         end;
    try discriminate; injection H as <- _; done.
Qed.

(** With columns that are not negative, as the validation of the
    configuration requires, the body of the loop does not panic. *)
Lemma worker_body_total ps task :
  0 <= XColumn modeConfig -> 0 <= YColumn modeConfig ->
  exists r ps', worker_body ps task = Some (r, ps').
Proof.
  intros HX HY. unfold Pool.worker_body.
  destruct (len _ <=? Pool.max _ _) eqn:E; [eauto|].
  apply Z.leb_gt in E. unfold Pool.max in E.
  assert (XColumn modeConfig < len (Split_tab (task_line task)) /\
          YColumn modeConfig < len (Split_tab (task_line task))) as [H1 H2]
    by (destruct (_ <? _) eqn:E'; [apply Z.ltb_lt in E'|apply Z.ltb_ge in E']; lia).
  unfold at_index.
  replace (XColumn modeConfig <? 0) with false by (symmetry; apply Z.ltb_ge; lia).
  replace (YColumn modeConfig <? 0) with false by (symmetry; apply Z.ltb_ge; lia).
  destruct (lookup_lt_is_Some_2 (Split_tab (task_line task))
              (Z.to_nat (XColumn modeConfig))) as [xs ->]; [unfold len in H1; lia|].
  destruct (lookup_lt_is_Some_2 (Split_tab (task_line task))
              (Z.to_nat (YColumn modeConfig))) as [ys ->]; [unfold len in H2; lia|].
  destruct (ParseFloat xs); [|eauto].
  destruct (ParseFloat ys); [|eauto].
  destruct (GetVegreferanseMatches ps a a0) as [[ms|e] ps']; eauto.
Qed.

(** The tasks the workers hold. *)
Definition held (ws : list worker) : list processTask :=
  omap (fun w => match w with Busy t => Some t | _ => None end) ws.

Lemma held_insert ws w x :
  (w < length ws)%nat ->
  held (<[ w := x ]> ws)
  = held (take w ws) ++ held [x] ++ held (drop (S w) ws).
Proof.
  intros Hw. rewrite insert_take_drop by exact Hw.
  change (x :: drop (S w) ws) with ([x] ++ drop (S w) ws).
  unfold held. by rewrite !omap_app.
Qed.

Lemma held_lookup ws w x :
  ws !! w = Some x ->
  held ws = held (take w ws) ++ held [x] ++ held (drop (S w) ws).
Proof.
  intros Hw. rewrite <- (take_drop_middle ws w x Hw) at 1.
  change (x :: drop (S w) ws) with ([x] ++ drop (S w) ws).
  unfold held. by rewrite !omap_app.
Qed.

Lemma perm_receive {A} (d h1 h2 rest p : list A) t :
  d ++ (h1 ++ [t] ++ h2) ++ rest ++ p ≡ₚ d ++ (h1 ++ [] ++ h2) ++ (t :: rest) ++ p.
Proof.
  f_equiv. cbn [app].
  rewrite <- (Permutation_middle h1 h2 t).
  rewrite <- (Permutation_middle (h1 ++ h2) (rest ++ p) t). reflexivity.
Qed.

Lemma perm_work {A} (d h1 h2 c : list A) t :
  (d ++ [t]) ++ (h1 ++ [] ++ h2) ++ c ≡ₚ d ++ (h1 ++ [t] ++ h2) ++ c.
Proof.
  rewrite <- app_assoc. f_equiv. cbn [app].
  rewrite <- (Permutation_middle h1 h2 t). reflexivity.
Qed.

(** What the scheduler cannot break.  [R] relates a task to the results a
    worker may send for it; the tasks already answered ([done]), held,
    queued and still to send are those of the input, each once. *)
Section Invariant.
Context (R : processTask -> processResult -> Prop).
Context (R_body : forall ps task r ps',
            worker_body ps task = Some (r, ps') -> R task r).
Context (tasks : list processTask).

Definition pool_inv (st : @pool PS) : Prop :=
  (exists done,
      Forall2 R done (resultChannel st) /\
      done ++ held (workers st) ++ taskChannel st ++ pending st ≡ₚ tasks) /\
  (closed st = true -> pending st = []) /\
  (Exited ∈ workers st -> closed st = true /\ taskChannel st = []).

Lemma pool_inv_step st st' : pool_inv st -> step st st' -> pool_inv st'.
Proof.
  intros ((done & HR & Hperm) & Hclosed & Hexit) Hstep.
  destruct Hstep as [st t rest Hp | st Hp Hc | st w t rest Hw Hch
                     | st w t r ps Hw Hbody | st w Hw Hch Hc];
    unfold pool_inv; cbn [pending closed taskChannel workers resultChannel].
  - (* send *)
    split; [|split].
    + exists done. split; [exact HR|]. rewrite <- Hperm, Hp.
      rewrite <- !app_assoc. do 3 f_equiv. reflexivity.
    + intros Hc. rewrite (Hclosed Hc) in Hp. discriminate.
    + intros He. destruct (Hexit He) as [Hc _].
      rewrite (Hclosed Hc) in Hp. discriminate.
  - (* close *)
    split; [|split].
    + exists done. split; [exact HR|]. by rewrite <- Hperm, Hp.
    + done.
    + intros He. destruct (Hexit He) as [Hc' _]. congruence.
  - (* receive *)
    assert (Hlt : (w < length (workers st))%nat) by (eapply lookup_lt_Some; eauto).
    split; [|split].
    + exists done. split; [exact HR|]. rewrite <- Hperm, Hch.
      rewrite (held_insert _ _ _ Hlt), (held_lookup _ _ _ Hw).
      apply perm_receive.
    + exact Hclosed.
    + intros He. apply list_elem_of_lookup in He as [i Hi].
      destruct (decide (i = w)) as [->|Hne].
      * rewrite list_lookup_insert_eq in Hi by exact Hlt. discriminate.
      * rewrite list_lookup_insert_ne in Hi by done.
        destruct Hexit as [Hc Hnil]; [apply list_elem_of_lookup; eauto|].
        rewrite Hnil in Hch. discriminate.
  - (* work *)
    assert (Hlt : (w < length (workers st))%nat) by (eapply lookup_lt_Some; eauto).
    split; [|split].
    + exists (done ++ [t]). split.
      * apply Forall2_app; [exact HR|]. constructor; [|constructor]. eapply R_body; eauto.
      * rewrite <- Hperm.
        rewrite (held_insert _ _ _ Hlt), (held_lookup _ _ _ Hw).
        apply perm_work.
    + exact Hclosed.
    + intros He. apply Hexit. apply list_elem_of_lookup in He as [i Hi].
      destruct (decide (i = w)) as [->|Hne].
      * rewrite list_lookup_insert_eq in Hi by exact Hlt. discriminate.
      * rewrite list_lookup_insert_ne in Hi by done.
        apply list_elem_of_lookup; eauto.
  - (* exit *)
    assert (Hlt : (w < length (workers st))%nat) by (eapply lookup_lt_Some; eauto).
    split; [|split].
    + exists done. split; [exact HR|]. rewrite <- Hperm.
      rewrite (held_insert _ _ _ Hlt), (held_lookup _ _ _ Hw). reflexivity.
    + exact Hclosed.
    + done.
Qed.

Lemma pool_inv_steps st st' : pool_inv st -> rtc step st st' -> pool_inv st'.
Proof. intros Hinv Hsteps. induction Hsteps; eauto using pool_inv_step. Qed.

Lemma length_workers_step st st' :
  step st st' -> length (workers st') = length (workers st).
Proof. destruct 1; cbn; rewrite ?length_insert; reflexivity. Qed.

Lemma length_workers_steps st st' :
  rtc step st st' -> length (workers st') = length (workers st).
Proof.
  induction 1 as [|? ? ? H1 _ IH]; [done|].
  rewrite IH. by apply length_workers_step.
Qed.


Lemma held_replicate_Idle n : held (replicate n Idle) = [].
Proof. induction n; [done|]. exact IHn. Qed.

Lemma held_Exited ws : Forall (fun w => w = Exited) ws -> held ws = [].
Proof. induction 1 as [|w ws -> _ IH]; [done|]. exact IH. Qed.

Lemma pool_inv_init lines workers ps :
  tasks = tasks_from 0 lines -> pool_inv (init lines workers ps).
Proof.
  intros Ht. unfold pool_inv, init. cbn. split; [|split].
  - exists []. split; [constructor|]. rewrite held_replicate_Idle, Ht. reflexivity.
  - discriminate.
  - intros He. apply elem_of_replicate in He as [? _]. discriminate.
Qed.

(** Once [wg.Wait()] has returned, with at least one worker, the result
    channel holds one result for each task. *)
Lemma pool_inv_joined st :
  pool_inv st -> joined st -> workers st <> [] ->
  exists done, Forall2 R done (resultChannel st) /\ done ≡ₚ tasks.
Proof.
  intros ((done & HR & Hperm) & Hclosed & Hexit) [Hc Hall] Hne.
  exists done. split; [exact HR|].
  assert (He : Exited ∈ workers st).
  { destruct (workers st) as [|w ws]; [done|].
    inversion Hall; subst. left. }
  destruct (Hexit He) as [_ Hch].
  rewrite (held_Exited _ Hall), Hch, (Hclosed Hc) in Hperm.
  by rewrite !app_nil_r in Hperm.
Qed.

End Invariant.

(** *** Collecting the results *)

Lemma collect_spec chan : forall arr0,
  (forall r, r ∈ chan -> 0 <= lineIdx r < len arr0) ->
  exists arr,
    collect arr0 chan = Some arr /\
    length arr = length arr0 /\
    (forall i, (forall r, r ∈ chan -> lineIdx r <> Z.of_nat i) ->
               arr !! i = arr0 !! i) /\
    (NoDup (map lineIdx chan) ->
     forall r, r ∈ chan -> arr !! Z.to_nat (lineIdx r) = Some r).
Proof.
  induction chan as [|r0 rest IH]; intros arr0 Hb.
  - exists arr0. repeat split; try done. intros _ r Hr. inversion Hr.
  - cbn [collect].
    assert (Hb0 : 0 <= lineIdx r0 < len arr0) by (apply Hb; left).
    replace ((0 <=? lineIdx r0) && (lineIdx r0 <? len arr0)) with true
      by (symmetry; apply andb_true_iff; split; [apply Z.leb_le|apply Z.ltb_lt]; lia).
    set (arr1 := <[ Z.to_nat (lineIdx r0) := r0 ]> arr0).
    assert (Hlen1 : length arr1 = length arr0) by apply length_insert.
    destruct (IH arr1) as (arr & Hc & Hlen & Hkeep & Hset).
    { intros r Hr. unfold len. rewrite Hlen1. apply Hb. by right. }
    exists arr. split; [exact Hc|]. split; [congruence|]. split.
    + intros i Hi. rewrite Hkeep by (intros r Hr; apply Hi; by right).
      unfold arr1. apply list_lookup_insert_ne.
      assert (lineIdx r0 <> Z.of_nat i) by (apply Hi; left). lia.
    + intros Hnd r Hr. cbn [map] in Hnd. apply NoDup_cons in Hnd as [Hnotin Hnd].
      apply elem_of_cons in Hr as [->|Hr]; [|by apply Hset].
      rewrite Hkeep.
      * unfold arr1. apply list_lookup_insert_eq. unfold len in Hb0. lia.
      * intros r Hr Heq. apply Hnotin. rewrite Z2Nat.id in Heq by lia.
        rewrite <- Heq. apply list_elem_of_In, in_map, list_elem_of_In, Hr.
Qed.

Lemma tasks_from_lookup lines : forall i k t,
  tasks_from i lines !! k = Some t ->
  task_lineIdx t = i + Z.of_nat k /\ lines !! k = Some (task_line t).
Proof.
  induction lines as [|l lines IH]; intros i k t Hk; [discriminate|].
  destruct k as [|k]; cbn in Hk.
  - injection Hk as <-. cbn. split; [lia|done].
  - destruct (IH _ _ _ Hk) as [H1 H2]. split; [lia|exact H2].
Qed.

Lemma tasks_from_length lines : forall i, length (tasks_from i lines) = length lines.
Proof. induction lines as [|l lines IH]; intros i; cbn; [done|]. by rewrite IH. Qed.

Lemma tasks_from_keys lines : forall i,
  map task_lineIdx (tasks_from i lines) = seqZ i (Z.of_nat (length lines)).
Proof.
  induction lines as [|l lines IH]; intros i; [reflexivity|].
  cbn [tasks_from map task_lineIdx length].
  rewrite Nat2Z.inj_succ, seqZ_cons by lia. f_equal.
  rewrite IH. f_equal; lia.
Qed.


(** A slice whose element at each index carries that index is sorted. *)
Lemma indexed_sorted (l : list processResult) : forall base,
  (forall i r, l !! i = Some r -> lineIdx r = base + Z.of_nat i) ->
  StronglySorted (fun a b => (lineIdx b <? lineIdx a) = false) l.
Proof.
  induction l as [|a l IH]; intros base Hidx; constructor.
  - apply (IH (base + 1)). intros i r Hi.
    rewrite (Hidx (S i) r Hi). lia.
  - apply Forall_forall. intros b Hb.
    apply list_elem_of_lookup in Hb as [i Hi].
    rewrite (Hidx 0%nat a eq_refl), (Hidx (S i) b Hi).
    apply Z.ltb_ge. lia.
Qed.

(** [sort.Slice] leaves such a slice as it is. *)
Lemma sort_Slice_indexed collected results :
  (forall i r, collected !! i = Some r -> lineIdx r = Z.of_nat i) ->
  sort_Slice collected results -> results = collected.
Proof.
  intros Hidx [Hperm Hsorted]. symmetry.
  apply (StronglySorted_unique_strong
           (fun a b => (lineIdx b <? lineIdx a) = false)); [| |exact Hsorted|exact Hperm].
  - intros x1 x2 H1 H2 Hle1 Hle2.
    rewrite <- Hperm in H2.
    apply list_elem_of_lookup in H1 as [i1 Hi1].
    apply list_elem_of_lookup in H2 as [i2 Hi2].
    apply Z.ltb_ge in Hle1, Hle2.
    rewrite (Hidx _ _ Hi1), (Hidx _ _ Hi2) in Hle1, Hle2.
    assert (i1 = i2) by lia. subst. congruence.
  - apply (indexed_sorted collected 0). intros i r Hi. rewrite (Hidx i r Hi). lia.
Qed.

Section Results.
Context (R : processTask -> processResult -> Prop).
Context (R_body : forall ps task r ps',
            worker_body ps task = Some (r, ps') -> R task r).
Context (R_key : forall task r, R task r -> lineIdx r = task_lineIdx task).

Lemma Forall2_keys done chan :
  Forall2 R done chan -> map lineIdx chan = map task_lineIdx done.
Proof.
  induction 1 as [|t r done chan HR _ IH]; [done|].
  cbn. rewrite IH, (R_key _ _ HR). reflexivity.
Qed.

(** Once [wg.Wait()] has returned, with at least one worker and whatever
    the schedule was, collecting the results does not panic and gives a slice
    that holds at each index a result of the task of that index. *)
Lemma joined_collect lines ps workers st :
  1 <= workers ->
  rtc step (init lines workers ps) st -> joined st ->
  exists arr,
    collect (replicate (length lines) zero_processResult) (resultChannel st)
      = Some arr /\
    length arr = length lines /\
    (forall i t, tasks_from 0 lines !! i = Some t ->
                 exists r, arr !! i = Some r /\ R t r) /\
    (forall i r, arr !! i = Some r -> lineIdx r = Z.of_nat i).
Proof.
  intros HW Hsteps Hjoined.
  set (tasks := tasks_from 0 lines).
  assert (Hinv : pool_inv R tasks st).
  { eapply pool_inv_steps; [exact R_body| |exact Hsteps].
    by apply pool_inv_init. }
  assert (Hne : Pool.workers st <> []).
  { intros Hnil. apply (f_equal length) in Hnil.
    rewrite (length_workers_steps _ _ Hsteps) in Hnil.
    unfold init in Hnil. cbn in Hnil. rewrite length_replicate in Hnil. lia. }
  destruct (pool_inv_joined R tasks st Hinv Hjoined Hne) as (done & HR & Hdone).
  pose proof (Forall2_keys _ _ HR) as Hkeys.
  assert (Hseq : map lineIdx (resultChannel st) ≡ₚ seqZ 0 (Z.of_nat (length lines))).
  { rewrite Hkeys, <- (tasks_from_keys lines 0). fold tasks.
    apply Permutation_map. exact Hdone. }
  destruct (collect_spec (resultChannel st)
              (replicate (length lines) zero_processResult))
    as (arr & Harr & Hlen & _ & Hset).
  { intros r Hr. unfold len. rewrite length_replicate.
    assert (Hin : lineIdx r ∈ seqZ 0 (Z.of_nat (length lines))).
    { rewrite <- Hseq. apply list_elem_of_In, in_map, list_elem_of_In, Hr. }
    apply elem_of_seqZ in Hin. lia. }
  rewrite length_replicate in Hlen.
  assert (Hnd : NoDup (map lineIdx (resultChannel st))).
  { rewrite Hseq. apply NoDup_seqZ. }
  specialize (Hset Hnd).
  assert (Hat : forall i t, tasks !! i = Some t ->
                            exists r, arr !! i = Some r /\ R t r).
  { intros i t Hi.
    assert (Hin : t ∈ done) by (rewrite Hdone; apply list_elem_of_lookup; eauto).
    apply list_elem_of_lookup in Hin as [j Hj].
    destruct (Forall2_lookup_l _ _ _ _ _ HR Hj) as (r & Hr & HRtr).
    exists r. split; [|exact HRtr].
    assert (Hrin : r ∈ resultChannel st) by (apply list_elem_of_lookup; eauto).
    specialize (Hset r Hrin).
    rewrite (R_key _ _ HRtr) in Hset.
    destruct (tasks_from_lookup _ _ _ _ Hi) as [Hk _].
    rewrite Hk in Hset. replace (Z.to_nat (0 + Z.of_nat i)) with i in Hset by lia.
    exact Hset. }
  exists arr. split; [exact Harr|]. split; [exact Hlen|]. split; [exact Hat|].
  intros i r Hi.
  destruct (lookup_lt_is_Some_2 tasks i) as [t Ht].
  { unfold tasks. rewrite tasks_from_length, <- Hlen. eapply lookup_lt_Some; eauto. }
  destruct (Hat i t Ht) as (r' & Hr' & HRtr).
  rewrite Hi in Hr'. injection Hr' as <-.
  rewrite (R_key _ _ HRtr).
  destruct (tasks_from_lookup _ _ _ _ Ht) as [Hk _]. lia.
Qed.

(** So does the slice returned, which [sort.Slice] has left in place. *)
Lemma run_results lines ps workers results ps' :
  1 <= workers ->
  run lines ps workers results ps' ->
  length results = length lines /\
  forall i t, tasks_from 0 lines !! i = Some t ->
              exists r, results !! i = Some r /\ R t r.
Proof.
  intros HW (st & collected & Hsteps & Hjoined & _ & Hcollect & Hsort).
  destruct (joined_collect lines ps workers st HW Hsteps Hjoined)
    as (arr & Harr & Hlen & Hat & Hidx).
  rewrite Harr in Hcollect. injection Hcollect as <-.
  rewrite (sort_Slice_indexed arr results Hidx Hsort).
  split; [exact Hlen|exact Hat].
Qed.

End Results.


(** *** A schedule that ends *)

(** The main goroutine sends every task. *)
Lemma steps_send ts : forall tc ws rc ps,
  rtc step {| pending := ts; closed := false; taskChannel := tc; workers := ws;
              resultChannel := rc; provider := ps |}
           {| pending := []; closed := false; taskChannel := tc ++ ts;
              workers := ws; resultChannel := rc; provider := ps |}.
Proof.
  induction ts as [|t ts IH]; intros tc ws rc ps.
  - rewrite app_nil_r. apply rtc_refl.
  - eapply rtc_l.
    + eapply (step_send _ _ _ _ t ts). reflexivity.
    + cbn. replace (tc ++ t :: ts) with ((tc ++ [t]) ++ ts) by (by rewrite <- app_assoc).
      apply IH.
Qed.

(** The first worker answers every task in turn. *)
Lemma steps_serial ts : forall ws rc ps,
  0 <= XColumn modeConfig -> 0 <= YColumn modeConfig ->
  exists rs ps',
    rtc step {| pending := []; closed := true; taskChannel := ts;
                workers := Idle :: ws; resultChannel := rc; provider := ps |}
             {| pending := []; closed := true; taskChannel := [];
                workers := Idle :: ws; resultChannel := rc ++ rs; provider := ps' |}.
Proof.
  induction ts as [|t ts IH]; intros ws rc ps HX HY.
  - exists [], ps. rewrite app_nil_r. apply rtc_refl.
  - destruct (worker_body_total ps t HX HY) as (r & ps1 & Hbody).
    destruct (IH ws (rc ++ [r]) ps1 HX HY) as (rs & ps' & Hsteps).
    exists (r :: rs), ps'.
    eapply rtc_l; [eapply (step_receive _ _ _ _ 0%nat t ts); reflexivity|].
    eapply rtc_l; [eapply (step_work _ _ _ _ 0%nat t r ps1); [reflexivity|exact Hbody]|].
    cbn. replace (rc ++ r :: rs) with ((rc ++ [r]) ++ rs) by (by rewrite <- app_assoc).
    exact Hsteps.
Qed.

Lemma insert_replicate_exit k n :
  <[ k := Exited ]> (replicate k Exited ++ replicate (S n) Idle)
  = replicate (S k) Exited ++ replicate n Idle.
Proof. induction k as [|k IH]; [reflexivity|]. cbn. f_equal. exact IH. Qed.

(** Every worker returns. *)
Lemma steps_exit n : forall k rc (ps : PS),
  rtc step {| pending := []; closed := true; taskChannel := [];
              workers := replicate k Exited ++ replicate n Idle;
              resultChannel := rc; provider := ps |}
           {| pending := []; closed := true; taskChannel := [];
              workers := replicate (k + n) Exited;
              resultChannel := rc; provider := ps |}.
Proof.
  induction n as [|n IH]; intros k rc ps.
  - rewrite app_nil_r, Nat.add_0_r. apply rtc_refl.
  - eapply rtc_l.
    + eapply (step_exit _ _ _ _ k); cbn; try reflexivity.
      rewrite lookup_app_r by (rewrite length_replicate; lia).
      rewrite length_replicate, Nat.sub_diag. reflexivity.
    + cbn [pending closed taskChannel Pool.workers resultChannel provider].
      replace (<[k:=Exited]> (replicate k Exited ++ replicate (S n) Idle))
        with (replicate (S k) Exited ++ replicate n Idle).
      * replace (k + S n)%nat with (S k + n)%nat by lia. apply IH.
      * symmetry. apply insert_replicate_exit.
Qed.

(** With at least one worker and columns that are not negative, the
    function returns. *)
Lemma run_exists lines ps workers :
  1 <= workers -> 0 <= XColumn modeConfig -> 0 <= YColumn modeConfig ->
  exists results ps', run lines ps workers results ps'.
Proof.
  intros HW HX HY.
  destruct (Z.to_nat workers) as [|n] eqn:En; [lia|].
  destruct (steps_serial (tasks_from 0 lines) (replicate n Idle) [] ps HX HY)
    as (rs & ps' & Hserial).
  set (st := {| pending := []; closed := true; taskChannel := [];
                workers := replicate (0 + S n) Exited;
                resultChannel := [] ++ rs; provider := ps' |}).
  assert (Hsteps : rtc step (init lines workers ps) st).
  { unfold init. rewrite En.
    etrans; [apply steps_send|].
    eapply rtc_l; [apply step_close; reflexivity|]. cbn.
    etrans; [exact Hserial|].
    apply (steps_exit (S n) 0). }
  assert (Hjoined : joined st).
  { split; [reflexivity|]. unfold st. cbn [Pool.workers].
    by apply Forall_replicate. }
  destruct (joined_collect
              (fun t r => lineIdx r = task_lineIdx t /\ line r = task_line t)
              worker_body_task (fun t r H => proj1 H)
              lines ps workers st HW Hsteps Hjoined)
    as (arr & Harr & Hlen & Hat & Hidx).
  exists arr, ps'. exists st, arr.
  split; [exact Hsteps|]. split; [exact Hjoined|]. split; [reflexivity|].
  split; [exact Harr|]. split; [reflexivity|].
  apply (indexed_sorted arr 0). intros i r Hi. rewrite (Hidx i r Hi). lia.
Qed.

End PoolFacts.

(** *** After the pool: the selector pass and the output *)

Section Output.
Import Pool.

(** The selector pass rewrites [vegreferanse] only. *)
Lemma apply_from_same results : forall s,
  Forall2 (fun a b => lineIdx b = lineIdx a /\ line b = line a /\ err b = err a
                      /\ matches b = matches a)
          results (fst (apply_from s results)).
Proof.
  induction results as [|r results IH]; intros s; cbn; [constructor|].
  destruct (0 <? len (matches r)).
  - specialize (IH (AddToHistory s (SelectBestMatch s (matches r)))).
    destruct (apply_from _ results). cbn in *. constructor; [done|exact IH].
  - specialize (IH s). destruct (apply_from s results). cbn in *.
    constructor; [done|exact IH].
Qed.

Lemma applyVegreferanseSelector_same results :
  Forall2 (fun a b => lineIdx b = lineIdx a /\ line b = line a /\ err b = err a
                      /\ matches b = matches a)
          results (applyVegreferanseSelector results).
Proof. unfold applyVegreferanseSelector. cbn. apply apply_from_same. Qed.

Lemma written_lines_same results results' :
  Forall2 (fun a b => lineIdx b = lineIdx a /\ line b = line a /\ err b = err a
                      /\ matches b = matches a) results results' ->
  map line (List.filter written results') = map line (List.filter written results).
Proof.
  induction 1 as [|a b l l' (_ & Hl & He & _) _ IH]; [done|].
  cbn [List.filter].
  assert (Hw : written b = written a) by (unfold written; by rewrite He).
  rewrite Hw. destruct (written a); cbn [map]; [|exact IH]. by rewrite Hl, IH.
Qed.

Lemma filter_sublist {A} (p : A -> bool) (l : list A) : List.filter p l `sublist_of` l.
Proof.
  induction l as [|a l IH]; cbn; [constructor|].
  destruct (p a); by constructor.
Qed.

Lemma map_sublist {A B} (f : A -> B) (l1 l2 : list A) :
  l1 `sublist_of` l2 -> map f l1 `sublist_of` map f l2.
Proof. induction 1; cbn; by constructor. Qed.

Lemma filter_all {A} (p : A -> bool) (l : list A) :
  Forall (fun a => p a = true) l -> List.filter p l = l.
Proof. induction 1 as [|a l Ha _ IH]; cbn; [done|]. by rewrite Ha, IH. Qed.

(** The rows of the output file carry the lines of the results that have no
    error, in the order of the results. *)
Lemma output_of_rows header results :
  exists rows,
    output_of header results
    = ((header +:+ String "009"%char "Vegreferanse") +:+ String "010"%char EmptyString)
      :: map row rows /\
    map line rows = map line (List.filter written results).
Proof.
  exists (List.filter written (applyVegreferanseSelector results)).
  split; [reflexivity|].
  apply written_lines_same, applyVegreferanseSelector_same.
Qed.

End Output.

(** *** Order *)

Section Order.
Import Pool.
Context {PS : Type}.
Context (GetVegreferanseMatches :
           PS -> float64 -> float64 -> result (list VegreferanseMatch) * PS).
Context (ParseFloat : string -> result float64).
Context (modeConfig : CoordToVegrefConfig).

Local Abbreviation run :=
  (processCoordinatesToVegreferanse GetVegreferanseMatches ParseFloat modeConfig).

(** C2.  For any lines and at least one worker, whatever the schedule and
    whatever the provider answers, the slice returned has one result per
    line, [results[i].lineIdx = i] and [results[i].line] is line [i]; the rows
    written to the output file are those of the results without error, in
    the order of the input lines. *)
Theorem results_in_input_order lines ps workers results ps' header :
  1 <= workers ->
  run lines ps workers results ps' ->
  length results = length lines /\
  (forall i r, results !! i = Some r ->
               lineIdx r = Z.of_nat i /\ lines !! i = Some (line r)) /\
  exists rows,
    output_of header results
    = ((header +:+ String "009"%char "Vegreferanse") +:+ String "010"%char EmptyString)
      :: map row rows /\
    map line rows `sublist_of` lines /\
    (Forall (fun r => err r = None) results -> map line rows = lines).
Proof.
  intros HW Hrun.
  destruct (run_results GetVegreferanseMatches ParseFloat modeConfig
              (fun t r => lineIdx r = task_lineIdx t /\ line r = task_line t)
              (worker_body_task GetVegreferanseMatches ParseFloat modeConfig)
              (fun t r H => proj1 H)
              lines ps workers results ps' HW Hrun) as [Hlen Hat].
  assert (Hidx : forall i r, results !! i = Some r ->
                             lineIdx r = Z.of_nat i /\ lines !! i = Some (line r)).
  { intros i r Hi.
    destruct (lookup_lt_is_Some_2 (tasks_from 0 lines) i) as [t Ht].
    { rewrite tasks_from_length, <- Hlen. eapply lookup_lt_Some; eauto. }
    destruct (Hat i t Ht) as (r' & Hr' & Hk & Hl).
    rewrite Hi in Hr'. injection Hr' as <-.
    destruct (tasks_from_lookup _ _ _ _ Ht) as [Hk' Hl'].
    rewrite Hk, Hl. split; [lia|exact Hl']. }
  assert (Hlines : map line results = lines).
  { apply list_eq. intros i. rewrite list_lookup_fmap.
    destruct (results !! i) as [r|] eqn:Hi; cbn.
    - symmetry. apply (Hidx i r Hi).
    - symmetry. apply lookup_ge_None. apply lookup_ge_None in Hi. lia. }
  split; [exact Hlen|]. split; [exact Hidx|].
  destruct (output_of_rows header results) as (rows & Hout & Hrows).
  exists rows. split; [exact Hout|]. rewrite Hrows. split.
  - rewrite <- Hlines. apply map_sublist, filter_sublist.
  - intros Hok. rewrite filter_all; [exact Hlines|].
    eapply Forall_impl; [exact Hok|]. intros r Hr. unfold written. by rewrite Hr.
Qed.

(** The provider is deterministic: what it answers is a function [f] of the
    coordinates, whatever it remembers. *)
Definition answers_by (f : float64 -> float64 -> result (list VegreferanseMatch))
  : Prop :=
  forall ps x y, fst (GetVegreferanseMatches ps x y) = f x y.

(** The result of a task when the provider answers by [f]. *)
Definition expected (f : float64 -> float64 -> result (list VegreferanseMatch))
    (task : processTask) : option processResult :=
  fst <$> worker_body (fun (_ : unit) x y => (f x y, tt)) ParseFloat modeConfig tt task.

Lemma worker_body_expected f ps task r ps' :
  answers_by f ->
  worker_body GetVegreferanseMatches ParseFloat modeConfig ps task = Some (r, ps') ->
  expected f task = Some r.
Proof.
  intros Hf. unfold expected, worker_body.
  destruct (_ <=? _); [by intros [= <- _]|].
  destruct (at_index _ (XColumn _)) as [xs|]; [|discriminate].
  destruct (ParseFloat xs) as [x|e]; [|by intros [= <- _]].
  destruct (at_index _ (YColumn _)) as [ys|]; [|discriminate].
  destruct (ParseFloat ys) as [y|e]; [|by intros [= <- _]].
  specialize (Hf ps x y).
  destruct (GetVegreferanseMatches ps x y) as [a ps1]. cbn in Hf. rewrite <- Hf.
  destruct a; by intros [= <- _].
Qed.

Lemma expected_key f task r :
  expected f task = Some r -> lineIdx r = task_lineIdx task.
Proof.
  unfold expected. intros H.
  destruct (worker_body _ _ _ tt task) as [[r' u]|] eqn:E; [|discriminate].
  injection H as <-. by apply worker_body_task in E as [? _].
Qed.

(** C4.  When what the provider answers depends on the coordinates alone,
    the slice returned with one worker is the slice returned with any number
    of workers, whatever the schedules, and so is the output. *)
Theorem one_worker_as_many f lines ps workers results1 results ps1' ps' header :
  answers_by f ->
  1 <= workers ->
  run lines ps 1 results1 ps1' ->
  run lines ps workers results ps' ->
  results = results1 /\
  output_of header results = output_of header results1.
Proof.
  intros Hf HW Hrun1 Hrun.
  assert (Heq : results = results1); [|by rewrite Heq].
  destruct (run_results GetVegreferanseMatches ParseFloat modeConfig
              (fun t r => expected f t = Some r)
              (fun ps t r ps' H => worker_body_expected f ps t r ps' Hf H)
              (expected_key f)
              lines ps 1 results1 ps1' ltac:(lia) Hrun1) as [Hlen1 Hat1].
  destruct (run_results GetVegreferanseMatches ParseFloat modeConfig
              (fun t r => expected f t = Some r)
              (fun ps t r ps' H => worker_body_expected f ps t r ps' Hf H)
              (expected_key f)
              lines ps workers results ps' HW Hrun) as [Hlen Hat].
  apply list_eq. intros i.
  destruct (tasks_from 0 lines !! i) as [t|] eqn:Ht.
  - destruct (Hat1 i t Ht) as (r1 & -> & E1).
    destruct (Hat i t Ht) as (r & -> & E). congruence.
  - apply lookup_ge_None in Ht. rewrite tasks_from_length in Ht.
    rewrite (proj2 (lookup_ge_None results i)) by lia.
    rewrite (proj2 (lookup_ge_None results1 i)) by lia. reflexivity.
Qed.

End Order.

(** *** A run of the pool, step by step *)

Section Demo.
Import Pool.

Definition tab : string := String "009"%char EmptyString.

(** Three lines, the second with an X coordinate that does not parse. *)
Definition demo_lines : list string :=
  ["600000" +:+ tab +:+ "6600000";
   "east" +:+ tab +:+ "6600001";
   "600002" +:+ tab +:+ "6600002"].

Definition demo_config : CoordToVegrefConfig := {| XColumn := 0; YColumn := 1 |}.

(** A parser that knows the numbers of [demo_lines]. *)
Definition demo_ParseFloat (s : string) : result float64 :=
  if String.eqb s "600000" then Ok 600000%float
  else if String.eqb s "600002" then Ok 600002%float
  else if String.eqb s "6600000" then Ok 6600000%float
  else if String.eqb s "6600001" then Ok 6600001%float
  else if String.eqb s "6600002" then Ok 6600002%float
  else Err "invalid syntax".

(** A provider that counts its calls and answers by the coordinates. *)
Definition demo_answer (x y : float64) : result (list VegreferanseMatch) :=
  if PrimFloat.ltb x 600001%float
  then Ok [mkMatch "E18 S65D1 m12621" 2.5%float; mkMatch "Kv1000 S1D1 m500" 1%float]
  else Ok [mkMatch "Kv1000 S1D1 m510" 1%float; mkMatch "E18 S65D1 m12630" 3%float].

Definition demo_provider (calls : nat) (x y : float64)
  : result (list VegreferanseMatch) * nat :=
  (demo_answer x y, S calls).

Definition demo_result (i : nat) : processResult :=
  Eval vm_compute in
    match tasks_from 0 demo_lines !! i with
    | Some t =>
        match worker_body demo_provider demo_ParseFloat demo_config 0%nat t with
        | Some (r, _) => r
        | None => zero_processResult
        end
    | None => zero_processResult
    end.

Definition demo_results : list processResult :=
  [demo_result 0; demo_result 1; demo_result 2].

Local Abbreviation demo_step := (step demo_provider demo_ParseFloat demo_config).
Local Abbreviation demo_run :=
  (processCoordinatesToVegreferanse demo_provider demo_ParseFloat demo_config).

Ltac send := eapply rtc_l; [eapply step_send; reflexivity|cbn].
Ltac close := eapply rtc_l; [eapply step_close; reflexivity|cbn].
Ltac receive w := eapply rtc_l; [eapply (step_receive _ _ _ _ w); reflexivity|cbn].
Ltac work w :=
  eapply rtc_l; [eapply (step_work _ _ _ _ w); [reflexivity|vm_compute; reflexivity]|cbn].
Ltac leave w := eapply rtc_l; [eapply (step_exit _ _ _ _ w); reflexivity|cbn].

(** Two workers; the second line is answered first, the first line second. *)
Lemma demo_two_workers : demo_run demo_lines 0%nat 2 demo_results 2%nat.
Proof.
  eexists _, _. split.
  { unfold init. cbn.
    send. send. send. close.
    receive 0%nat. receive 1%nat. work 1%nat. receive 1%nat.
    work 0%nat. work 1%nat. leave 0%nat. leave 1%nat. apply rtc_refl. }
  split; [split; [reflexivity|repeat constructor]|].
  split; [reflexivity|]. split; [vm_compute; reflexivity|].
  split; [reflexivity|]. repeat constructor.
Qed.

(** One worker. *)
Lemma demo_one_worker : demo_run demo_lines 0%nat 1 demo_results 2%nat.
Proof.
  eexists _, _. split.
  { unfold init. cbn.
    send. send. send. close.
    receive 0%nat. work 0%nat. receive 0%nat. work 0%nat.
    receive 0%nat. work 0%nat. leave 0%nat. apply rtc_refl. }
  split; [split; [reflexivity|repeat constructor]|].
  split; [reflexivity|]. split; [vm_compute; reflexivity|].
  split; [reflexivity|]. repeat constructor.
Qed.

End Demo.

(** C2 at the run with two workers in which the results arrive out of
    order. *)
Lemma results_in_input_order_witness :
  length demo_results = length demo_lines /\
  (forall i r, demo_results !! i = Some r ->
               Pool.lineIdx r = Z.of_nat i /\ demo_lines !! i = Some (Pool.line r)) /\
  exists rows,
    Pool.output_of ("X" +:+ tab +:+ "Y") demo_results
    = ((("X" +:+ tab +:+ "Y") +:+ String "009"%char "Vegreferanse")
       +:+ String "010"%char EmptyString)
      :: map Pool.row rows /\
    map Pool.line rows `sublist_of` demo_lines /\
    (Forall (fun r => Pool.err r = None) demo_results ->
     map Pool.line rows = demo_lines).
Proof.
  apply (results_in_input_order demo_provider demo_ParseFloat demo_config
           demo_lines 0%nat 2 demo_results 2%nat ("X" +:+ tab +:+ "Y")).
  - lia.
  - exact demo_two_workers.
Defined.

(** C4 at the runs with one and with two workers. *)
Lemma one_worker_as_many_witness :
  demo_results = demo_results /\
  Pool.output_of ("X" +:+ tab +:+ "Y") demo_results
  = Pool.output_of ("X" +:+ tab +:+ "Y") demo_results.
Proof.
  apply (one_worker_as_many demo_provider demo_ParseFloat demo_config demo_answer
           demo_lines 0%nat 2 demo_results demo_results 2%nat 2%nat
           ("X" +:+ tab +:+ "Y")).
  - intros ps x y. reflexivity.
  - lia.
  - exact demo_one_worker.
  - exact demo_two_workers.
Defined.

(** The output of that run: the header with the new column, then the rows
    of the first and of the third line, the selector having kept the third on
    the road of the first. *)
Example demo_output :
  Pool.output_of ("X" +:+ tab +:+ "Y") demo_results
  = ["X" +:+ tab +:+ "Y" +:+ tab +:+ "Vegreferanse" +:+ String "010"%char EmptyString;
     "600000" +:+ tab +:+ "6600000" +:+ tab +:+ "E18 S65D1 m12621"
       +:+ String "010"%char EmptyString;
     "600002" +:+ tab +:+ "6600002" +:+ tab +:+ "E18 S65D1 m12630"
       +:+ String "010"%char EmptyString].
Proof. vm_compute. reflexivity. Qed.


(** ** The cache and the client *)

Section ApiFacts.
Import RateLimit DiskCache Api.
Context (L : Library).

Lemma MkdirAll_files fs f p : files (snd (MkdirAll fs f p)) = files fs.
Proof. unfold MkdirAll. by destruct (mkdir_fails f). Qed.

(** Looking a key up creates at most a directory. *)
Lemma getCacheFilePath_files c x y fs f :
  files (snd (getCacheFilePath L c x y fs f)) = files fs.
Proof.
  unfold getCacheFilePath. cbn. destruct (exists_path _ _); [done|].
  apply MkdirAll_files.
Qed.

(** The path of an entry is a function of the formatted coordinates. *)
Lemma getCacheFilePath_path c x y x' y' fs f fs' f' :
  Sprintf_6f L x' = Sprintf_6f L x -> Sprintf_6f L y' = Sprintf_6f L y ->
  fst (getCacheFilePath L c x' y' fs' f') = fst (getCacheFilePath L c x y fs f).
Proof. intros Hx Hy. unfold getCacheFilePath. cbn. by rewrite Hx, Hy. Qed.

Lemma Get_files c x y fs f : files (snd (Get L c x y fs f)) = files fs.
Proof.
  unfold Get. pose proof (getCacheFilePath_files c x y fs f) as H.
  destruct (getCacheFilePath L c x y fs f) as [p fs1]. cbn in H.
  repeat match goal with
         | |- context [if ?b then _ else _] => destruct b
         | |- context [match ?o with _ => _ end] => destruct o
         end; exact H.
Qed.

(** What a lookup finds depends on the files alone, not on the
    directories. *)
Lemma Get_by_files c x y fs fs' f :
  files fs = files fs' -> fst (Get L c x y fs f) = fst (Get L c x y fs' f).
Proof.
  intros Hfiles. unfold Get.
  pose proof (getCacheFilePath_files c x y fs f) as H.
  pose proof (getCacheFilePath_files c x y fs' f) as H'.
  pose proof (getCacheFilePath_path c x y x y fs f fs' f eq_refl eq_refl) as Hp.
  destruct (getCacheFilePath L c x y fs f) as [p fs1].
  destruct (getCacheFilePath L c x y fs' f) as [p' fs1'].
  cbn in H, H', Hp. subst p'.
  assert (Hsame : files fs1 !! p = files fs1' !! p) by congruence.
  unfold exists_path. rewrite <- Hsame.
  destruct (files fs1 !! p) as [data|] eqn:E.
  - assert (Hs : bool_decide (is_Some (Some data)) = true)
      by (apply bool_decide_eq_true; eauto).
    rewrite Hs, !orb_true_r. cbn.
    destruct (read_fails f); [done|]. by destruct (json_Unmarshal_matches L data).
  - destruct (negb _), (negb _); try done; destruct (read_fails f); done.
Qed.

(** An entry that is there, can be read and can be decoded is found. *)
Lemma Get_hit c x y fs f data ms :
  files fs !! fst (getCacheFilePath L c x y fs f) = Some data ->
  read_fails f = false ->
  json_Unmarshal_matches L data = Ok ms ->
  fst (Get L c x y fs f) = Some ms.
Proof.
  intros Hfile Hread Hjson. unfold Get.
  pose proof (getCacheFilePath_files c x y fs f) as H.
  destruct (getCacheFilePath L c x y fs f) as [p fs1]. cbn in H, Hfile.
  rewrite <- H in Hfile.
  assert (Hex : exists_path fs1 p = true).
  { unfold exists_path. apply orb_true_iff. right.
    apply bool_decide_eq_true. rewrite Hfile. eauto. }
  rewrite Hex, Hread, Hfile, Hjson. reflexivity.
Qed.

(** [Set] that meets no failure writes the encoded matches at the path of the
    key, and touches no other file. *)
Lemma Set_written c x y ms fs f data :
  json_Marshal L ms = Ok data ->
  mkdir_fails f = false -> write_fails f = false ->
  files (snd (Set_ L c x y ms fs f))
  = <[ fst (getCacheFilePath L c x y fs f) := data ]> (files fs).
Proof.
  intros Hjson Hmk Hwr. unfold Set_.
  pose proof (getCacheFilePath_files c x y fs f) as H.
  destruct (getCacheFilePath L c x y fs f) as [p fs1]. cbn in H.
  rewrite Hjson. unfold MkdirAll. rewrite Hmk, Hwr. cbn. by rewrite H.
Qed.

(** A request is sent, whatever comes back; the files are as they were. *)
Lemma executeRequest_sent api w e req r api' w' :
  executeRequest api w e req = Some (r, api', w') ->
  fs w' = fs w /\ sent w' = sent w ++ [req] /\ diskCache api' = diskCache api.
Proof.
  unfold executeRequest.
  destruct (Wait _ _ _) as [[[r1 c1] n1]|]; [|discriminate].
  destruct (http e); intros [= <- <- <-]; done.
Qed.

(** [handleErrorResponse] gives an error for every status but 404. *)
Lemma handleErrorResponse_not_nil statusCode respBody :
  (statusCode =? StatusNotFound) = false ->
  exists err, handleErrorResponse L statusCode respBody = Some err.
Proof.
  intros E. unfold handleErrorResponse. rewrite E.
  destruct (json_Unmarshal_error L respBody) as [errorResp|]; [|eauto].
  destruct (0 <? len _); [eauto|]. destruct (negb _); eauto.
Qed.

(** The world after the check of the cache, and what was found. *)
Definition cache_check (api : VegvesenetAPIV4) (w : World) (e : Env)
    (x y : float64) : option (list VegreferanseMatch) * World :=
  match diskCache api with
  | None => (None, w)
  | Some c =>
      let '(found, fs') := Get L c x y (fs w) (faults e) in
      (found, with_fs w fs')
  end.

Lemma cache_check_files api w e x y :
  files (fs (snd (cache_check api w e x y))) = files (fs w) /\
  sent (snd (cache_check api w e x y)) = sent w /\
  clock (snd (cache_check api w e x y)) = clock w.
Proof.
  unfold cache_check. destruct (diskCache api) as [c|]; [|done].
  pose proof (Get_files c x y (fs w) (faults e)) as H.
  destruct (Get L c x y (fs w) (faults e)) as [found fs']. done.
Qed.

(** The request of [GetVegreferanseMatches]. *)
Definition position_request (api : VegvesenetAPIV4) (x y : float64)
  : result Request :=
  match createRequest L api "GET" "/vegnett/api/v4/posisjon" with
  | Err err => Err err
  | Ok req =>
      Ok {| req_method := req_method req; req_url := req_url req;
            req_header := req_header req;
            req_query :=
              [("nord", Sprintf_6f L y); ("ost", Sprintf_6f L x);
               ("srid", "5973"); ("maks_antall", "10")] |}
  end.

(** What the provider's answer is for the client: an error, or matches. *)
Definition provider_answer (e : Env) : result (list VegreferanseMatch) :=
  match http e with
  | DoFails err => Err ("request failed: " +:+ err)
  | ReadFails _ err => Err ("failed to read response body: " +:+ err)
  | Response statusCode respBody =>
      if negb (statusCode =? StatusOK) then
        if statusCode =? StatusNotFound then Ok []
        else
          match handleErrorResponse L statusCode respBody with
          | Some err => Err err
          | None => Ok []
          end
      else
        match json_Unmarshal_response L respBody with
        | Err err => Err ("failed to parse response: " +:+ err)
        | Ok result => Ok (map to_match result)
        end
  end.

(** [GetVegreferanseMatches], case by case: a hit returns the entry and sends
    nothing; on a miss one request is sent and what the provider answers is
    returned, an error leaving the files alone and matches being given to
    [Set]. *)
Lemma GetVegreferanseMatches_cases api w e x y r api' w' :
  GetVegreferanseMatches L api w e x y = Some (r, api', w') ->
  let '(hit, w0) := cache_check api w e x y in
  match hit with
  | Some ms => r = Ok ms /\ w' = w0 /\ api' = api
  | None =>
      match position_request api x y with
      | Err err => r = Err err /\ w' = w0 /\ api' = api
      | Ok req =>
          r = provider_answer e /\
          diskCache api' = diskCache api /\
          exists w1, fs w1 = fs w0 /\ sent w1 = sent w0 ++ [req] /\
            match r with
            | Err _ => w' = w1
            | Ok ms => w' = cache_matches L api' w1 e x y ms
            end
      end
  end.
Proof.
  unfold GetVegreferanseMatches. fold (cache_check api w e x y).
  destruct (cache_check api w e x y) as [[ms|] w0]; [by intros [= <- <- <-]|].
  unfold position_request.
  destruct (createRequest L api _ _) as [req|err]; [|by intros [= <- <- <-]].
  match goal with
  | |- context [executeRequest api w0 e ?q] => set (req' := q)
  end.
  destruct (executeRequest api w0 e req') as [[[[[body status]|err] api1] w1]|] eqn:Hex;
    [| |discriminate].
  - pose proof Hex as Hex'.
    apply executeRequest_sent in Hex' as (Hfs & Hsent & Hdc).
    assert (Hhttp : http e = Response status body).
    { unfold executeRequest in Hex. destruct (Wait _ _ _) as [[[? ?] ?]|]; [|discriminate].
      destruct (http e); congruence. }
    unfold provider_answer. rewrite Hhttp.
    destruct (negb (status =? StatusOK)).
    + destruct (status =? StatusNotFound) eqn:E404.
      * intros [= <- <- <-]. split; [done|]. split; [done|]. exists w1. done.
      * destruct (handleErrorResponse_not_nil status body E404) as [err ->].
        intros [= <- <- <-]. split; [done|]. split; [done|]. exists w1. done.
    + destruct (json_Unmarshal_response L body) as [result|err].
      * destruct (len result =? 0) eqn:E0.
        -- assert (result = []) as ->.
           { apply Z.eqb_eq in E0. unfold len in E0. destruct result; [done|].
             cbn in E0. lia. }
           intros [= <- <- <-]. split; [done|]. split; [done|]. exists w1. done.
        -- intros [= <- <- <-]. split; [done|]. split; [done|]. exists w1. done.
      * intros [= <- <- <-]. split; [done|]. split; [done|]. exists w1. done.
  - pose proof Hex as Hex'.
    apply executeRequest_sent in Hex' as (Hfs & Hsent & Hdc).
    intros [= <- <- <-].
    assert (Herr : provider_answer e = Err err).
    { unfold executeRequest in Hex. destruct (Wait _ _ _) as [[[? ?] ?]|]; [|discriminate].
      unfold provider_answer. destruct (http e); congruence. }
    rewrite Herr. split; [done|]. split; [done|]. exists w1. done.
Qed.


Lemma GetVegreferanseMatches_hit api w e x y ms :
  fst (cache_check api w e x y) = Some ms ->
  GetVegreferanseMatches L api w e x y
  = Some (Ok ms, api, snd (cache_check api w e x y)).
Proof.
  intros Hhit. unfold GetVegreferanseMatches. fold (cache_check api w e x y).
  destruct (cache_check api w e x y) as [hit w0]. cbn in Hhit. by subst.
Qed.

(** An entry found was read from its file. *)
Lemma Get_found c x y fs f ms :
  fst (Get L c x y fs f) = Some ms ->
  exists data,
    files fs !! fst (getCacheFilePath L c x y fs f) = Some data /\
    json_Unmarshal_matches L data = Ok ms.
Proof.
  unfold Get. pose proof (getCacheFilePath_files c x y fs f) as H.
  destruct (getCacheFilePath L c x y fs f) as [p fs1]. cbn in H. cbn [fst].
  destruct (negb _); [discriminate|]. destruct (read_fails f); [discriminate|].
  rewrite H. destruct (files fs !! p) as [data|]; [|discriminate].
  destruct (json_Unmarshal_matches L data) as [ms'|] eqn:E; [|discriminate].
  intros [= <-]. eauto.
Qed.

(** The ways in which the call to the provider fails, with the error the
    client makes of each: no response, a body that cannot be read, a status
    other than 200 and 404, a payload that cannot be decoded. *)
Inductive provider_fails (e : Env) : string -> Prop :=
| fails_transport err :
    http e = DoFails err -> provider_fails e ("request failed: " +:+ err)
| fails_body status err :
    http e = ReadFails status err ->
    provider_fails e ("failed to read response body: " +:+ err)
| fails_status status body msg :
    http e = Response status body ->
    status <> StatusOK -> status <> StatusNotFound ->
    handleErrorResponse L status body = Some msg ->
    provider_fails e msg
| fails_payload body err :
    http e = Response StatusOK body ->
    json_Unmarshal_response L body = Err err ->
    provider_fails e ("failed to parse response: " +:+ err).

(** The ways in which the provider has no match: status 404, or an empty
    list. *)
Inductive provider_empty (e : Env) : Prop :=
| empty_not_found body :
    http e = Response StatusNotFound body -> provider_empty e
| empty_list body :
    http e = Response StatusOK body ->
    json_Unmarshal_response L body = Ok [] -> provider_empty e.

Lemma provider_fails_answer e msg :
  provider_fails e msg -> provider_answer e = Err msg.
Proof.
  unfold provider_answer.
  intros [err H | status err H | status body m H H200 H404 Hm | body err H Hj];
    rewrite H; try reflexivity.
  - replace (status =? StatusOK) with false by (symmetry; by apply Z.eqb_neq).
    replace (status =? StatusNotFound) with false by (symmetry; by apply Z.eqb_neq).
    cbn. by rewrite Hm.
  - cbn. by rewrite Hj.
Qed.

Lemma provider_empty_answer e : provider_empty e -> provider_answer e = Ok [].
Proof.
  unfold provider_answer. intros [body H | body H Hj]; rewrite H; cbn; [done|].
  by rewrite Hj.
Qed.

(** C7.  After a miss of the cache (or without a cache), when the call to
    the provider fails the client returns the error and no file of the cache
    has changed; a response with a status other than 200 and 404 is such a
    failure whatever its body, never an empty result.  When the provider has
    no match the client returns the empty list without error and, the disk
    meeting no failure, has written the encoded empty list at the path of the
    key.  Whenever the client returns an error the files of the cache are as
    they were, and every lookup finds what it found before. *)
Theorem provider_error_not_cached api w e x y r api' w' req :
  GetVegreferanseMatches L api w e x y = Some (r, api', w') ->
  fst (cache_check api w e x y) = None ->
  position_request api x y = Ok req ->
  (forall msg, provider_fails e msg ->
               r = Err msg /\ files (fs w') = files (fs w)) /\
  (provider_empty e ->
   r = Ok [] /\
   forall c data,
     diskCache api = Some c -> json_Marshal L [] = Ok data ->
     mkdir_fails (faults e) = false -> write_fails (faults e) = false ->
     files (fs w')
     = <[ fst (getCacheFilePath L c x y (fs w) (faults e)) := data ]> (files (fs w))) /\
  (forall msg, r = Err msg ->
               files (fs w') = files (fs w) /\
               forall c x2 y2 f,
                 fst (Get L c x2 y2 (fs w') f) = fst (Get L c x2 y2 (fs w) f)) /\
  (forall status body,
     http e = Response status body ->
     status <> StatusOK -> status <> StatusNotFound ->
     exists msg, r = Err msg /\ provider_fails e msg /\
                 files (fs w') = files (fs w)).
Proof.
  intros Hcall Hmiss Hreq.
  pose proof (GetVegreferanseMatches_cases api w e x y r api' w' Hcall) as Hcases.
  pose proof (cache_check_files api w e x y) as (Hfiles0 & Hsent0 & _).
  destruct (cache_check api w e x y) as [hit w0]. cbn in Hmiss, Hfiles0, Hsent0.
  subst hit. rewrite Hreq in Hcases.
  destruct Hcases as (Hr & Hdc & w1 & Hfs1 & Hsent1 & Hw').
  assert (Herr : forall msg, r = Err msg -> files (fs w') = files (fs w)).
  { intros msg ->. subst w'. by rewrite Hfs1. }
  split; [|split; [|split]].
  3: { intros msg Hmsg. split; [by apply (Herr msg)|].
       intros c x2 y2 f. apply Get_by_files. by apply (Herr msg). }
  3: { intros status body Hhttp H200 H404.
       destruct (handleErrorResponse_not_nil status body) as [msg Hmsg];
         [by apply Z.eqb_neq|].
       assert (Hfails : provider_fails e msg)
         by (by apply (fails_status e status body msg)).
       rewrite (provider_fails_answer e msg Hfails) in Hr.
       exists msg. split; [exact Hr|]. split; [exact Hfails|]. by apply (Herr msg). }
  - intros msg Hfails. rewrite (provider_fails_answer e msg Hfails) in Hr.
    split; [exact Hr|]. by apply (Herr msg).
  - intros Hempty. rewrite (provider_empty_answer e Hempty) in Hr.
    split; [exact Hr|]. intros c data Hc Hjson Hmk Hwr.
    rewrite Hr in Hw'. subst w'. unfold cache_matches, with_fs. rewrite Hdc, Hc.
    cbn [fs].
    rewrite (Set_written c x y [] (fs w1) (faults e) data Hjson Hmk Hwr).
    rewrite Hfs1, Hfiles0.
    f_equal; by apply getCacheFilePath_path.
Qed.

(** C6, as amended.  When the first call returns matches without error,
    the encoded matches decode to themselves and the disk meets no failure, a
    second call for coordinates that format to the same key returns the same
    matches from the cache and sends no request; the first call has sent
    exactly one request when it missed the cache, and none when it was itself
    answered from the cache. *)
Theorem second_call_from_cache api w e1 e2 x y x' y' c ms api1 w1 data :
  diskCache api = Some c ->
  Sprintf_6f L x' = Sprintf_6f L x -> Sprintf_6f L y' = Sprintf_6f L y ->
  GetVegreferanseMatches L api w e1 x y = Some (Ok ms, api1, w1) ->
  json_Marshal L ms = Ok data -> json_Unmarshal_matches L data = Ok ms ->
  mkdir_fails (faults e1) = false -> write_fails (faults e1) = false ->
  read_fails (faults e2) = false ->
  exists w2,
    GetVegreferanseMatches L api1 w1 e2 x' y' = Some (Ok ms, api1, w2) /\
    sent w2 = sent w1 /\
    (length (sent w1) <= S (length (sent w)))%nat /\
    (fst (cache_check api w e1 x y) = None ->
     length (sent w1) = S (length (sent w))) /\
    (forall ms0, fst (cache_check api w e1 x y) = Some ms0 ->
                 sent w1 = sent w).
Proof.
  intros Hc Hx Hy Hcall Hjson Hback Hmk Hwr Hrd.
  pose proof (GetVegreferanseMatches_cases api w e1 x y _ api1 w1 Hcall) as Hcases.
  pose proof (cache_check_files api w e1 x y) as (Hfiles0 & Hsent0 & _).
  assert (Hhit2 : forall (a : VegvesenetAPIV4) (v : World) d,
             diskCache a = Some c ->
             files (fs v) !! fst (getCacheFilePath L c x y (fs w) (faults e1)) = Some d ->
             json_Unmarshal_matches L d = Ok ms ->
             fst (cache_check a v e2 x' y') = Some ms).
  { intros a v d Ha Hd Hdec. unfold cache_check. rewrite Ha.
    pose proof (Get_hit c x' y' (fs v) (faults e2) d ms) as Hget.
    rewrite (getCacheFilePath_path c x y x' y' (fs w) (faults e1) (fs v) (faults e2) Hx Hy)
      in Hget.
    specialize (Hget Hd Hrd Hdec).
    destruct (Get L c x' y' (fs v) (faults e2)) as [found fs']. exact Hget. }
  assert (Hdone : forall a v,
             fst (cache_check a v e2 x' y') = Some ms ->
             exists w2, GetVegreferanseMatches L a v e2 x' y' = Some (Ok ms, a, w2)
                        /\ sent w2 = sent v).
  { intros a v Hhit. exists (snd (cache_check a v e2 x' y')).
    split; [by apply GetVegreferanseMatches_hit|].
    apply cache_check_files. }
  destruct (cache_check api w e1 x y) as [[ms0|] w0] eqn:Hcheck;
    cbn in Hfiles0, Hsent0.
  - (* the first call was answered from the cache *)
    destruct Hcases as ([= <-] & -> & ->).
    assert (Hfound : fst (Get L c x y (fs w) (faults e1)) = Some ms).
    { unfold cache_check in Hcheck. rewrite Hc in Hcheck.
      destruct (Get L c x y (fs w) (faults e1)) as [found fs']. by injection Hcheck as -> _. }
    destruct (Get_found c x y (fs w) (faults e1) ms Hfound) as (d & Hd & Hdec).
    destruct (Hdone api w0) as (w2 & Hcall2 & Hsent2).
    { apply (Hhit2 api w0 d Hc); [by rewrite Hfiles0|exact Hdec]. }
    exists w2. split; [exact Hcall2|]. split; [exact Hsent2|].
    rewrite Hsent0. split; [lia|]. split; [discriminate|]. done.
  - (* the first call went to the provider *)
    destruct (position_request api x y) as [req|err]; [|by destruct Hcases].
    destruct Hcases as (_ & Hdc & w1' & Hfs1 & Hsent1 & ->).
    assert (Hfiles1 :
              files (fs (cache_matches L api1 w1' e1 x y ms))
              = <[ fst (getCacheFilePath L c x y (fs w) (faults e1)) := data ]>
                  (files (fs w))).
    { unfold cache_matches, with_fs. rewrite Hdc, Hc. cbn [fs].
      rewrite (Set_written c x y ms (fs w1') (faults e1) data Hjson Hmk Hwr).
      rewrite Hfs1, Hfiles0. f_equal; by apply getCacheFilePath_path. }
    assert (Hsent1' : sent (cache_matches L api1 w1' e1 x y ms) = sent w ++ [req]).
    { unfold cache_matches, with_fs. rewrite Hdc, Hc. cbn [sent].
      by rewrite Hsent1, Hsent0. }
    destruct (Hdone api1 (cache_matches L api1 w1' e1 x y ms)) as (w2 & Hcall2 & Hsent2).
    { apply (Hhit2 _ _ data); [by rewrite Hdc| |exact Hback].
      rewrite Hfiles1. apply lookup_insert_eq. }
    exists w2. split; [exact Hcall2|]. split; [exact Hsent2|].
    rewrite Hsent1', length_app. cbn. split; [lia|]. split; [intros _; lia|].
    discriminate.
Qed.

End ApiFacts.

(** *** The client on a small library *)

Section ApiDemo.
Import RateLimit DiskCache Api.

(** A formatter that knows two coordinates. *)
Definition demo_Sprintf_6f (v : float64) : string :=
  if PrimFloat.eqb v 600000%float then "600000.000000"
  else if PrimFloat.eqb v 6600000%float then "6600000.000000"
  else "0.000000".

Fixpoint has_slash (s : string) : bool :=
  match s with
  | EmptyString => false
  | String c r => Ascii.eqb c "/" || has_slash r
  end.

(** The path before its last slash. *)
Fixpoint demo_Dir (p : string) : string :=
  match p with
  | EmptyString => EmptyString
  | String c r => if has_slash r then String c (demo_Dir r) else EmptyString
  end.

Definition demo_matches : list VegreferanseMatch :=
  [mkMatch "E18 S65D1 m12621" 2.5%float].

Definition demo_item : V4PositionResponseItem :=
  {| item_Vegsystemreferanse :=
       {| vegsystem := zero_Vegsystem; strekning := zero_Strekning;
          Kortform := "E18 S65D1 m12621" |};
     item_Veglenkesekvens :=
       {| Veglenkesekvensid := 0; RelativPosisjon := 0%float;
          veglenke_Kortform := "" |};
     item_Geometri := {| Wkt := ""; Srid := 5973 |};
     Kommune := 0;
     item_Avstand := 2.5%float |}.

(** A codec for two documents: the empty list and the list of
    [demo_matches]. *)
Definition demo_Library : Library :=
  {| Sprintf_6f := demo_Sprintf_6f;
     filepath_Join := fun a b => a +:+ "/" +:+ b;
     filepath_Dir := demo_Dir;
     json_Marshal := fun ms =>
       match ms with
       | [] => Ok "[]"
       | _ => Ok "[E18 S65D1 m12621]"
       end;
     json_Unmarshal_matches := fun data =>
       if String.eqb data "[]" then Ok []
       else if String.eqb data "[E18 S65D1 m12621]" then Ok demo_matches
       else Err "unexpected end of JSON input";
     json_Unmarshal_response := fun body =>
       if String.eqb body "[]" then Ok []
       else if String.eqb body "[E18 S65D1 m12621]" then Ok [demo_item]
       else Err "unexpected end of JSON input";
     json_Unmarshal_error := fun _ => Err "invalid character";
     http_NewRequest_error := fun _ _ => None;
     clientSessionID := "session" |}.

(** The client of [NewVegvesenetAPIV4(10, time.Second, "cache")] and an empty
    disk. *)
Definition demo_api : VegvesenetAPIV4 :=
  {| baseURL := "https://nvdbapiles.atlas.vegvesen.no";
     rateLimiter := {| calls := []; limit := 10; timeFrame := 1000000000 |};
     diskCache := Some {| cacheDir := "cache" |} |}.

Definition demo_world : World :=
  {| fs := {| files := ∅; dirs := ∅ |}; clock := 0; sent := [] |}.

Definition on_time : Delay := {| pause := 0; oversleep := 0 |}.

(** The provider does not respond; it answers one match; it answers none. *)
Definition env_timeout : Env :=
  {| faults := no_faults; delay := on_time;
     http := DoFails "context deadline exceeded" |}.
Definition env_match : Env :=
  {| faults := no_faults; delay := on_time;
     http := Response 200 "[E18 S65D1 m12621]" |}.
Definition env_none : Env :=
  {| faults := no_faults; delay := on_time; http := Response 404 "" |}.

(** The provider answers with a server error. *)
Definition env_error : Env :=
  {| faults := no_faults; delay := on_time;
     http := Response 500 "Internal Server Error" |}.

(** Two calls in a row: what each returns and the number of requests sent
    by the end. *)
Definition two_calls (L : Library) (api : VegvesenetAPIV4) (w : World)
    (e1 e2 : Env) (x y : float64)
  : option (result (list VegreferanseMatch) * result (list VegreferanseMatch) * nat) :=
  match GetVegreferanseMatches L api w e1 x y with
  | None => None
  | Some (r1, api1, w1) =>
      match GetVegreferanseMatches L api1 w1 e2 x y with
      | None => None
      | Some (r2, _, w2) => Some (r1, r2, length (sent w2))
      end
  end.

(** The claim of the specification: of two calls for the same coordinates,
    with the cache enabled and empty at first, one request is sent, and the
    second returns what the first returned. *)
Definition one_request_for_two_calls (L : Library) (api : VegvesenetAPIV4)
    (w : World) (e1 e2 : Env) (x y : float64) : Prop :=
  exists r, two_calls L api w e1 e2 x y = Some (r, r, 1%nat).

(** C6 fails as stated: when the first call meets a provider that does not
    respond, nothing is cached; the second call sends a second request, and
    returns the matches where the first returned an error. *)
Lemma one_request_for_two_calls_counterexample :
  is_Some (diskCache demo_api) /\
  two_calls demo_Library demo_api demo_world env_timeout env_match
    600000%float 6600000%float
  = Some (Err "request failed: context deadline exceeded", Ok demo_matches, 2%nat) /\
  ~ one_request_for_two_calls demo_Library demo_api demo_world env_timeout env_match
      600000%float 6600000%float.
Proof.
  assert (H : two_calls demo_Library demo_api demo_world env_timeout env_match
                600000%float 6600000%float
              = Some (Err "request failed: context deadline exceeded",
                      Ok demo_matches, 2%nat))
    by (vm_compute; reflexivity).
  split; [by eexists|]. split; [exact H|].
  intros [r Hr]. rewrite H in Hr. discriminate Hr.
Qed.

(** When the first call is answered, the second is served from the cache
    although the provider no longer responds, and one request has been
    sent. *)
Example two_calls_cached :
  two_calls demo_Library demo_api demo_world env_match env_timeout
    600000%float 6600000%float
  = Some (Ok demo_matches, Ok demo_matches, 1%nat).
Proof. vm_compute. reflexivity. Qed.

(** The amended C6 at that pair of calls. *)
Lemma second_call_from_cache_witness :
  exists api1 w1 w2,
    GetVegreferanseMatches demo_Library demo_api demo_world env_match
      600000%float 6600000%float = Some (Ok demo_matches, api1, w1) /\
    GetVegreferanseMatches demo_Library api1 w1 env_timeout
      600000%float 6600000%float = Some (Ok demo_matches, api1, w2) /\
    sent w2 = sent w1 /\
    length (sent w1) = 1%nat.
Proof.
  assert (exists api1 w1,
             GetVegreferanseMatches demo_Library demo_api demo_world env_match
               600000%float 6600000%float = Some (Ok demo_matches, api1, w1))
    as (api1 & w1 & Hfirst) by (eexists _, _; vm_compute; reflexivity).
  destruct (second_call_from_cache demo_Library demo_api demo_world
              env_match env_timeout 600000%float 6600000%float
              600000%float 6600000%float {| cacheDir := "cache" |}
              demo_matches api1 w1 "[E18 S65D1 m12621]")
    as (w2 & Hsecond & Hsent & _ & Hone & _); try reflexivity; [exact Hfirst|].
  exists api1, w1, w2. split; [exact Hfirst|]. split; [exact Hsecond|].
  split; [exact Hsent|]. apply Hone. reflexivity.
Defined.

(** C7 at a provider that does not respond and at one that has no match. *)
Lemma provider_error_not_cached_witness :
  (exists api' w',
      GetVegreferanseMatches demo_Library demo_api demo_world env_timeout
        600000%float 6600000%float
      = Some (Err "request failed: context deadline exceeded", api', w') /\
      files (fs w') = files (fs demo_world)) /\
  (exists api' w',
      GetVegreferanseMatches demo_Library demo_api demo_world env_none
        600000%float 6600000%float = Some (Ok [], api', w') /\
      files (fs w') !! "cache/6000/600000.000000_6600000.000000.json" = Some "[]") /\
  (exists api' w',
      GetVegreferanseMatches demo_Library demo_api demo_world env_error
        600000%float 6600000%float
      = Some (Err "API returned status code 500: Internal Server Error", api', w') /\
      files (fs w') = files (fs demo_world)).
Proof.
  split; [|split].
  - destruct (GetVegreferanseMatches demo_Library demo_api demo_world env_timeout
                600000%float 6600000%float) as [[[r api'] w']|] eqn:Hcall;
      [|vm_compute in Hcall; discriminate Hcall].
    destruct (position_request demo_Library demo_api 600000%float 6600000%float)
      as [req|] eqn:Hreq; [|vm_compute in Hreq; discriminate Hreq].
    destruct (provider_error_not_cached demo_Library demo_api demo_world env_timeout
                600000%float 6600000%float r api' w' req Hcall eq_refl Hreq)
      as (Hfails & _ & _ & _).
    destruct (Hfails _ (fails_transport demo_Library env_timeout
                          "context deadline exceeded" eq_refl)) as [-> Hfiles].
    exists api', w'. done.
  - destruct (GetVegreferanseMatches demo_Library demo_api demo_world env_none
                600000%float 6600000%float) as [[[r api'] w']|] eqn:Hcall;
      [|vm_compute in Hcall; discriminate Hcall].
    destruct (position_request demo_Library demo_api 600000%float 6600000%float)
      as [req|] eqn:Hreq; [|vm_compute in Hreq; discriminate Hreq].
    destruct (provider_error_not_cached demo_Library demo_api demo_world env_none
                600000%float 6600000%float r api' w' req Hcall eq_refl Hreq)
      as (_ & Hempty & _ & _).
    destruct (Hempty (empty_not_found demo_Library env_none "" eq_refl))
      as [-> Hwritten].
    exists api', w'. split; [reflexivity|].
    rewrite (Hwritten {| cacheDir := "cache" |} "[]" eq_refl eq_refl eq_refl eq_refl).
    reflexivity.
  - destruct (GetVegreferanseMatches demo_Library demo_api demo_world env_error
                600000%float 6600000%float) as [[[r api'] w']|] eqn:Hcall;
      [|vm_compute in Hcall; discriminate Hcall].
    destruct (position_request demo_Library demo_api 600000%float 6600000%float)
      as [req|] eqn:Hreq; [|vm_compute in Hreq; discriminate Hreq].
    destruct (provider_error_not_cached demo_Library demo_api demo_world env_error
                600000%float 6600000%float r api' w' req Hcall eq_refl Hreq)
      as (_ & _ & _ & Hstatus).
    destruct (Hstatus 500 "Internal Server Error" eq_refl) as (msg & -> & _ & Hfiles);
      [discriminate|discriminate|].
    exists api', w'. split; [|exact Hfiles].
    vm_compute in Hcall. injection Hcall as <- _ _. reflexivity.
Defined.

End ApiDemo.

(** * More of the selector *)

(** The label [SelectBestMatch] returns is that of a candidate. *)
Lemma SelectBestMatch_candidate s first rest :
  exists c, c ∈ first :: rest /\ SelectBestMatch s (first :: rest) = kortform c.
Proof.
  unfold SelectBestMatch.
  destruct ((len (first :: rest) =? 1) || (len (history s) =? 0)).
  { exists first. split; [left|reflexivity]. }
  match goal with |- context [0 <=? bestMatch ?st] => destruct (0 <=? bestMatch st) end.
  - match goal with |- context [nth ?n ?l ?d] =>
      destruct (nth_in_or_default n l d) as [Hin | Hd]; [|rewrite Hd] end.
    + eexists. split; [|reflexivity]. apply list_elem_of_In. exact Hin.
    + exists first. split; [left|reflexivity].
  - exists first. split; [left|reflexivity].
Qed.

(** Appending the empty label does nothing, so a sequence of appends is the
    sequence of its labels that are not empty. *)
Lemma add_all_filter labels : forall s,
  add_all s labels = add_all s (List.filter (fun l => negb (String.eqb l "")) labels).
Proof.
  induction labels as [|v labels IH]; intros s; [reflexivity|].
  cbn [List.filter]. destruct (String.eqb_spec v "") as [->|Hv]; cbn [negb].
  - unfold add_all at 1. cbn [fold_left].
    change (AddToHistory s "") with s. apply IH.
  - unfold add_all. cbn [fold_left]. apply IH.
Qed.

Lemma filter_nonempty_Forall labels :
  Forall (fun l => l <> "") (List.filter (fun l => negb (String.eqb l "")) labels).
Proof.
  induction labels as [|v labels IH]; [constructor|].
  cbn [List.filter]. destruct (String.eqb_spec v ""); cbn [negb]; [exact IH|].
  by constructor.
Qed.

(** X1.  From a new selector, after any sequence of appends (empty labels
    included) the history is the last [maxHistory] of the labels that are not
    empty, all of them when they are fewer, in the order of their insertion;
    it never holds more than [maxHistory] labels. *)
Theorem history_is_recent_labels maxHistory s0 labels :
  NewVegreferanseSelector maxHistory = Some s0 ->
  let kept := List.filter (fun l => negb (String.eqb l "")) labels in
  history (add_all s0 labels)
  = drop (length kept - Z.to_nat maxHistory) kept /\
  len (history (add_all s0 labels)) <= maxHistory /\
  Selector.maxHistory (add_all s0 labels) = maxHistory.
Proof.
  intros Hnew kept. unfold NewVegreferanseSelector in Hnew.
  destruct (maxHistory <? 0) eqn:E; [discriminate|]. apply Z.ltb_ge in E.
  injection Hnew as <-.
  rewrite add_all_filter. fold kept.
  destruct (add_all_suffix kept
              {| history := []; Selector.maxHistory := maxHistory |} [])
    as [Hh Hm]; [done|apply filter_nonempty_Forall|done|].
  cbn [Selector.maxHistory app] in Hh, Hm.
  split; [exact Hh|]. split; [|exact Hm].
  rewrite Hh. unfold len. rewrite length_drop. lia.
Qed.

(** X1 at a selector that keeps two labels. *)
Lemma history_is_recent_labels_witness :
  history (add_all {| history := []; maxHistory := 2 |}
             ["E18 S65D1 m1"; ""; "E18 S65D1 m2"; ""; "E18 S65D1 m3"])
  = ["E18 S65D1 m2"; "E18 S65D1 m3"] /\
  len (history (add_all {| history := []; maxHistory := 2 |}
                  ["E18 S65D1 m1"; ""; "E18 S65D1 m2"; ""; "E18 S65D1 m3"])) <= 2 /\
  maxHistory (add_all {| history := []; maxHistory := 2 |}
                ["E18 S65D1 m1"; ""; "E18 S65D1 m2"; ""; "E18 S65D1 m3"]) = 2.
Proof.
  apply (history_is_recent_labels 2 {| history := []; maxHistory := 2 |}
           ["E18 S65D1 m1"; ""; "E18 S65D1 m2"; ""; "E18 S65D1 m3"]).
  reflexivity.
Defined.

(** What the selector pass does to one result: nothing when it has no
    candidate, and otherwise it sets [vegreferanse] to the label of one of the
    candidates of that result. *)
Definition selected (r r' : Pool.processResult) : Prop :=
  Pool.lineIdx r' = Pool.lineIdx r /\ Pool.line r' = Pool.line r /\
  Pool.err r' = Pool.err r /\ Pool.matches r' = Pool.matches r /\
  match Pool.matches r with
  | [] => r' = r
  | _ :: _ => exists c, c ∈ Pool.matches r /\ Pool.vegreferanse r' = kortform c
  end.

Lemma apply_from_selected results : forall s,
  Forall2 selected results (fst (Pool.apply_from s results)).
Proof.
  induction results as [|r results IH]; intros s; cbn [Pool.apply_from]; [constructor|].
  destruct (Pool.matches r) as [|m ms] eqn:Hm.
  - change (0 <? len (@nil VegreferanseMatch)) with false. cbn iota.
    specialize (IH s). destruct (Pool.apply_from s results). cbn in *.
    constructor; [|exact IH]. unfold selected. rewrite Hm. done.
  - replace (0 <? len (m :: ms)) with true
      by (symmetry; apply Z.ltb_lt; unfold len; cbn [length]; lia).
    specialize (IH (AddToHistory s (SelectBestMatch s (m :: ms)))).
    destruct (Pool.apply_from _ results). cbn in *.
    constructor; [|exact IH]. unfold selected. cbn. rewrite Hm.
    repeat split; try done. apply SelectBestMatch_candidate.
Qed.

(** X2.  [applyVegreferanseSelector] keeps the number and the order of the
    results, their index, line, error and candidates; a result without
    candidate is left as it is, and a result with candidates is given the label
    of one of its own candidates. *)
Theorem applyVegreferanseSelector_selects results :
  Forall2 selected results (Pool.applyVegreferanseSelector results).
Proof. unfold Pool.applyVegreferanseSelector. cbn. apply apply_from_selected. Qed.

Lemma apply_from_first before r m ms after : forall s0,
  history s0 = [] ->
  Forall (fun r0 => Pool.matches r0 = []) before ->
  Pool.matches r = m :: ms ->
  exists r',
    fst (Pool.apply_from s0 (before ++ r :: after)) !! length before = Some r' /\
    Pool.vegreferanse r' = kortform m.
Proof.
  intros s0 Hs0 Hbefore Hm.
  induction Hbefore as [|r0 before Hr0 _ IH]; cbn [app length Pool.apply_from].
  - rewrite Hm.
    replace (0 <? len (m :: ms)) with true
      by (symmetry; apply Z.ltb_lt; unfold len; cbn [length]; lia).
    match goal with |- context [Pool.apply_from ?s after] =>
      destruct (Pool.apply_from s after) end.
    cbn. eexists. split; [reflexivity|].
    cbn. unfold SelectBestMatch. rewrite Hs0.
    change (len (@nil string) =? 0) with true. by rewrite orb_true_r.
  - rewrite Hr0. change (0 <? len (@nil VegreferanseMatch)) with false. cbn iota.
    destruct IH as (r' & Hr' & Hv).
    destruct (Pool.apply_from s0 (before ++ r :: after)). cbn in *. eauto.
Qed.

(** X3.  The first result that has candidates is given the label of its
    first candidate: with no selection made yet, the closest match stands. *)
Theorem applyVegreferanseSelector_first before r m ms after :
  Forall (fun r0 => Pool.matches r0 = []) before ->
  Pool.matches r = m :: ms ->
  exists r',
    Pool.applyVegreferanseSelector (before ++ r :: after) !! length before = Some r' /\
    Pool.vegreferanse r' = kortform m.
Proof.
  intros Hbefore Hm. unfold Pool.applyVegreferanseSelector. cbn [NewVegreferanseSelector].
  change (10 <? 0) with false. cbn iota.
  by apply (apply_from_first before r m ms after).
Qed.

(** X3 at two lines, the first without candidate. *)
Lemma applyVegreferanseSelector_first_witness :
  exists r',
    Pool.applyVegreferanseSelector
      ([Pool.zero_processResult] ++
       {| Pool.lineIdx := 1; Pool.line := "b"; Pool.vegreferanse := "";
          Pool.matches := [mkMatch "Kv1000 S1D1 m500" 1%float;
                           mkMatch "E18 S65D1 m12600" 3%float];
          Pool.err := None |} :: [])
      !! length [Pool.zero_processResult] = Some r' /\
    Pool.vegreferanse r' = kortform (mkMatch "Kv1000 S1D1 m500" 1%float).
Proof.
  apply (applyVegreferanseSelector_first [Pool.zero_processResult] _
           (mkMatch "Kv1000 S1D1 m500" 1%float) [mkMatch "E18 S65D1 m12600" 3%float] []).
  - repeat constructor.
  - reflexivity.
Defined.

(** The score by the tokens of the two labels. *)
Lemma calculateMatchScore_tokens previous current distance :
  calculateMatchScore previous current distance =
    match Fields previous, Fields current with
    | prevRoad :: prevRest, currRoad :: currRest =>
        wrap64 (road_bonus prevRoad currRoad + section_bonus prevRest currRest
                - int_of_float64 (PrimFloat.mul distance 10%float))
    | _, _ => 0
    end.
Proof.
  unfold calculateMatchScore.
  destruct (Fields previous) as [|prevRoad prevRest]; [reflexivity|].
  destruct (Fields current) as [|currRoad currRest].
  { change (len (@nil string) <? 1) with true. rewrite orb_true_r. reflexivity. }
  replace ((len (prevRoad :: prevRest) <? 1) || (len (currRoad :: currRest) <? 1))
    with false
    by (symmetry; unfold len; apply orb_false_iff; split; apply Z.ltb_ge;
        rewrite length_cons; lia).
  unfold index. cbn [nth].
  change (wrap64 (0 + 1000)) with 1000. change (wrap64 (0 + 100)) with 100.
  rewrite !eqb_decide. fold (road_bonus prevRoad currRoad).
  pose proof (road_bonus_range prevRoad currRoad) as Hr.
  f_equal. f_equal.
  destruct prevRest as [|prevSection prevRest].
  { change (1 <? len [prevRoad]) with false. cbn [andb section_bonus]. lia. }
  destruct currRest as [|currSection currRest].
  { change (1 <? len [currRoad]) with false. rewrite andb_false_r.
    cbn [section_bonus]. lia. }
  replace ((1 <? len (prevRoad :: prevSection :: prevRest))
           && (1 <? len (currRoad :: currSection :: currRest))) with true
    by (symmetry; unfold len; apply andb_true_iff; split; apply Z.ltb_lt;
        rewrite !length_cons; lia).
  cbn [nth section_bonus]. destruct (decide (prevSection = currSection)); [|lia].
  rewrite wrap64_small; lia.
Qed.

Lemma section_bonus_range a b : 0 <= section_bonus a b <= 50.
Proof.
  unfold section_bonus. destruct a, b; try lia. destruct (decide _); lia.
Qed.

(** [int(distance * 10)], the penalty of a candidate. *)
Definition penalty (m : VegreferanseMatch) : Z :=
  int_of_float64 (PrimFloat.mul (Avstand m) 10%float).

(** The score of a candidate on the road of the previous label, and of one
    that is not. *)
Lemma score_on_road previous prevRoad prest m :
  Fields previous = prevRoad :: prest ->
  head (Fields (kortform m)) = Some prevRoad ->
  - 2 ^ 62 <= penalty m <= 2 ^ 62 ->
  1000 - penalty m <= calculateMatchScore previous (kortform m) (Avstand m).
Proof.
  intros Hp Hm Hpen. rewrite calculateMatchScore_tokens, Hp.
  destruct (Fields (kortform m)) as [|r rest]; [discriminate|].
  injection Hm as ->. fold (penalty m).
  pose proof (section_bonus_range prest rest).
  assert (road_bonus prevRoad prevRoad = 1000)
    by (unfold road_bonus; by destruct (decide _)).
  rewrite wrap64_small; lia.
Qed.

Lemma score_off_road previous prevRoad prest m :
  Fields previous = prevRoad :: prest ->
  head (Fields (kortform m)) <> Some prevRoad ->
  - 2 ^ 62 <= penalty m <= 2 ^ 62 ->
  calculateMatchScore previous (kortform m) (Avstand m) <= Z.max 0 (150 - penalty m).
Proof.
  intros Hp Hm Hpen. rewrite calculateMatchScore_tokens, Hp.
  destruct (Fields (kortform m)) as [|r rest]; [lia|].
  fold (penalty m).
  pose proof (section_bonus_range prest rest).
  assert (road_bonus prevRoad r <= 100).
  { unfold road_bonus. destruct (decide (prevRoad = r)) as [->|_]; [by destruct Hm|].
    destruct (decide _); lia. }
  pose proof (road_bonus_range prevRoad r).
  rewrite wrap64_small; lia.
Qed.

(** With two candidates or more, a history and a candidate that scores at
    least 0, the label returned is that of a candidate of greatest score. *)
Lemma SelectBestMatch_greatest s matches :
  (2 <= length matches)%nat -> history s <> [] ->
  (exists v, v ∈ scores (List.last (history s) "") matches /\ 0 <= v) ->
  exists c, c ∈ matches /\ SelectBestMatch s matches = kortform c /\
            forall m, m ∈ matches ->
              calculateMatchScore (List.last (history s) "") (kortform m) (Avstand m)
              <= calculateMatchScore (List.last (history s) "") (kortform c) (Avstand c).
Proof.
  intros Hlen Hh (v & Hv & Hpos).
  destruct matches as [|first rest]; [simpl in Hlen; lia|].
  pose proof (SelectBestMatch_scanned s first rest Hlen Hh) as Hsel.
  cbv zeta in Hsel.
  set (st0 := {| bestMatch := -1; bestScore := -1;
                 closestMatchDistance := Avstand first; closestMatchIndex := 0 |}) in *.
  pose proof (scan_from_best (List.last (history s) "") (first :: rest) 0 st0) as Hscan.
  cbv zeta in Hscan.
  set (st := scan_from (List.last (history s) "") 0 (first :: rest) st0) in *.
  change (bestMatch st0) with (-1) in Hscan.
  change (bestScore st0) with (-1) in Hscan.
  destruct Hscan as [(_ & _ & Hle) | (k & Hm & Hk & _ & Hall & _)].
  { specialize (Hle v Hv). lia. }
  assert (exists c, (first :: rest) !! k = Some c) as [c Hc].
  { apply lookup_lt_is_Some. apply lookup_lt_Some in Hk.
    unfold scores in Hk. rewrite length_map in Hk. exact Hk. }
  exists c. split; [apply list_elem_of_lookup; eauto|]. split.
  - rewrite Hsel, Hm.
    replace (0 <=? 0 + Z.of_nat k) with true by (symmetry; apply Z.leb_le; lia).
    replace (Z.to_nat (0 + Z.of_nat k)) with k by lia.
    f_equal. by apply nth_lookup_Some with (d := first) in Hc.
  - assert (Hck : calculateMatchScore (List.last (history s) "") (kortform c) (Avstand c)
                  = bestScore st).
    { unfold scores in Hk. rewrite list_lookup_fmap, Hc in Hk. by injection Hk. }
    intros m Hin. rewrite Hck.
    apply list_elem_of_lookup in Hin as [j Hj].
    apply (Hall j). unfold scores. by rewrite list_lookup_fmap, Hj.
Qed.

(** X4.  Continuity: with two candidates or more, every one of them with a
    penalty [int(distance * 10)] between [-2^62] and [2^62] (so that no score
    wraps around: the distances are numbers, not NaN or an infinity, and
    well below 4.6e17), when some candidate lies on the road of the last
    selection with a penalty below 1000, and no candidate has a penalty
    smaller than that one by 850 or more, the label returned is that of a
    candidate on the road of the last selection. *)
Theorem SelectBestMatch_stays_on_road s matches prevRoad prest a :
  (2 <= length matches)%nat -> history s <> [] ->
  Fields (List.last (history s) "") = prevRoad :: prest ->
  (forall m, m ∈ matches -> - 2 ^ 62 <= penalty m <= 2 ^ 62) ->
  a ∈ matches ->
  head (Fields (kortform a)) = Some prevRoad ->
  penalty a < 1000 ->
  (forall m, m ∈ matches -> penalty a - penalty m < 850) ->
  exists c, c ∈ matches /\ SelectBestMatch s matches = kortform c /\
            head (Fields (kortform c)) = Some prevRoad.
Proof.
  intros Hlen Hh Hprev Hpen Ha Hroad Hnear Hgap.
  pose proof (score_on_road _ _ _ a Hprev Hroad (Hpen a Ha)) as Hsa.
  destruct (SelectBestMatch_greatest s matches Hlen Hh) as (c & Hc & Hsel & Hmax).
  { eexists. split; [|shelve].
    apply list_elem_of_In, in_map, list_elem_of_In, Ha. Unshelve. cbn. lia. }
  exists c. split; [exact Hc|]. split; [exact Hsel|].
  destruct (decide (head (Fields (kortform c)) = Some prevRoad)) as [|Hoff]; [done|].
  exfalso.
  pose proof (score_off_road _ _ _ c Hprev Hoff (Hpen c Hc)) as Hsc.
  specialize (Hmax a Ha). specialize (Hgap c Hc). lia.
Qed.

(** X4 at the candidates of the selector's test: the road of the last
    selection is kept although another road is two metres closer. *)
Lemma SelectBestMatch_stays_on_road_witness :
  exists c,
    c ∈ [mkMatch "Kv1000 S1D1 m500" 1%float; mkMatch "E18 S65D1 m12600" 3%float] /\
    SelectBestMatch {| history := ["E18 S65D1 m12500"]; maxHistory := 5 |}
      [mkMatch "Kv1000 S1D1 m500" 1%float; mkMatch "E18 S65D1 m12600" 3%float]
    = kortform c /\
    head (Fields (kortform c)) = Some "E18".
Proof.
  apply (SelectBestMatch_stays_on_road
           {| history := ["E18 S65D1 m12500"]; maxHistory := 5 |}
           [mkMatch "Kv1000 S1D1 m500" 1%float; mkMatch "E18 S65D1 m12600" 3%float]
           "E18" ["S65D1"; "m12500"] (mkMatch "E18 S65D1 m12600" 3%float)).
  - simpl. lia.
  - discriminate.
  - reflexivity.
  - intros m Hm. repeat (apply elem_of_cons in Hm as [->|Hm]); [| |inversion Hm];
      vm_compute; split; discriminate.
  - right. left.
  - reflexivity.
  - vm_compute. reflexivity.
  - intros m Hm. repeat (apply elem_of_cons in Hm as [->|Hm]); [| |inversion Hm];
      vm_compute; reflexivity.
Defined.

(** * More of the rate limiter *)

Section RateLimitMore.
Import RateLimit.

(** A run, with the limiter and the clock it ends on. *)
Fixpoint run_limiter (r : RateLimiter) (clock : Time) (admitted : list Time)
    (ds : list Delay) : RateLimiter * Time * list Time :=
  match ds with
  | [] => (r, clock, admitted)
  | d :: rest =>
      match Wait r clock d with
      | None => (r, clock, admitted)
      | Some (r', clock', now) => run_limiter r' clock' (admitted ++ [now]) rest
      end
  end.

Lemma run_limiter_admitted ds : forall r clock admitted,
  snd (run_limiter r clock admitted ds) = run r clock admitted ds.
Proof.
  induction ds as [|d ds IH]; intros r clock admitted; [reflexivity|].
  cbn [run_limiter run]. destruct (Wait r clock d) as [[[r' clock'] now]|]; [|reflexivity].
  apply IH.
Qed.

(** Between two calls every timestamp of the log is young. *)
Definition log_young (T : Duration) (r : RateLimiter) (clock : Time) : Prop :=
  forall a, a ∈ calls r -> young clock T a.

Lemma log_young_Wait T lim r clock admitted d r' clock' now :
  in_int64 T = true -> 0 < T ->
  rate_inv T lim r clock admitted ->
  Wait r clock d = Some (r', clock', now) ->
  log_young T r' clock'.
Proof.
  intros HT Hpos Hinv HW.
  destruct Hinv as [HTr Hlim _ Hcalls Hlen _ _]. subst T lim.
  destruct (Wait_returns r clock d r' clock' now HT Hcalls Hlen HW)
    as (_ & -> & _ & _ & Hc' & _).
  intros a Ha. rewrite Hc' in Ha. apply elem_of_app in Ha as [Ha|Ha].
  - by apply list_elem_of_filter in Ha as [Hy _].
  - apply list_elem_of_singleton in Ha as ->. unfold young. lia.
Qed.

Lemma run_limiter_inv T lim ds : forall r clock admitted,
  in_int64 T = true -> 0 < T ->
  rate_inv T lim r clock admitted -> log_young T r clock ->
  let '(r', clock', admitted') := run_limiter r clock admitted ds in
  rate_inv T lim r' clock' admitted' /\ log_young T r' clock'.
Proof.
  induction ds as [|d ds IH]; intros r clock admitted HT Hpos Hinv Hy; [done|].
  cbn [run_limiter]. destruct (Wait r clock d) as [[[r' clock'] now]|] eqn:HW; [|done].
  apply IH; try done.
  - eapply rate_inv_Wait; eauto.
  - eapply log_young_Wait; eauto.
Qed.

Lemma filter_all_true {A} (P : A -> Prop) `{!forall x, Decision (P x)} (l : list A) :
  (forall x, x ∈ l -> P x) -> filter P l = l.
Proof.
  induction l as [|a l IH]; intros Hall; [reflexivity|].
  rewrite filter_cons_True by (apply Hall; left).
  rewrite IH; [done|]. intros x Hx. apply Hall. by right.
Qed.

(** X5.  After any run of a new limiter with a positive time frame, the log
    [r.calls] holds exactly the admitted timestamps younger than the time
    frame at the last reading of the clock, in the order of their admission,
    and never more than [limit] of them. *)
Theorem calls_are_recent_admitted limit timeFrame r0 clock ds :
  in_int64 timeFrame = true -> 0 < timeFrame ->
  NewRateLimiter limit timeFrame = Some r0 ->
  let '(r, clock', admitted) := run_limiter r0 clock [] ds in
  calls r = filter (young clock' timeFrame) admitted /\
  len (calls r) <= limit /\
  RateLimit.limit r = limit /\ RateLimit.timeFrame r = timeFrame.
Proof.
  intros HT Hpos Hnew. unfold NewRateLimiter in Hnew.
  destruct (limit <? 0) eqn:E; [discriminate|]. apply Z.ltb_ge in E.
  destruct (max_calls_cap <? limit); [discriminate|]. cbn [orb] in Hnew.
  injection Hnew as <-.
  pose proof (run_limiter_inv timeFrame limit ds
                {| calls := []; RateLimit.limit := limit;
                   RateLimit.timeFrame := timeFrame |} clock [] HT Hpos) as H.
  destruct (run_limiter _ clock [] ds) as [[r clock'] admitted].
  destruct H as [Hinv Hy].
  { split; try done; intros a Ha; inversion Ha. }
  { intros a Ha. inversion Ha. }
  split; [|split; [apply Hinv|split; apply Hinv]].
  rewrite (inv_young _ _ _ _ _ Hinv clock') by lia.
  symmetry. by apply filter_all_true.
Qed.

(** X5 at two calls per 10 ns and four callers arriving at once. *)
Lemma calls_are_recent_admitted_witness :
  let '(r, clock', admitted) :=
    run_limiter {| calls := []; limit := 2; timeFrame := 10 |} 100 []
      (replicate 4 {| pause := 0; oversleep := 0 |}) in
  calls r = filter (young clock' 10) admitted /\
  len (calls r) <= 2 /\ limit r = 2 /\ timeFrame r = 10.
Proof.
  apply (calls_are_recent_admitted 2 10 {| calls := []; limit := 2; timeFrame := 10 |}
           100 (replicate 4 {| pause := 0; oversleep := 0 |})); reflexivity.
Defined.

(** X6.  [Wait] delays a call only as long as it must: when fewer than
    [limit] timestamps of the log are young it admits the call at the time it
    read the clock; otherwise it admits it when the oldest young timestamp is
    one time frame old, plus what [Sleep] overshoots.  It panics only when
    the limit is not positive and no timestamp of the log is young. *)
Theorem Wait_delays_as_needed r clock d :
  in_int64 (timeFrame r) = true ->
  (forall a, a ∈ calls r -> a <= clock) ->
  let now := clock + Z.of_N (pause d) in
  let recent := filter (young now (timeFrame r)) (calls r) in
  match Wait r clock d with
  | None => recent = [] /\ limit r <= 0
  | Some (_, _, admitted_at) =>
      if len recent <? limit r then admitted_at = now
      else exists oldest, head recent = Some oldest /\
                          admitted_at = oldest + timeFrame r + Z.of_N (oversleep d)
  end.
Proof.
  intros HT Hle now recent. unfold Wait. fold now.
  assert (Hle0 : forall a, a ∈ calls r -> a <= now)
    by (intros a Ha; specialize (Hle a Ha); unfold now; lia).
  rewrite (validCalls_young now _ _ HT Hle0). fold recent.
  destruct (limit r <=? len recent) eqn:E.
  - apply Z.leb_le in E.
    replace (len recent <? limit r) with false by (symmetry; apply Z.ltb_ge; lia).
    destruct recent as [|oldest rest] eqn:Er.
    { split; [done|]. unfold len in E. simpl in E. lia. }
    assert (Hin : oldest ∈ filter (young now (timeFrame r)) (calls r))
      by (fold recent; rewrite Er; left).
    apply list_elem_of_filter in Hin as [Hy Hin]. specialize (Hle0 _ Hin).
    unfold young in Hy.
    unfold in_int64, min_int64, max_int64 in HT.
    apply andb_true_iff in HT as [H1 H2]. apply Z.leb_le in H1, H2.
    assert (Hsub : Sub now oldest = now - oldest).
    { unfold Sub, min_int64, max_int64.
      destruct (_ <? - 2 ^ 63) eqn:E1; [apply Z.ltb_lt in E1; lia|].
      destruct (2 ^ 63 - 1 <? _) eqn:E2; [apply Z.ltb_lt in E2; lia|].
      reflexivity. }
    rewrite Hsub, wrap64_small by lia.
    replace (0 <? timeFrame r - (now - oldest)) with true
      by (symmetry; apply Z.ltb_lt; lia).
    exists oldest. split; [reflexivity|]. lia.
  - apply Z.leb_gt in E.
    replace (len recent <? limit r) with true by (symmetry; by apply Z.ltb_lt).
    reflexivity.
Qed.

(** X6 at a full log: the third call of two per 10 ns waits until 110. *)
Lemma Wait_delays_as_needed_witness :
  match Wait {| calls := [100; 103]; limit := 2; timeFrame := 10 |} 105
             {| pause := 1; oversleep := 0 |} with
  | None => False
  | Some (_, _, admitted_at) => admitted_at = 110
  end.
Proof.
  pose proof (Wait_delays_as_needed
                {| calls := [100; 103]; limit := 2; timeFrame := 10 |} 105
                {| pause := 1; oversleep := 0 |} eq_refl) as H.
  cbv zeta in H.
  destruct (Wait _ _ _) as [[[r' c'] at_]|] eqn:E.
  - assert (Hpast : forall a : Z, a ∈ [100; 103] -> a <= 105).
    { intros a Ha. repeat (apply elem_of_cons in Ha as [->|Ha]); [lia|lia|inversion Ha]. }
    specialize (H Hpast). cbn in H. destruct H as (oldest & [= <-] & ->). reflexivity.
  - vm_compute in E. discriminate E.
Defined.

End RateLimitMore.

(** * More of the disk cache *)

Section DiskCacheMore.
Import DiskCache.
Context (L : Library).

(** The path of the entry of a key. *)
Definition entry_path (c : VegreferanseDiskCache) (x y : float64) : string :=
  fst (getCacheFilePath L c x y {| files := ∅; dirs := ∅ |} no_faults).

Lemma entry_path_eq c x y fs f :
  fst (getCacheFilePath L c x y fs f) = entry_path c x y.
Proof. unfold entry_path. by apply getCacheFilePath_path. Qed.

(** What a lookup finds depends on the file of the key alone. *)
Lemma Get_by_entry c x y fs fs' f :
  files fs !! entry_path c x y = files fs' !! entry_path c x y ->
  fst (Get L c x y fs f) = fst (Get L c x y fs' f).
Proof.
  intros Hsame. unfold Get.
  pose proof (getCacheFilePath_files L c x y fs f) as H.
  pose proof (getCacheFilePath_files L c x y fs' f) as H'.
  pose proof (entry_path_eq c x y fs f) as Hp.
  pose proof (entry_path_eq c x y fs' f) as Hp'.
  destruct (getCacheFilePath L c x y fs f) as [p fs1].
  destruct (getCacheFilePath L c x y fs' f) as [p' fs1'].
  cbn [fst snd] in H, H', Hp, Hp'. subst p p'.
  rewrite <- H, <- H' in Hsame.
  unfold exists_path. rewrite <- Hsame.
  destruct (files fs1 !! entry_path c x y) as [data|] eqn:E.
  - assert (Hs : bool_decide (is_Some (Some data)) = true)
      by (apply bool_decide_eq_true; eauto).
    rewrite Hs, !orb_true_r. cbn.
    destruct (read_fails f); [done|]. by destruct (json_Unmarshal_matches L data).
  - destruct (negb _), (negb _); try done; destruct (read_fails f); done.
Qed.

(** X7.  An entry written is the entry read: when [Set] meets no failure
    and the encoded matches decode to themselves, [Set] returns no error and a
    later [Get] for coordinates that format to the same key, if it can read
    the file, finds the matches. *)
Theorem Set_then_Get c x y x' y' ms data fs f f' :
  json_Marshal L ms = Ok data -> json_Unmarshal_matches L data = Ok ms ->
  mkdir_fails f = false -> write_fails f = false -> read_fails f' = false ->
  Sprintf_6f L x' = Sprintf_6f L x -> Sprintf_6f L y' = Sprintf_6f L y ->
  fst (Set_ L c x y ms fs f) = None /\
  fst (Get L c x' y' (snd (Set_ L c x y ms fs f)) f') = Some ms.
Proof.
  intros Hjson Hback Hmk Hwr Hrd Hx Hy.
  pose proof (Set_written L c x y ms fs f data Hjson Hmk Hwr) as Hfiles.
  split.
  - unfold Set_. destruct (getCacheFilePath L c x y fs f) as [p fs1].
    rewrite Hjson. unfold MkdirAll. by rewrite Hmk, Hwr.
  - apply (Get_hit L c x' y' _ f' data ms); [|exact Hrd|exact Hback].
    rewrite Hfiles.
    rewrite (getCacheFilePath_path L c x y x' y' fs f _ f' Hx Hy).
    apply lookup_insert_eq.
Qed.

(** X8.  [Set] writes one file at most: the file of any other path is as it
    was, so a lookup of a key with another path finds what it found before.
    When [Set] returns an error no file has changed, unless it is the write
    itself that failed: a write that fails after the file was opened leaves
    the entry with the first bytes of the encoded matches, and no more. *)
Theorem Set_touches_one_entry c x y ms fs f :
  (forall p, p <> entry_path c x y ->
             files (snd (Set_ L c x y ms fs f)) !! p = files fs !! p) /\
  (forall x2 y2 f2, entry_path c x2 y2 <> entry_path c x y ->
     fst (Get L c x2 y2 (snd (Set_ L c x y ms fs f)) f2) = fst (Get L c x2 y2 fs f2)) /\
  (forall err, fst (Set_ L c x y ms fs f) = Some err ->
     files (snd (Set_ L c x y ms fs f)) = files fs \/
     exists data n,
       json_Marshal L ms = Ok data /\
       write_fails f = true /\ write_leaves f = Some n /\
       files (snd (Set_ L c x y ms fs f))
       = <[ entry_path c x y := substring 0 n data ]> (files fs)).
Proof.
  assert (Hother : forall p, p <> entry_path c x y ->
             files (snd (Set_ L c x y ms fs f)) !! p = files fs !! p).
  { intros p Hp. unfold Set_.
    pose proof (getCacheFilePath_files L c x y fs f) as H.
    pose proof (entry_path_eq c x y fs f) as Hq.
    destruct (getCacheFilePath L c x y fs f) as [q fs1]. cbn [fst snd] in H, Hq. subst q.
    destruct (json_Marshal L ms); [|by rewrite <- H].
    unfold MkdirAll. destruct (mkdir_fails f); [by rewrite <- H|].
    destruct (write_fails f); cbn.
    - destruct (write_leaves f); cbn; [|by rewrite <- H].
      rewrite lookup_insert_ne by done. by rewrite H.
    - rewrite lookup_insert_ne by done. by rewrite H. }
  split; [exact Hother|]. split.
  - intros x2 y2 f2 Hne. apply Get_by_entry. by apply Hother.
  - intros err. unfold Set_.
    pose proof (getCacheFilePath_files L c x y fs f) as H.
    pose proof (entry_path_eq c x y fs f) as Hq.
    destruct (getCacheFilePath L c x y fs f) as [q fs1]. cbn [fst snd] in H, Hq. subst q.
    destruct (json_Marshal L ms) as [data|]; [|by left].
    unfold MkdirAll. destruct (mkdir_fails f); [by left|].
    destruct (write_fails f); cbn; [|discriminate].
    intros _. destruct (write_leaves f) as [n|]; cbn; [|by left].
    right. exists data, n. by rewrite H.
Qed.

(** X9.  [Get] writes no file; what it finds it has decoded from the file of
    the key; and it finds nothing when that file is missing, cannot be read
    or cannot be decoded: a broken entry is a miss, not an error. *)
Theorem Get_reads_the_entry c x y fs f :
  files (snd (Get L c x y fs f)) = files fs /\
  match fst (Get L c x y fs f) with
  | Some ms =>
      exists data, files fs !! entry_path c x y = Some data /\
                   json_Unmarshal_matches L data = Ok ms /\ read_fails f = false
  | None =>
      match files fs !! entry_path c x y with
      | None => True
      | Some data =>
          read_fails f = true \/ exists e, json_Unmarshal_matches L data = Err e
      end
  end.
Proof.
  split; [apply Get_files|].
  unfold Get.
  pose proof (getCacheFilePath_files L c x y fs f) as H.
  pose proof (entry_path_eq c x y fs f) as Hp.
  destruct (getCacheFilePath L c x y fs f) as [p fs1]. cbn [fst snd] in H, Hp. subst p.
  rewrite <- H. unfold exists_path.
  destruct (files fs1 !! entry_path c x y) as [data|] eqn:E.
  - assert (Hs : bool_decide (is_Some (Some data)) = true)
      by (apply bool_decide_eq_true; eauto).
    rewrite Hs, orb_true_r. cbn [negb].
    destruct (read_fails f) eqn:Hr; cbn; [by left|].
    destruct (json_Unmarshal_matches L data) as [ms|e] eqn:Hd; cbn; eauto.
  - destruct (negb _); cbn; [done|]. by destruct (read_fails f).
Qed.

End DiskCacheMore.

(** X7 on the small library: the matches written under one coordinate pair
    are found again. *)
Lemma Set_then_Get_witness :
  fst (DiskCache.Set_ demo_Library {| DiskCache.cacheDir := "cache" |}
         600000%float 6600000%float demo_matches
         {| DiskCache.files := ∅; DiskCache.dirs := ∅ |} DiskCache.no_faults) = None /\
  fst (DiskCache.Get demo_Library {| DiskCache.cacheDir := "cache" |}
         600000%float 6600000%float
         (snd (DiskCache.Set_ demo_Library {| DiskCache.cacheDir := "cache" |}
                 600000%float 6600000%float demo_matches
                 {| DiskCache.files := ∅; DiskCache.dirs := ∅ |} DiskCache.no_faults))
         DiskCache.no_faults) = Some demo_matches.
Proof.
  apply (Set_then_Get demo_Library {| DiskCache.cacheDir := "cache" |}
           600000%float 6600000%float 600000%float 6600000%float demo_matches
           "[E18 S65D1 m12621]"); reflexivity.
Defined.

(** A write that fails after the file was opened: [Set] returns the error
    and the entry, which held an earlier answer, holds the first four bytes
    of the new one; the lookup of the key then finds nothing. *)
Example Set_failed_write_truncates :
  let c := {| DiskCache.cacheDir := "cache" |} in
  let fs0 := {| DiskCache.files :=
                  {[ "cache/6000/600000.000000_6600000.000000.json" := "[]" ]};
                DiskCache.dirs := ∅ |} in
  let f := {| DiskCache.mkdir_fails := false; DiskCache.read_fails := false;
              DiskCache.write_fails := true; DiskCache.write_leaves := Some 4%nat |} in
  let r := DiskCache.Set_ demo_Library c 600000%float 6600000%float demo_matches fs0 f in
  fst r = Some "failed to write cache file: write failed" /\
  DiskCache.files (snd r) !! "cache/6000/600000.000000_6600000.000000.json"
    = Some "[E18" /\
  fst (DiskCache.Get demo_Library c 600000%float 6600000%float fs0 DiskCache.no_faults)
    = Some [] /\
  fst (DiskCache.Get demo_Library c 600000%float 6600000%float (snd r)
         DiskCache.no_faults) = None.
Proof.
  cbv zeta. split; [reflexivity|]. split; [by vm_compute|].
  split; by vm_compute.
Qed.

(** * More of the client *)

Section ApiMore.
Import RateLimit DiskCache Api.
Context (L : Library).

(** X10.  [handleErrorResponse] returns nil for status 404 and for no other
    status: every other status gives an error, whatever the body. *)
Theorem handleErrorResponse_nil_iff statusCode respBody :
  handleErrorResponse L statusCode respBody = None <-> statusCode = StatusNotFound.
Proof.
  split.
  - intros Hnil. destruct (statusCode =? StatusNotFound) eqn:E.
    + by apply Z.eqb_eq in E.
    + destruct (handleErrorResponse_not_nil L statusCode respBody E) as [err Herr].
      congruence.
  - intros ->. reflexivity.
Qed.

Lemma Wait_limit r clock d r' clock' now :
  Wait r clock d = Some (r', clock', now) ->
  limit r' = limit r /\ timeFrame r' = timeFrame r.
Proof.
  unfold Wait. destruct (_ <=? _).
  - destruct (validCalls _ _ _); [discriminate|].
    destruct (0 <? _); intros [= <- _ _]; done.
  - intros [= <- _ _]. done.
Qed.

Lemma executeRequest_limit api w e req r api' w' :
  executeRequest api w e req = Some (r, api', w') ->
  limit (rateLimiter api') = limit (rateLimiter api) /\ baseURL api' = baseURL api.
Proof.
  unfold executeRequest.
  destruct (Wait _ _ _) as [[[r1 c1] n1]|] eqn:HW; [|discriminate].
  apply Wait_limit in HW as [Hl _].
  destruct (http e); intros [= <- <- <-]; done.
Qed.

Lemma executeRequest_no_panic api w e req :
  1 <= limit (rateLimiter api) -> exists out, executeRequest api w e req = Some out.
Proof.
  intros Hlim. unfold executeRequest.
  destruct (Wait_no_panic (rateLimiter api) (clock w) (delay e) Hlim) as [[[r c] n] ->].
  destruct (http e); eauto.
Qed.

Lemma cache_matches_sent api w e x y ms :
  sent (cache_matches L api w e x y ms) = sent w.
Proof. unfold cache_matches. by destruct (diskCache api). Qed.

(** With a limit of at least 1 the call returns, and it leaves the limit as
    it is. *)
Lemma GetVegreferanseMatches_some api w e x y :
  1 <= limit (rateLimiter api) ->
  exists out, GetVegreferanseMatches L api w e x y = Some out.
Proof.
  intros Hlim.
  unfold GetVegreferanseMatches. fold (cache_check L api w e x y).
  destruct (cache_check L api w e x y) as [[ms|] w0]; [eauto|].
  destruct (createRequest L api _ _) as [req|err]; [|eauto].
  match goal with |- context [executeRequest api w0 e ?q] =>
    destruct (executeRequest_no_panic api w0 e q Hlim) as [[[r1 a1] w1] ->] end.
  destruct r1 as [[body status]|err]; [|eauto].
  destruct (negb _).
  - destruct (_ =? StatusNotFound); [eauto|]. destruct (handleErrorResponse _ _ _); eauto.
  - destruct (json_Unmarshal_response L body); [|eauto]. destruct (_ =? 0); eauto.
Qed.

Lemma GetVegreferanseMatches_limit api w e x y r api' w' :
  GetVegreferanseMatches L api w e x y = Some (r, api', w') ->
  limit (rateLimiter api') = limit (rateLimiter api).
Proof.
  unfold GetVegreferanseMatches. fold (cache_check L api w e x y).
  destruct (cache_check L api w e x y) as [[ms|] w0]; [by intros [= _ <- _]|].
  destruct (createRequest L api _ _) as [req|err]; [|by intros [= _ <- _]].
  match goal with |- context [executeRequest api w0 e ?q] =>
    destruct (executeRequest api w0 e q) as [[[r1 a1] w1]|] eqn:Hex end;
    [|discriminate].
  apply executeRequest_limit in Hex as [Hl _].
  destruct r1 as [[body status]|err]; [|by intros [= _ <- _]].
  destruct (negb _).
  - destruct (_ =? StatusNotFound); [by intros [= _ <- _]|].
    destruct (handleErrorResponse _ _ _); by intros [= _ <- _].
  - destruct (json_Unmarshal_response L body); [|by intros [= _ <- _]].
    destruct (_ =? 0); by intros [= _ <- _].
Qed.

(** X11.  With a rate limit of at least 1, [GetVegreferanseMatches] returns
    (the limiter does not panic) and leaves a client with the same limit and
    the same cache, so that the next call returns too; it sends one request at
    most; and when the cache has the entry it returns it without sending a
    request and without touching the limiter. *)
Theorem GetVegreferanseMatches_returns api w e x y :
  1 <= limit (rateLimiter api) ->
  exists r api' w',
    GetVegreferanseMatches L api w e x y = Some (r, api', w') /\
    limit (rateLimiter api') = limit (rateLimiter api) /\
    diskCache api' = diskCache api /\
    (sent w' = sent w \/ exists req, sent w' = sent w ++ [req]) /\
    (forall ms, fst (cache_check L api w e x y) = Some ms ->
                r = Ok ms /\ api' = api /\ sent w' = sent w).
Proof.
  intros Hlim.
  pose proof (cache_check_files L api w e x y) as (_ & Hsent0 & _).
  destruct (GetVegreferanseMatches_some api w e x y Hlim) as [[[r api'] w'] Hcall].
  exists r, api', w'. split; [exact Hcall|].
  pose proof (GetVegreferanseMatches_cases L api w e x y r api' w' Hcall) as Hcases.
  pose proof (GetVegreferanseMatches_limit api w e x y r api' w' Hcall) as Hlimit.
  split; [exact Hlimit|].
  destruct (cache_check L api w e x y) as [[ms|] w0]; cbn [fst snd] in *.
  - destruct Hcases as (-> & -> & ->).
    split; [done|]. split; [by left|]. intros ms' [= <-]. done.
  - destruct (position_request L api x y) as [req|err].
    + destruct Hcases as (_ & Hdc & w1 & _ & Hsent1 & Hw').
      split; [exact Hdc|]. split; [|discriminate].
      right. exists req. destruct r; subst w'.
      * by rewrite cache_matches_sent, Hsent1, Hsent0.
      * by rewrite Hsent1, Hsent0.
    + destruct Hcases as (_ & -> & ->). split; [done|]. split; [by left|discriminate].
Qed.

(** A sequence of lookups by one client, each in its own circumstances:
    what they return, the client and the world at the end; [None] when one of
    them panics. *)
Fixpoint lookups (api : VegvesenetAPIV4) (w : World)
    (calls : list (Env * float64 * float64))
  : option (list (result (list VegreferanseMatch)) * VegvesenetAPIV4 * World) :=
  match calls with
  | [] => Some ([], api, w)
  | (e, x, y) :: rest =>
      match GetVegreferanseMatches L api w e x y with
      | None => None
      | Some (r, api, w) =>
          match lookups api w rest with
          | None => None
          | Some (rs, api, w) => Some (r :: rs, api, w)
          end
      end
  end.

Lemma lookups_some calls : forall api w,
  1 <= limit (rateLimiter api) ->
  exists rs api' w', lookups api w calls = Some (rs, api', w') /\
                     length rs = length calls.
Proof.
  induction calls as [|[[e x] y] rest IH]; intros api w Hlim.
  - by exists [], api, w.
  - cbn [lookups].
    destruct (GetVegreferanseMatches_some api w e x y Hlim) as [[[r api1] w1] Hcall].
    rewrite Hcall.
    destruct (IH api1 w1) as (rs & api' & w' & Hrest & Hlen).
    { by rewrite (GetVegreferanseMatches_limit api w e x y r api1 w1 Hcall). }
    rewrite Hrest. exists (r :: rs), api', w'. split; [done|]. cbn. by rewrite Hlen.
Qed.

(** X26.  A client made with a limit from 1 to 1000, the limits the
    validation of the configuration admits ([RateLimit], min=1, max=1000),
    never panics.  [NewVegvesenetAPIV4] returns a client whatever the disk
    does: it changes no file, and the client is without disk cache exactly
    when no path was given or the cache directory could not be made; and
    every sequence of lookups by this client returns, with one answer for each
    lookup. *)
Theorem new_client_never_panics callsLimit timeFrame diskCachePath fs0 f :
  1 <= callsLimit <= 1000 ->
  exists api fs1,
    Setup.NewVegvesenetAPIV4 callsLimit timeFrame diskCachePath fs0 f
      = Some (api, fs1) /\
    files fs1 = files fs0 /\
    (diskCache api = None <-> diskCachePath = "" \/ mkdir_fails f = true) /\
    forall w calls,
      exists rs api' w', lookups api w calls = Some (rs, api', w') /\
                         length rs = length calls.
Proof.
  intros Hlim. unfold Setup.NewVegvesenetAPIV4, Setup.NewVegreferanseDiskCache.
  unfold NewRateLimiter.
  replace (callsLimit <? 0) with false by (symmetry; apply Z.ltb_ge; lia).
  replace (max_calls_cap <? callsLimit) with false
    by (symmetry; apply Z.ltb_ge; unfold max_calls_cap;
        change (2 ^ 48 / 24) with 11728124029610; lia).
  cbn [orb].
  destruct (String.eqb_spec diskCachePath "") as [Hpath|Hpath]; cbn [negb].
  - eexists _, _. split; [reflexivity|]. split; [done|]. split.
    + cbn. split; [by left|done].
    + intros w calls. apply lookups_some. cbn. lia.
  - unfold MkdirAll. destruct (mkdir_fails f) eqn:Hmk.
    + eexists _, _. split; [reflexivity|]. split; [done|]. split.
      * cbn. split; [by right|done].
      * intros w calls. apply lookups_some. cbn. lia.
    + eexists _, _. split; [reflexivity|]. split; [done|]. split.
      * cbn. split; [done|]. by intros [?|?].
      * intros w calls. apply lookups_some. cbn. lia.
Qed.

End ApiMore.

(** X11 on the small library, at a provider that does not respond. *)
Lemma GetVegreferanseMatches_returns_witness :
  exists r api' w',
    Api.GetVegreferanseMatches demo_Library demo_api demo_world env_timeout
      600000%float 6600000%float = Some (r, api', w') /\
    RateLimit.limit (Api.rateLimiter api') = RateLimit.limit (Api.rateLimiter demo_api) /\
    Api.diskCache api' = Api.diskCache demo_api /\
    (Api.sent w' = Api.sent demo_world \/
     exists req, Api.sent w' = Api.sent demo_world ++ [req]) /\
    (forall ms,
        fst (cache_check demo_Library demo_api demo_world env_timeout
               600000%float 6600000%float) = Some ms ->
        r = Ok ms /\ api' = demo_api /\ Api.sent w' = Api.sent demo_world).
Proof.
  apply (GetVegreferanseMatches_returns demo_Library demo_api demo_world env_timeout
           600000%float 6600000%float).
  cbn. lia.
Defined.

(** X26 at the client of [demo_api]: a limit of 10, a cache directory and a
    disk that works. *)
Lemma new_client_never_panics_witness :
  exists api fs1,
    Setup.NewVegvesenetAPIV4 10 1000000000 "cache"
      {| DiskCache.files := ∅; DiskCache.dirs := ∅ |} DiskCache.no_faults
      = Some (api, fs1) /\
    DiskCache.files fs1 = DiskCache.files {| DiskCache.files := ∅; DiskCache.dirs := ∅ |} /\
    (Api.diskCache api = None
     <-> "cache" = "" \/ DiskCache.mkdir_fails DiskCache.no_faults = true) /\
    forall w calls,
      exists rs api' w', lookups demo_Library api w calls = Some (rs, api', w') /\
                         length rs = length calls.
Proof.
  apply (new_client_never_panics demo_Library 10 1000000000 "cache"
           {| DiskCache.files := ∅; DiskCache.dirs := ∅ |} DiskCache.no_faults).
  lia.
Defined.

(** * More of the client: the reverse lookup *)

Section StringsFacts.
Import Strings.

Lemma append_cons c (u t : string) : String c u +:+ t = String c (u +:+ t).
Proof. reflexivity. Qed.

Lemma append_nil (t : string) : "" +:+ t = t.
Proof. reflexivity. Qed.

Lemma prefix_nil (t : string) : String.prefix "" t = true.
Proof. by destruct t. Qed.

Lemma prefix_app (u t : string) : String.prefix u (u +:+ t) = true.
Proof.
  induction u as [|c u IH].
  - apply prefix_nil.
  - rewrite append_cons. cbn [String.prefix].
    destruct (ascii_dec c c); [exact IH|done].
Qed.

Lemma replace_scan_skip old new (u t : string) :
  replace_scan old new (String.length u) (u +:+ t) = replace_scan old new 0 t.
Proof.
  induction u as [|c u IH]; [by rewrite append_nil|].
  rewrite append_cons. cbn [String.length replace_scan]. exact IH.
Qed.

(** An occurrence at the head is replaced and the scan goes on behind it. *)
Lemma ReplaceAll_head c old new t :
  ReplaceAll (String c old +:+ t) (String c old) new
  = new +:+ ReplaceAll t (String c old) new.
Proof.
  unfold ReplaceAll. rewrite append_cons. cbn [replace_scan].
  rewrite <- append_cons, prefix_app. f_equal.
  cbn [String.length]. rewrite Nat.sub_succ, Nat.sub_0_r.
  apply replace_scan_skip.
Qed.

Lemma Contains_cons c r p :
  Contains (String c r) (String p "") = Ascii.eqb p c || Contains r (String p "").
Proof.
  cbn [Contains String.prefix].
  destruct (ascii_dec p c) as [->|Hne].
  - by rewrite Ascii.eqb_refl, prefix_nil.
  - apply Ascii.eqb_neq in Hne. by rewrite Hne.
Qed.

Lemma Contains_app a b p :
  Contains (a +:+ b) (String p "") = Contains a (String p "") || Contains b (String p "").
Proof.
  induction a as [|c a IH].
  - rewrite append_nil. reflexivity.
  - rewrite append_cons, !Contains_cons, IH. by rewrite orb_assoc.
Qed.

Lemma prefix_first c old d r :
  c <> d -> String.prefix (String c old) (String d r) = false.
Proof. intros Hne. cbn [String.prefix]. by destruct (ascii_dec c d). Qed.

(** A text without the first byte of [old] has no occurrence of it. *)
Lemma ReplaceAll_none c old new t :
  Contains t (String c "") = false -> ReplaceAll t (String c old) new = t.
Proof.
  unfold ReplaceAll. induction t as [|d r IH]; intros Hno; [reflexivity|].
  rewrite Contains_cons in Hno. apply orb_false_iff in Hno as [Hd Hr].
  apply Ascii.eqb_neq in Hd.
  cbn [replace_scan]. rewrite (prefix_first c old d r Hd).
  by rewrite (IH Hr).
Qed.

(** So has a text that has this byte at its head only and does not start
    with [old]. *)
Lemma ReplaceAll_head_none c old new h t :
  String.prefix (String c old) (String c h +:+ t) = false ->
  Contains h (String c "") = false -> Contains t (String c "") = false ->
  ReplaceAll (String c h +:+ t) (String c old) new = String c h +:+ t.
Proof.
  intros Hp Hh Ht. unfold ReplaceAll.
  rewrite append_cons in *.
  cbn [replace_scan]. rewrite Hp. f_equal.
  apply ReplaceAll_none. by rewrite Contains_app, Hh, Ht.
Qed.

Lemma length_append (a b : string) :
  String.length (a +:+ b) = (String.length a + String.length b)%nat.
Proof.
  induction a as [|c a IH]; [done|].
  rewrite append_cons. cbn [String.length]. by rewrite IH.
Qed.

Lemma drop_bytes_app (a b : string) : drop_bytes (String.length a) (a +:+ b) = b.
Proof.
  induction a as [|c a IH]; [by destruct b|].
  rewrite append_cons. exact IH.
Qed.

Lemma substring_app (a b : string) : substring 0 (String.length a) (a +:+ b) = a.
Proof.
  induction a as [|c a IH]; [by destruct b|].
  rewrite append_cons. cbn [String.length substring]. by rewrite IH.
Qed.

Lemma TrimSuffix_app a suffix : TrimSuffix (a +:+ suffix) suffix = a.
Proof.
  unfold TrimSuffix, HasSuffix. rewrite length_append.
  replace (String.length a + String.length suffix - String.length suffix)%nat
    with (String.length a) by lia.
  rewrite drop_bytes_app, String.eqb_refl, substring_app.
  replace (String.length suffix <=? String.length a + String.length suffix)%nat
    with true by (symmetry; apply Nat.leb_le; lia).
  reflexivity.
Qed.

Lemma TrimPrefix_app p t : TrimPrefix (p +:+ t) p = t.
Proof. unfold TrimPrefix, HasPrefix. by rewrite prefix_app, drop_bytes_app. Qed.

(** A prefix without the first byte of [old] is there after the
    replacement exactly when it was there before. *)
Lemma HasPrefix_replace_scan c old new q : forall s,
  Contains q (String c "") = false ->
  HasPrefix (replace_scan (String c old) (String c new) 0 s) q = HasPrefix s q.
Proof.
  unfold HasPrefix.
  induction q as [|a q IH]; intros s Hq.
  - by destruct s, (replace_scan _ _ _ _).
  - rewrite Contains_cons in Hq. apply orb_false_iff in Hq as [Ha Hq].
    apply Ascii.eqb_neq in Ha.
    destruct s as [|d r]; [reflexivity|].
    cbn [replace_scan].
    destruct (String.prefix (String c old) (String d r)) eqn:Hp.
    + assert (d = c) as ->.
      { cbn in Hp. by destruct (ascii_dec c d). }
      change (String c new +:+ ?t) with (String c (new +:+ t)).
      cbn [String.prefix]. destruct (ascii_dec a c); [by subst|reflexivity].
    + cbn [String.prefix]. destruct (ascii_dec a d); [|reflexivity].
      by apply IH.
Qed.

Lemma append_assoc (a b c : string) : (a +:+ b) +:+ c = a +:+ (b +:+ c).
Proof.
  induction a as [|x a IH]; [reflexivity|].
  rewrite !append_cons. by rewrite IH.
Qed.

Lemma prefix_app_l (u v : string) : forall s,
  String.prefix (u +:+ v) s = true -> String.prefix u s = true.
Proof.
  induction u as [|c u IH]; intros s Hp; [apply prefix_nil|].
  rewrite append_cons in Hp. destruct s as [|d r]; [discriminate|].
  cbn [String.prefix] in *. destruct (ascii_dec c d); [by apply IH|discriminate].
Qed.

(** When [old] and [new] start with the same bytes, of which the first does
    not come again, the replacement neither makes nor breaks that start. *)
Lemma HasPrefix_ReplaceAll c p old new s :
  Contains p (String c "") = false ->
  HasPrefix (ReplaceAll s (String c (p +:+ old)) (String c (p +:+ new))) (String c p)
  = HasPrefix s (String c p).
Proof.
  intros Hp. unfold ReplaceAll.
  destruct s as [|d r]; [reflexivity|].
  cbn [replace_scan].
  destruct (String.prefix (String c (p +:+ old)) (String d r)) eqn:Ho.
  - unfold HasPrefix.
    rewrite <- append_cons in Ho. rewrite (prefix_app_l _ _ _ Ho).
    rewrite <- (append_cons c p new), append_assoc.
    apply prefix_app.
  - unfold HasPrefix. cbn [String.prefix].
    destruct (ascii_dec c d); [|reflexivity].
    apply (HasPrefix_replace_scan c (p +:+ old) (p +:+ new) p r Hp).
Qed.

End StringsFacts.

Section ReverseFacts.
Import RateLimit DiskCache Api Strings Reverse.
Context (L : Library) (RL : ReverseLibrary).

Local Abbreviation parseWKTToCoordinate := (parseWKTToCoordinate RL).

(** The text between the parentheses of a point is what the coordinates
    are read from, for each of the eight spellings of the head. *)
Lemma parseWKTToCoordinate_body tag sep body :
  tag ∈ ["" ; " Z"; " ZM"; " M"] -> sep ∈ [""; " "] ->
  Contains body "P" = false ->
  parseWKTToCoordinate ("POINT" +:+ tag +:+ sep +:+ "(" +:+ body +:+ ")")
  = parse_coordinates RL body.
Proof.
  intros Htag Hsep Hbody.
  assert (Ht : Contains (body +:+ ")") "P" = false)
    by (by rewrite Contains_app, Hbody).
  set (t := body +:+ ")") in *.
  assert (Hnone : forall h old new,
            String.prefix (String "P" old) (String "P" h +:+ t) = false ->
            Contains h "P" = false ->
            ReplaceAll (String "P" h +:+ t) (String "P" old) new = String "P" h +:+ t)
    by (intros; by apply ReplaceAll_head_none).
  assert (Hhead : forall old new,
            ReplaceAll (String "P" old +:+ t) (String "P" old) new = new +:+ t)
    by (intros; by rewrite ReplaceAll_head, ReplaceAll_none).
  unfold Reverse.parseWKTToCoordinate.
  repeat match goal with
         | H : _ ∈ _ :: _ |- _ => apply elem_of_cons in H as [->|H]
         | H : _ ∈ [] |- _ => by apply elem_of_nil in H
         end.
  all: match goal with
       | |- context [?a +:+ ?b +:+ ?c +:+ "(" +:+ ?u] =>
           is_var u;
           let h := eval vm_compute in (a +:+ b +:+ c +:+ "(") in
           change (a +:+ b +:+ c +:+ "(" +:+ u) with (h +:+ u)
       end.
  all: match goal with
       | |- context [String.eqb (?h +:+ ?u) ""] =>
           change (String.eqb (h +:+ u) "") with false
       end; cbv zeta.
  all: do 4 match goal with
       | |- context [ReplaceAll (String "P" ?h +:+ ?u) (String "P" ?old) ?new] =>
           first [ rewrite (Hhead old new)
                 | rewrite (Hnone h old new) by reflexivity ]
       end.
  all: repeat match goal with
       | |- context [HasPrefix (?h +:+ ?u) ?p] =>
           first [ replace (HasPrefix (h +:+ u) p) with false by reflexivity
                 | replace (HasPrefix (h +:+ u) p) with true
                     by (symmetry; apply prefix_app) ]
       end.
  all: rewrite TrimPrefix_app; subst t; by rewrite TrimSuffix_app.
Qed.

(** X12.  [parseWKTToCoordinate] reads a point in each spelling of its
    head (POINT, POINT Z, POINT ZM or POINT M, with or without a space before
    the parenthesis): the coordinate is made of the first two numbers between
    the parentheses, and what follows them (a height, a measure) is ignored. *)
Theorem parseWKTToCoordinate_point tag sep body xs ys more x y :
  tag ∈ ["" ; " Z"; " ZM"; " M"] -> sep ∈ [""; " "] ->
  Contains body "P" = false ->
  Fields body = xs :: ys :: more ->
  strconv_ParseFloat RL xs = Ok x -> strconv_ParseFloat RL ys = Ok y ->
  parseWKTToCoordinate ("POINT" +:+ tag +:+ sep +:+ "(" +:+ body +:+ ")")
  = Ok {| X := x; Y := y |}.
Proof.
  intros Htag Hsep Hbody Hfields Hx Hy.
  rewrite (parseWKTToCoordinate_body tag sep body Htag Hsep Hbody).
  unfold parse_coordinates. rewrite Hfields.
  replace (len (xs :: ys :: more) <? 2) with false
    by (symmetry; apply Z.ltb_ge; unfold len; cbn [length]; lia).
  cbn [index nth]. by rewrite Hx, Hy.
Qed.

(** X13.  [parseWKTToCoordinate] returns a coordinate for no text that does
    not start with POINT. *)
Theorem parseWKTToCoordinate_only_points wkt c :
  parseWKTToCoordinate wkt = Ok c -> HasPrefix wkt "POINT" = true.
Proof.
  unfold Reverse.parseWKTToCoordinate.
  destruct (String.eqb wkt ""); [discriminate|]. cbv zeta.
  set (w1 := ReplaceAll wkt "POINT Z(" "POINT Z (").
  set (w2 := ReplaceAll w1 "POINT ZM(" "POINT ZM (").
  set (w3 := ReplaceAll w2 "POINT M(" "POINT M (").
  set (w4 := ReplaceAll w3 "POINT(" "POINT (").
  intros Hok.
  assert (H4 : HasPrefix w4 "POINT" = true).
  { unfold HasPrefix in *.
    destruct (String.prefix "POINT Z (" w4) eqn:E1;
      [exact (prefix_app_l "POINT" " Z (" w4 E1)|].
    destruct (String.prefix "POINT ZM (" w4) eqn:E2;
      [exact (prefix_app_l "POINT" " ZM (" w4 E2)|].
    destruct (String.prefix "POINT M (" w4) eqn:E3;
      [exact (prefix_app_l "POINT" " M (" w4 E3)|].
    destruct (String.prefix "POINT (" w4) eqn:E4;
      [exact (prefix_app_l "POINT" " (" w4 E4)|].
    by destruct (Contains w4 "EMPTY"). }
  assert (E4 : HasPrefix w4 "POINT" = HasPrefix w3 "POINT")
    by exact (HasPrefix_ReplaceAll "P" "OINT" "(" " (" w3 eq_refl).
  assert (E3 : HasPrefix w3 "POINT" = HasPrefix w2 "POINT")
    by exact (HasPrefix_ReplaceAll "P" "OINT" " M(" " M (" w2 eq_refl).
  assert (E2 : HasPrefix w2 "POINT" = HasPrefix w1 "POINT")
    by exact (HasPrefix_ReplaceAll "P" "OINT" " ZM(" " ZM (" w1 eq_refl).
  assert (E1 : HasPrefix w1 "POINT" = HasPrefix wkt "POINT")
    by exact (HasPrefix_ReplaceAll "P" "OINT" " Z(" " Z (" wkt eq_refl).
  congruence.
Qed.

(** X14.  The reverse lookup does not use the disk cache: it leaves the
    file system as it is and sends one request at most.  It returns a
    coordinate only when the provider answered 200 with a document that has
    an entry under the road reference as given, whose WKT text parses to that
    coordinate; when a request was sent and answered 404 it returns the error
    that the road reference was not found. *)
Theorem GetCoordinatesFromVegreferanse_cases api w e vegreferanse r api' w' :
  GetCoordinatesFromVegreferanse L RL api w e vegreferanse = Some (r, api', w') ->
  fs w' = fs w /\ diskCache api' = diskCache api /\
  (sent w' = sent w \/ exists req, sent w' = sent w ++ [req]) /\
  (forall c, r = Ok c ->
     exists body locs loc,
       http e = Response StatusOK body /\
       json_Unmarshal_locations RL body = Ok locs /\
       locs !! vegreferanse = Some loc /\
       parseWKTToCoordinate (Wkt (loc_Geometri loc)) = Ok c) /\
  (forall body, http e = Response StatusNotFound body ->
     sent w' <> sent w ->
     r = Err ("vegreferanse not found: " +:+ vegreferanse)).
Proof.
  unfold GetCoordinatesFromVegreferanse. cbv zeta.
  destruct (createRequest L api _ _) as [req|err].
  2: { intros [= <- <- <-].
       split; [done|]. split; [done|]. split; [by left|].
       split; [discriminate|]. intros body _ Hsent. done. }
  unfold executeRequest.
  destruct (Wait _ _ _) as [[[r1 c1] n1]|]; [|discriminate].
  assert (Hrest : forall r0 : result Coordinate,
            (forall c, r0 = Ok c ->
               exists body locs loc,
                 http e = Response StatusOK body /\
                 json_Unmarshal_locations RL body = Ok locs /\
                 locs !! vegreferanse = Some loc /\
                 parseWKTToCoordinate (Wkt (loc_Geometri loc)) = Ok c) ->
            (forall body, http e = Response StatusNotFound body ->
               r0 = Err ("vegreferanse not found: " +:+ vegreferanse)) ->
            Some (r0,
                  {| baseURL := baseURL api; rateLimiter := r1;
                     diskCache := diskCache api |},
                  {| fs := fs w; clock := c1; sent := sent w ++ [req] |})
            = Some (r, api', w') ->
            fs w' = fs w /\ diskCache api' = diskCache api /\
            (sent w' = sent w \/ exists req, sent w' = sent w ++ [req]) /\
            (forall c, r = Ok c ->
               exists body locs loc,
                 http e = Response StatusOK body /\
                 json_Unmarshal_locations RL body = Ok locs /\
                 locs !! vegreferanse = Some loc /\
                 parseWKTToCoordinate (Wkt (loc_Geometri loc)) = Ok c) /\
            (forall body, http e = Response StatusNotFound body ->
               sent w' <> sent w ->
               r = Err ("vegreferanse not found: " +:+ vegreferanse))).
  { intros r0 Hok Hnf [= <- <- <-]. cbn [fs sent diskCache].
    split; [done|]. split; [done|]. split; [right; by exists req|].
    split; [exact Hok|]. intros body Hb _. by apply (Hnf body). }
  destruct (http e) as [err|status err|status body] eqn:Hhttp.
  - apply Hrest; [discriminate|discriminate].
  - apply Hrest; [discriminate|discriminate].
  - destruct (negb (status =? StatusOK)) eqn:Hok.
    + destruct (status =? StatusNotFound) eqn:Hnf.
      * apply Hrest; [discriminate|done].
      * destruct (handleErrorResponse_not_nil L status body Hnf) as [err Herr].
        rewrite Herr. apply Hrest; [discriminate|].
        intros body' [= Hs _]. apply Z.eqb_neq in Hnf. done.
    + apply negb_false_iff, Z.eqb_eq in Hok. subst status.
      destruct (json_Unmarshal_locations RL body) as [locs|err] eqn:Hlocs.
      2: { apply Hrest; [discriminate|]. intros body' [=]. }
      destruct (locs !! vegreferanse) as [loc|] eqn:Hloc.
      2: { apply Hrest; [discriminate|]. intros body' [=]. }
      apply Hrest.
      * intros c Hc. exists body, locs, loc. done.
      * intros body' [=].
Qed.

(** X15.  [GetVegreferanseFromCoordinates] answers as a selector without
    history selects: it passes the error of [GetVegreferanseMatches] on, and
    otherwise returns the label [SelectBestMatch] returns for the matches,
    the first of them, or the empty label when there is none. *)
Theorem GetVegreferanseFromCoordinates_as_selector api w e x y s :
  history s = [] ->
  GetVegreferanseFromCoordinates L api w e x y
  = match GetVegreferanseMatches L api w e x y with
    | None => None
    | Some (Err err, api', w') => Some (Err err, api', w')
    | Some (Ok matches, api', w') => Some (Ok (SelectBestMatch s matches), api', w')
    end.
Proof.
  intros Hs. unfold GetVegreferanseFromCoordinates, SelectBestMatch.
  destruct (GetVegreferanseMatches L api w e x y) as [[[[ms|err] api'] w']|];
    try reflexivity.
  destruct ms as [|first rest]; [reflexivity|].
  rewrite Hs. by rewrite orb_true_r.
Qed.

End ReverseFacts.

Section ReverseDemo.
Import RateLimit DiskCache Api Strings Reverse.

(** A library for one road reference and the numbers of its point. *)
Definition demo_ReverseLibrary : ReverseLibrary :=
  {| url_QueryEscape := fun _ => "E18+S65D1+m12621";
     json_Unmarshal_locations := fun body =>
       if String.eqb body "{E18 S65D1 m12621}" then
         Ok {[ "E18 S65D1 m12621" :=
                 {| loc_Geometri :=
                      {| Wkt := "POINT Z(253671.5 6648897.75 10.5)";
                         Srid := 5973 |} |} ]}
       else Err "unexpected end of JSON input";
     strconv_ParseFloat := fun s =>
       if String.eqb s "253671.5" then Ok 253671.5%float
       else if String.eqb s "6648897.75" then Ok 6648897.75%float
       else Err "invalid syntax" |}.

Definition env_point : Env :=
  {| faults := no_faults; delay := on_time;
     http := Response 200 "{E18 S65D1 m12621}" |}.

End ReverseDemo.

(** X12 at a point with a height and no space before the parenthesis. *)
Lemma parseWKTToCoordinate_point_witness :
  Reverse.parseWKTToCoordinate demo_ReverseLibrary
    ("POINT" +:+ " Z" +:+ "" +:+ "(" +:+ "253671.5 6648897.75 10.5" +:+ ")")
  = Ok {| Reverse.X := 253671.5%float; Reverse.Y := 6648897.75%float |}.
Proof.
  apply (parseWKTToCoordinate_point demo_ReverseLibrary " Z" ""
           "253671.5 6648897.75 10.5" "253671.5" "6648897.75" ["10.5"]).
  - set_solver.
  - set_solver.
  - reflexivity.
  - reflexivity.
  - reflexivity.
  - reflexivity.
Defined.

(** X13 at the same point. *)
Lemma parseWKTToCoordinate_only_points_witness :
  Strings.HasPrefix "POINT Z(253671.5 6648897.75 10.5)" "POINT" = true.
Proof.
  apply (parseWKTToCoordinate_only_points demo_ReverseLibrary
           "POINT Z(253671.5 6648897.75 10.5)"
           {| Reverse.X := 253671.5%float; Reverse.Y := 6648897.75%float |}).
  reflexivity.
Defined.

(** X14 at a provider that answers the point of the road reference. *)
Lemma GetCoordinatesFromVegreferanse_cases_witness :
  exists r api' w',
    Reverse.GetCoordinatesFromVegreferanse demo_Library demo_ReverseLibrary
      demo_api demo_world env_point "E18 S65D1 m12621" = Some (r, api', w') /\
    r = Ok {| Reverse.X := 253671.5%float; Reverse.Y := 6648897.75%float |} /\
    Api.fs w' = Api.fs demo_world /\
    Api.diskCache api' = Api.diskCache demo_api /\
    (Api.sent w' = Api.sent demo_world \/
     exists req, Api.sent w' = Api.sent demo_world ++ [req]).
Proof.
  destruct (Reverse.GetCoordinatesFromVegreferanse demo_Library demo_ReverseLibrary
              demo_api demo_world env_point "E18 S65D1 m12621")
    as [[[r api'] w']|] eqn:Hcall; [|discriminate Hcall].
  exists r, api', w'. split; [reflexivity|].
  split; [by injection Hcall as <- _ _|].
  destruct (GetCoordinatesFromVegreferanse_cases demo_Library demo_ReverseLibrary
              demo_api demo_world env_point "E18 S65D1 m12621" r api' w' Hcall)
    as (Hfs & Hdc & Hsent & _).
  done.
Defined.

(** X15 at the matches the provider answers, for a new selector. *)
Lemma GetVegreferanseFromCoordinates_as_selector_witness :
  Reverse.GetVegreferanseFromCoordinates demo_Library demo_api demo_world env_match
    600000%float 6600000%float
  = match Api.GetVegreferanseMatches demo_Library demo_api demo_world env_match
            600000%float 6600000%float with
    | None => None
    | Some (Err err, api', w') => Some (Err err, api', w')
    | Some (Ok matches, api', w') =>
        Some (Ok (SelectBestMatch {| history := []; maxHistory := 10 |} matches),
              api', w')
    end.
Proof.
  apply (GetVegreferanseFromCoordinates_as_selector demo_Library demo_api demo_world
           env_match 600000%float 6600000%float {| history := []; maxHistory := 10 |}).
  reflexivity.
Defined.

(** * The road report *)

Section ReportFacts.
Import Pool Report.

(** The road of a result and the rows (counted from 1) of a range. *)
Definition road_of (r : processResult) : string :=
  extractRoadNumber (vegreferanse r).

Definition covers (rg : roadRange) (k : nat) : Prop :=
  startRow rg <= Z.of_nat k + 1 <= endRow rg.

(** Between two ranges that follow each other lies a row at least. *)
Definition separated (l : list roadRange) : Prop :=
  forall i a b, l !! i = Some a -> l !! S i = Some b -> endRow a + 2 <= startRow b.

Lemma separated_snoc l rg :
  separated l -> (forall a, a ∈ l -> endRow a + 2 <= startRow rg) ->
  separated (l ++ [rg]).
Proof.
  intros Hsep Hall i a b Ha Hb.
  apply lookup_snoc_Some in Hb as [[Hlt Hb]|[Hlen <-]].
  - rewrite lookup_app_l in Ha by lia. eauto.
  - rewrite lookup_app_l in Ha by lia.
    apply Hall. apply list_elem_of_lookup. eauto.
Qed.

Lemma append_range_lookup m road rg road' :
  append_range m road rg !!! road'
  = if decide (road = road') then (m !!! road) ++ [rg] else m !!! road'.
Proof.
  unfold append_range. destruct (decide (road = road')) as [->|Hne].
  - by rewrite lookup_total_insert_eq.
  - by rewrite lookup_total_insert_ne.
Qed.

(** What the loop of [identifyRoadRanges] keeps, [done] being the results
    it has passed. *)
Record ranges_inv (done : list processResult) (st : ranges_state) : Prop := {
  inv_keys : forall road l, roadNumbers st !! road = Some l -> l <> [];
  inv_closed : forall road rg,
    rg ∈ roadNumbers st !!! road ->
    road <> "" /\ 1 <= startRow rg <= endRow rg /\ endRow rg < len done /\
    forall k r, covers rg k -> done !! k = Some r -> road_of r = road;
  inv_separated : forall road, separated (roadNumbers st !!! road);
  inv_open :
    currentRoad st <> "" ->
    1 <= startRow (currentRange st) <= len done /\
    (forall k r, startRow (currentRange st) <= Z.of_nat k + 1 ->
                 done !! k = Some r -> road_of r = currentRoad st) /\
    (forall rg, rg ∈ roadNumbers st !!! currentRoad st ->
                endRow rg + 2 <= startRow (currentRange st));
  inv_covered : forall k r,
    done !! k = Some r -> road_of r <> "" ->
    (exists rg, rg ∈ roadNumbers st !!! road_of r /\ covers rg k) \/
    (currentRoad st = road_of r /\ startRow (currentRange st) <= Z.of_nat k + 1)
}.

Lemma len_snoc {A} (l : list A) x : len (l ++ [x]) = len l + 1.
Proof. unfold len. rewrite length_app. cbn. lia. Qed.

(** The invariant after the open range is closed at row [len done]. *)
Lemma ranges_inv_finish done st :
  ranges_inv done st -> currentRoad st <> "" ->
  let st' := finish st (len done) in
  (forall road l, roadNumbers st' !! road = Some l -> l <> []) /\
  (forall road rg,
     rg ∈ roadNumbers st' !!! road ->
     road <> "" /\ 1 <= startRow rg <= endRow rg /\ endRow rg <= len done /\
     forall k r, covers rg k -> done !! k = Some r -> road_of r = road) /\
  (forall road, separated (roadNumbers st' !!! road)) /\
  (forall k r, done !! k = Some r -> road_of r <> "" ->
     exists rg, rg ∈ roadNumbers st' !!! road_of r /\ covers rg k) /\
  (forall road rg, road <> currentRoad st ->
     rg ∈ roadNumbers st' !!! road -> rg ∈ roadNumbers st !!! road).
Proof.
  intros [Hkeys Hclosed Hsep Hopen Hcov] Hcr.
  destruct (Hopen Hcr) as (Hstart & Hrows & Hgap).
  cbn [finish roadNumbers].
  assert (Hnew : forall road rg,
            rg ∈ append_range (roadNumbers st) (currentRoad st)
                   {| startRow := startRow (currentRange st); endRow := len done |}
                 !!! road ->
            rg ∈ roadNumbers st !!! road \/
            (road = currentRoad st /\
             rg = {| startRow := startRow (currentRange st); endRow := len done |})).
  { intros road rg. rewrite append_range_lookup.
    destruct (decide (currentRoad st = road)) as [<-|Hne]; [|by left].
    intros [H|H]%elem_of_app; [by left|].
    apply list_elem_of_singleton in H. by right. }
  split; [|split; [|split; [|split]]].
  - intros road l. unfold append_range.
    destruct (decide (currentRoad st = road)) as [<-|Hne].
    + rewrite lookup_insert_eq. intros [= <-]. by destruct (_ !!! _).
    + rewrite lookup_insert_ne by done. apply Hkeys.
  - intros road rg [H|[-> ->]]%Hnew.
    + destruct (Hclosed road rg H) as (Hr & Hwf & Hend & Hin).
      split; [done|]. split; [done|]. split; [lia|done].
    + cbn [startRow endRow]. split; [done|]. split; [lia|]. split; [lia|].
      intros k r Hk Hr. unfold covers in Hk. cbn in Hk.
      apply (Hrows k r); [lia|done].
  - intros road. rewrite append_range_lookup.
    destruct (decide (currentRoad st = road)) as [<-|Hne]; [|apply Hsep].
    apply separated_snoc; [apply Hsep|]. intros a Ha. cbn. by apply Hgap.
  - intros k r Hk Hr. destruct (Hcov k r Hk Hr) as [(rg & Hrg & Hc)|[Heq Hs]].
    + exists rg. split; [|done]. rewrite append_range_lookup.
      destruct (decide _) as [Heq|]; [rewrite Heq|done]. apply elem_of_app. by left.
    + exists {| startRow := startRow (currentRange st); endRow := len done |}.
      split.
      * rewrite append_range_lookup, <- Heq.
        destruct (decide _); [|done]. apply elem_of_app. right. by left.
      * unfold covers. cbn. split; [done|].
        apply lookup_lt_Some in Hk. unfold len. lia.
  - intros road rg Hne. rewrite append_range_lookup.
    by destruct (decide _).
Qed.

Ltac len_lia :=
  unfold covers, len in *; rewrite ?length_app in *; cbn [length] in *; lia.

Lemma lookup_snoc_cases {A} (l : list A) x k y :
  (l ++ [x]) !! k = Some y ->
  (l !! k = Some y /\ (k < length l)%nat) \/ (k = length l /\ y = x).
Proof.
  intros [[Hlt Hk]|[-> <-]]%lookup_snoc_Some; [left|right]; done.
Qed.

(** One iteration keeps the invariant. *)
Lemma ranges_inv_step done st r :
  ranges_inv done st ->
  ranges_inv (done ++ [r]) (ranges_step st (len done) r).
Proof.
  intros Hinv.
  pose proof (ranges_inv_finish done st Hinv) as Hfin.
  destruct Hinv as [Hkeys Hclosed Hsep Hopen Hcov].
  assert (Hclosed' : forall road rg,
            rg ∈ roadNumbers st !!! road ->
            road <> "" /\ 1 <= startRow rg <= endRow rg /\
            endRow rg < len (done ++ [r]) /\
            forall k r', covers rg k -> (done ++ [r]) !! k = Some r' ->
                         road_of r' = road).
  { intros road rg Hrg. destruct (Hclosed road rg Hrg) as (Hr & Hwf & Hend & Hin).
    split; [done|]. split; [done|]. split; [len_lia|].
    intros k r' Hk [[Hk' _]|[-> _]]%lookup_snoc_cases; [by apply (Hin k)|].
    len_lia. }
  unfold ranges_step. fold (road_of r).
  destruct (String.eqb_spec (road_of r) "") as [Hempty|Hroad].
  - destruct (String.eqb_spec (currentRoad st) "") as [Hcr|Hcr]; cbn [negb].
    + (* no road, none open *)
      constructor; try done.
      intros k r' [[Hk' _]|[-> ->]]%lookup_snoc_cases Hr'; [|done].
      destruct (Hcov k r' Hk' Hr') as [?|[Heq _]]; [by left|]. congruence.
    + (* no road: the open range ends *)
      destruct (Hfin Hcr) as (F1 & F2 & F3 & F4 & F5).
      constructor; cbn [roadNumbers currentRoad currentRange]; try done.
      * intros road rg Hrg. destruct (F2 road rg Hrg) as (Hr & Hwf & Hend & Hin).
        split; [done|]. split; [done|]. split; [len_lia|].
        intros k r' Hk [[Hk' _]|[-> _]]%lookup_snoc_cases; [by apply (Hin k)|].
        len_lia.
      * intros k r' [[Hk' _]|[-> ->]]%lookup_snoc_cases Hr'; [|done].
        left. by apply F4.
  - destruct (String.eqb_spec (road_of r) (currentRoad st)) as [Hsame|Hother];
      cbn [negb].
    + (* the open range goes on *)
      assert (Hcr : currentRoad st <> "") by congruence.
      destruct (Hopen Hcr) as (Hstart & Hrows & Hgap).
      constructor; cbn [roadNumbers currentRoad currentRange startRow]; try done.
      * intros _. split; [len_lia|]. split; [|done].
        intros k r' Hk [[Hk' _]|[-> ->]]%lookup_snoc_cases; [by apply (Hrows k)|done].
      * intros k r' [[Hk' _]|[-> ->]]%lookup_snoc_cases Hr'.
        -- destruct (Hcov k r' Hk' Hr') as [?|?]; [by left|by right].
        -- right. split; [done|]. len_lia.
    + destruct (String.eqb_spec (currentRoad st) "") as [Hcr|Hcr]; cbn [negb].
      * (* a range opens, none was open *)
        constructor; cbn [roadNumbers currentRoad currentRange startRow]; try done.
        -- intros _. split; [len_lia|]. split.
           ++ intros k r' Hk [[_ Hk']|[-> ->]]%lookup_snoc_cases; [|done].
              len_lia.
           ++ intros rg Hrg. destruct (Hclosed _ rg Hrg) as (_ & _ & Hend & _). len_lia.
        -- intros k r' [[Hk' _]|[-> ->]]%lookup_snoc_cases Hr'.
           ++ destruct (Hcov k r' Hk' Hr') as [?|[Heq _]]; [by left|]. congruence.
           ++ right. split; [done|]. len_lia.
      * (* the open range ends and another opens *)
        destruct (Hfin Hcr) as (F1 & F2 & F3 & F4 & F5).
        constructor; cbn [roadNumbers currentRoad currentRange startRow]; try done.
        -- intros road rg Hrg. destruct (F2 road rg Hrg) as (Hr & Hwf & Hend & Hin).
           split; [done|]. split; [done|]. split; [len_lia|].
           intros k r' Hk [[Hk' _]|[-> _]]%lookup_snoc_cases; [by apply (Hin k)|].
           len_lia.
        -- intros _. split; [len_lia|]. split.
           ++ intros k r' Hk [[_ Hk']|[-> ->]]%lookup_snoc_cases; [|done].
              len_lia.
           ++ intros rg Hrg. apply F5 in Hrg; [|done].
              destruct (Hclosed _ rg Hrg) as (_ & _ & Hend & _). len_lia.
        -- intros k r' [[Hk' _]|[-> ->]]%lookup_snoc_cases Hr'.
           ++ left. by apply F4.
           ++ right. split; [done|]. len_lia.
Qed.

Lemma ranges_from_inv rest : forall done st,
  ranges_inv done st ->
  ranges_inv (done ++ rest) (ranges_from (len done) rest st).
Proof.
  induction rest as [|r rest IH]; intros done st Hinv.
  - by rewrite app_nil_r.
  - cbn [ranges_from]. rewrite <- (len_snoc done r).
    replace (done ++ r :: rest) with ((done ++ [r]) ++ rest)
      by (by rewrite <- app_assoc).
    apply IH. by apply ranges_inv_step.
Qed.

Lemma ranges_inv_init :
  ranges_inv [] {| roadNumbers := ∅; currentRoad := "";
                   currentRange := {| startRow := 0; endRow := 0 |} |}.
Proof.
  constructor; cbn [roadNumbers currentRoad currentRange].
  - intros road l. by rewrite lookup_empty.
  - intros road rg. rewrite lookup_total_empty. by intros ?%elem_of_nil.
  - intros road i a b. by rewrite lookup_total_empty.
  - done.
  - intros k r. by rewrite lookup_nil.
Qed.

(** What [identifyRoadRanges] returns. *)
Lemma identifyRoadRanges_spec results :
  let ranges := identifyRoadRanges results in
  (forall road l, ranges !! road = Some l -> l <> []) /\
  (forall road rg,
     rg ∈ ranges !!! road ->
     road <> "" /\ 1 <= startRow rg <= endRow rg /\ endRow rg <= len results /\
     forall k r, covers rg k -> results !! k = Some r -> road_of r = road) /\
  (forall road, separated (ranges !!! road)) /\
  (forall k r, results !! k = Some r -> road_of r <> "" ->
     exists rg, rg ∈ ranges !!! road_of r /\ covers rg k).
Proof.
  pose proof (ranges_from_inv results [] _ ranges_inv_init) as Hinv.
  cbn [app] in Hinv. change (len []) with 0 in Hinv.
  cbv zeta. unfold identifyRoadRanges.
  set (st := ranges_from 0 results _) in *.
  destruct (String.eqb_spec (currentRoad st) "") as [Hcr|Hcr]; cbn [negb].
  - destruct Hinv as [Hkeys Hclosed Hsep Hopen Hcov].
    split; [done|]. split; [|split; [done|]].
    + intros road rg Hrg. destruct (Hclosed road rg Hrg) as (Hr & Hwf & Hend & Hin).
      split; [done|]. split; [done|]. split; [lia|done].
    + intros k r Hk Hr. destruct (Hcov k r Hk Hr) as [?|[Heq _]]; [done|congruence].
  - destruct (ranges_inv_finish results st Hinv Hcr) as (F1 & F2 & F3 & F4 & _).
    done.
Qed.

(** The roads of the map are those of the results. *)
Lemma identifyRoadRanges_keys results road :
  is_Some (identifyRoadRanges results !! road)
  <-> road <> "" /\ exists k r, results !! k = Some r /\ road_of r = road.
Proof.
  destruct (identifyRoadRanges_spec results) as (Hkeys & Hsound & _ & Hcov).
  split.
  - intros [l Hl]. pose proof (Hkeys road l Hl) as Hne.
    destruct l as [|rg l]; [done|].
    assert (Hrg : rg ∈ identifyRoadRanges results !!! road).
    { rewrite lookup_total_alt, Hl. left. }
    destruct (Hsound road rg Hrg) as (Hr & Hwf & Hend & Hin).
    split; [done|].
    destruct (lookup_lt_is_Some_2 results (Z.to_nat (startRow rg - 1)))
      as [r Hk]; [unfold len in Hend; lia|].
    exists (Z.to_nat (startRow rg - 1)), r. split; [done|].
    apply (Hin (Z.to_nat (startRow rg - 1)) r); [|done]. unfold covers. lia.
  - intros (Hr & k & r & Hk & <-).
    destruct (Hcov k r Hk Hr) as (rg & Hrg & _).
    rewrite lookup_total_alt in Hrg.
    destruct (identifyRoadRanges results !! _); [by eexists|].
    by apply elem_of_nil in Hrg.
Qed.

(** X16.  [identifyRoadRanges] marks exactly the rows that have a road:
    every range lies within the rows [1 .. len(results)]; row [k + 1] lies in
    a range listed under a road exactly when that road is the road number of
    result [k] and is not empty; and a road is a key of the map exactly when
    some result has it. *)
Theorem identifyRoadRanges_rows results :
  (forall road rg,
     rg ∈ identifyRoadRanges results !!! road ->
     1 <= startRow rg <= endRow rg /\ endRow rg <= len results) /\
  (forall road k r,
     results !! k = Some r ->
     (exists rg, rg ∈ identifyRoadRanges results !!! road /\
                 startRow rg <= Z.of_nat k + 1 <= endRow rg)
     <-> road <> "" /\ extractRoadNumber (vegreferanse r) = road) /\
  (forall road,
     is_Some (identifyRoadRanges results !! road)
     <-> road <> "" /\
         exists k r, results !! k = Some r /\
                     extractRoadNumber (vegreferanse r) = road).
Proof.
  destruct (identifyRoadRanges_spec results) as (Hkeys & Hsound & _ & Hcov).
  split; [|split].
  - intros road rg Hrg. destruct (Hsound road rg Hrg) as (_ & ? & ? & _). done.
  - intros road k r Hk. split.
    + intros (rg & Hrg & Hc). destruct (Hsound road rg Hrg) as (Hr & _ & _ & Hin).
      split; [done|]. by apply (Hin k r).
    + intros [Hr <-]. by apply Hcov.
  - intros road. apply identifyRoadRanges_keys.
Qed.

Lemma separated_tail a l : separated (a :: l) -> separated l.
Proof. intros Hsep i x y Hx Hy. by apply (Hsep (S i)). Qed.

(** Ranges that lie apart are not merged. *)
Lemma merge_from_separated ranges : forall merged lastRange,
  separated (lastRange :: ranges) ->
  Forall (fun rg => in_int64 (endRow rg + 1) = true) (lastRange :: ranges) ->
  merge_from merged lastRange ranges = merged ++ lastRange :: ranges.
Proof.
  induction ranges as [|cur rest IH]; intros merged lastRange Hsep Hin; [done|].
  cbn [merge_from].
  assert (Hgap : endRow lastRange + 2 <= startRow cur)
    by (by apply (Hsep 0%nat)).
  apply Forall_cons in Hin as [Hlast Hin].
  rewrite wrap64_small
    by (unfold in_int64, min_int64, max_int64 in Hlast;
        apply andb_true_iff in Hlast as [?%Z.leb_le ?%Z.leb_le]; lia).
  replace (startRow cur <=? endRow lastRange + 1) with false
    by (symmetry; apply Z.leb_gt; lia).
  rewrite (IH (merged ++ [lastRange]) cur); [|by eapply separated_tail|done].
  by rewrite <- app_assoc.
Qed.

Lemma mergeRanges_separated results road :
  len results < max_int64 ->
  mergeRanges (identifyRoadRanges results !!! road)
  = identifyRoadRanges results !!! road.
Proof.
  intros Hlen.
  destruct (identifyRoadRanges_spec results) as (_ & Hsound & Hsep & _).
  specialize (Hsep road).
  assert (Hin : Forall (fun rg => in_int64 (endRow rg + 1) = true)
                  (identifyRoadRanges results !!! road)).
  { apply Forall_forall. intros rg Hrg.
    destruct (Hsound road rg Hrg) as (_ & Hwf & Hend & _).
    unfold in_int64, min_int64, max_int64 in *.
    apply andb_true_iff. split; [apply Z.leb_le|apply Z.leb_le]; lia. }
  destruct (identifyRoadRanges results !!! road) as [|first [|second others]];
    [done|done|].
  unfold mergeRanges. by rewrite merge_from_separated.
Qed.

(** X17.  Two ranges that [identifyRoadRanges] lists under one road have a
    row of another road between them, so the merging pass of
    [generateRoadReport] merges nothing: each range is reported as it was
    identified. *)
Theorem mergeRanges_identified results road :
  len results < max_int64 ->
  separated (identifyRoadRanges results !!! road) /\
  mergeRanges (identifyRoadRanges results !!! road)
  = identifyRoadRanges results !!! road.
Proof.
  intros Hlen. split; [|by apply mergeRanges_separated].
  destruct (identifyRoadRanges_spec results) as (_ & _ & Hsep & _).
  apply Hsep.
Qed.

Lemma sort_Strings_spec l :
  Sorted (fun a b => String.leb a b = true) (sort_Strings l) /\
  sort_Strings l ≡ₚ l.
Proof.
  unfold sort_Strings. split.
  - apply Sorted_merge_sort. intros a b. apply String.leb_total.
  - apply merge_sort_Permutation.
Qed.

(** X25.  What [generateRoadReport] prints for the ranges of
    [identifyRoadRanges]: after the title, when no result has a road the line
    that none was identified, and otherwise, for the roads of the results,
    each once and in the byte order of their names, one line for each range
    identified for the road, in the order of the rows. *)
Theorem generateRoadReport_lines results :
  len results < max_int64 ->
  exists roads,
    Sorted (fun a b => String.leb a b = true) roads /\ NoDup roads /\
    (forall road,
       road ∈ roads
       <-> road <> "" /\
           exists k r, results !! k = Some r /\
                       extractRoadNumber (vegreferanse r) = road) /\
    generateRoadReport (identifyRoadRanges results)
    = (String "010"%char "Road numbers summary:" +:+ String "010"%char EmptyString)
      :: match roads with
         | [] => ["No road numbers identified." +:+ String "010"%char EmptyString]
         | _ :: _ =>
             concat
               (map (fun road =>
                       map (report_line road) (identifyRoadRanges results !!! road))
                    roads)
         end.
Proof.
  intros Hlen. set (m := identifyRoadRanges results).
  destruct (sort_Strings_spec (map fst (map_to_list m))) as [Hsorted Hperm].
  exists (sort_Strings (map fst (map_to_list m))).
  split; [exact Hsorted|]. split.
  { rewrite Hperm. apply NoDup_fst_map_to_list. }
  split.
  { intros road. rewrite Hperm, <- (identifyRoadRanges_keys results road).
    fold m. rewrite list_elem_of_fmap. split.
    - intros ([road' l] & -> & Hin). apply elem_of_map_to_list in Hin. by exists l.
    - intros [l Hl]. exists (road, l). split; [done|]. by apply elem_of_map_to_list. }
  unfold generateRoadReport. fold m. f_equal.
  destruct (map_to_list m) as [|kv rest] eqn:Hlist.
  - reflexivity.
  - replace (len (kv :: rest) =? 0) with false
      by (symmetry; apply Z.eqb_neq; unfold len; cbn [length]; lia).
    cbv zeta.
    destruct (sort_Strings (map fst (kv :: rest))) as [|road roads] eqn:Hsort.
    { symmetry in Hperm. by apply Permutation_nil_r in Hperm. }
    f_equal. apply map_ext. intros road'.
    unfold m. by rewrite mergeRanges_separated.
Qed.

End ReportFacts.

(** * More of the worker pool *)

Section PoolMore.
Import Pool.
Context {PS : Type}.
Context (GetVegreferanseMatches :
           PS -> float64 -> float64 -> result (list VegreferanseMatch) * PS).
Context (ParseFloat : string -> result float64).
Context (modeConfig : CoordToVegrefConfig).

Local Abbreviation step := (step GetVegreferanseMatches ParseFloat modeConfig).
Local Abbreviation run :=
  (processCoordinatesToVegreferanse GetVegreferanseMatches ParseFloat modeConfig).

(** The steps a worker has still to take when no task comes any more: an
    idle worker has to return, a busy one to send its result first. *)
Definition steps_of (w : worker) : nat :=
  match w with
  | Idle => 1
  | Busy _ => 2
  | Exited => 0
  end.

Fixpoint steps_of_all (ws : list worker) : nat :=
  match ws with
  | [] => 0
  | w :: ws => steps_of w + steps_of_all ws
  end.

(** The steps left until [wg.Wait()] returns: three for a task not sent yet
    (send, receive, answer), two for a task in the channel, one for the
    [close], and those of the workers. *)
Definition steps_left (st : @pool PS) : nat :=
  (3 * length (pending st) + 2 * length (taskChannel st)
   + steps_of_all (workers st)
   + (if closed st then 0 else 1))%nat.

Lemma steps_of_insert ws : forall w x y,
  ws !! w = Some x ->
  (steps_of_all (<[ w := y ]> ws) + steps_of x
   = steps_of_all ws + steps_of y)%nat.
Proof.
  induction ws as [|a ws IH]; intros w x y Hw; [done|].
  destruct w as [|w].
  - injection Hw as ->. cbn [insert list_insert steps_of_all]. lia.
  - specialize (IH w x y Hw).
    change (steps_of_all (<[ S w := y ]> (a :: ws)))
      with (steps_of a + steps_of_all (<[ w := y ]> ws))%nat.
    cbn [steps_of_all]. lia.
Qed.

(** Every step is one of them. *)
Lemma step_steps_left st st' : step st st' -> steps_left st = S (steps_left st').
Proof.
  destruct 1 as [st t rest Hp | st Hp Hc | st w t rest Hw Hch
                 | st w t r ps Hw Hbody | st w Hw Hch Hc];
    unfold steps_left; cbn [pending closed taskChannel workers resultChannel].
  - rewrite Hp, length_app. cbn [length]. lia.
  - rewrite Hp, Hc. lia.
  - pose proof (steps_of_insert _ _ _ (Busy t) Hw) as Hs. rewrite Hch.
    cbn [length steps_of] in *. lia.
  - pose proof (steps_of_insert _ _ _ Idle Hw) as Hs. cbn [steps_of] in *. lia.
  - pose proof (steps_of_insert _ _ _ Exited Hw) as Hs. cbn [steps_of] in *. lia.
Qed.

Lemma nsteps_steps_left n st st' :
  nsteps step n st st' -> steps_left st = (n + steps_left st')%nat.
Proof.
  induction 1 as [|n st st1 st' Hstep _ IH]; [done|].
  rewrite (step_steps_left _ _ Hstep), IH. lia.
Qed.

Lemma steps_left_init lines workers ps :
  steps_left (init lines workers ps)
  = (3 * length lines + Z.to_nat workers + 1)%nat.
Proof.
  unfold steps_left, init. cbn [pending closed taskChannel Pool.workers].
  rewrite tasks_from_length.
  assert (Hidle : forall n, steps_of_all (replicate n Idle) = n).
  { induction n as [|n IH]; [done|]. cbn [replicate steps_of_all steps_of]. by rewrite IH. }
  rewrite Hidle. cbn [length]. lia.
Qed.

Lemma steps_of_all_Exited ws :
  steps_of_all ws = 0%nat <-> Forall (fun w => w = Exited) ws.
Proof.
  induction ws as [|w ws IH]; [done|]. cbn [steps_of_all]. split.
  - intros Hsum. constructor.
    + destruct w; cbn [steps_of] in Hsum; [lia|lia|done].
    + apply IH. lia.
  - intros [-> Hall]%Forall_cons. apply IH in Hall. cbn [steps_of]. lia.
Qed.

Lemma steps_left_joined st : steps_left st = 0%nat -> joined st.
Proof.
  unfold steps_left, joined. intros H0.
  destruct (closed st); [|lia].
  split; [done|]. apply steps_of_all_Exited. lia.
Qed.

(** A worker that has not returned. *)
Lemma worker_left ws :
  ~ Forall (fun w => w = Exited) ws ->
  exists i, ws !! i = Some Idle \/ exists t, ws !! i = Some (Busy t).
Proof.
  induction ws as [|w ws IH]; intros Hnot; [by destruct Hnot|].
  destruct w as [|t|].
  - exists 0%nat. by left.
  - exists 0%nat. right. by exists t.
  - destruct IH as [i Hi]; [|by exists (S i)].
    intros Hall. apply Hnot. by constructor.
Qed.

(** No deadlock: before [wg.Wait()] returns some goroutine can take a
    step, as long as the body of the loop does not panic. *)
Lemma step_or_joined st :
  0 <= XColumn modeConfig -> 0 <= YColumn modeConfig ->
  joined st \/ exists st', step st st'.
Proof.
  intros HX HY.
  destruct (pending st) as [|t rest] eqn:Hp.
  2: { right. eexists. by eapply step_send. }
  destruct (closed st) eqn:Hc.
  2: { right. eexists. by eapply step_close. }
  destruct (decide (steps_of_all (workers st) = 0%nat)) as [H0|Hleft].
  { left. split; [done|]. by apply steps_of_all_Exited. }
  right.
  destruct (worker_left (workers st)) as [i [Hi|[t Hi]]].
  { intros Hall. by apply Hleft, steps_of_all_Exited. }
  - destruct (taskChannel st) as [|t rest] eqn:Hch.
    + eexists. by eapply (step_exit _ _ _ st i).
    + eexists. by eapply (step_receive _ _ _ st i t rest).
  - destruct (worker_body_total GetVegreferanseMatches ParseFloat modeConfig
                (provider st) t HX HY) as (r & ps' & Hbody).
    eexists. by eapply (step_work _ _ _ st i t r ps').
Qed.

(** X18.  The pool neither deadlocks nor runs for ever.  With one worker
    at least and columns that are not negative, whatever the scheduler
    does: after [n] steps of the goroutines either [wg.Wait()] has returned
    or some goroutine can take a step, and [wg.Wait()] has returned exactly
    when [n] is three steps for each line, one for each worker and one for
    the [close]. *)
Theorem pool_always_joins lines ps workers n st :
  1 <= workers -> 0 <= XColumn modeConfig -> 0 <= YColumn modeConfig ->
  nsteps step n (init lines workers ps) st ->
  (joined st \/ exists st', step st st') /\
  (n <= 3 * length lines + Z.to_nat workers + 1)%nat /\
  (joined st <-> n = (3 * length lines + Z.to_nat workers + 1)%nat).
Proof.
  intros HW HX HY Hsteps.
  pose proof (nsteps_steps_left _ _ _ Hsteps) as Hleft.
  rewrite steps_left_init in Hleft.
  split; [by apply step_or_joined|]. split; [lia|]. split.
  - intros [Hc Hall].
    assert (Hinv : pool_inv (fun _ _ => True) (tasks_from 0 lines) st).
    { eapply (pool_inv_steps GetVegreferanseMatches ParseFloat modeConfig
                (fun _ _ => True)); [done| |by eapply rtc_nsteps_2].
      by apply pool_inv_init. }
    destruct Hinv as (_ & Hclosed & Hexit).
    assert (Hne : Exited ∈ Pool.workers st).
    { assert (Hlen : length (Pool.workers st) = Z.to_nat workers).
      { rewrite (length_workers_steps GetVegreferanseMatches ParseFloat modeConfig
                   (init lines workers ps) st) by (by eapply rtc_nsteps_2).
        unfold init. cbn [Pool.workers]. by rewrite length_replicate. }
      destruct (Pool.workers st) as [|w ws]; [cbn in Hlen; lia|].
      apply Forall_cons in Hall as [-> _]. left. }
    destruct (Hexit Hne) as [_ Hch].
    apply steps_of_all_Exited in Hall.
    unfold steps_left in Hleft. rewrite (Hclosed Hc), Hch, Hall, Hc in Hleft.
    cbn [length] in Hleft. lia.
  - intros ->. apply steps_left_joined. lia.
Qed.

Lemma steps_no_worker st st' :
  rtc step st st' -> workers st = [] ->
  workers st' = [] /\ resultChannel st' = resultChannel st /\
  provider st' = provider st.
Proof.
  induction 1 as [|st st1 st' Hstep _ IH]; [done|]. intros Hws.
  assert (H1 : workers st1 = [] /\ resultChannel st1 = resultChannel st /\
               provider st1 = provider st).
  { destruct Hstep as [st t rest Hp | st Hp Hc | st w t rest Hw Hch
                       | st w t r ps Hw Hbody | st w Hw Hch Hc];
      cbn [workers resultChannel provider]; try done.
    all: by rewrite Hws in Hw. }
  destruct H1 as (Hw1 & Hr1 & Hp1).
  destruct (IH Hw1) as (? & ? & ?). split; [done|]. split; congruence.
Qed.

Lemma sorted_replicate n (r : processResult) :
  StronglySorted (fun a b => (lineIdx b <? lineIdx a) = false) (replicate n r).
Proof.
  induction n as [|n IH]; cbn [replicate]; constructor; [exact IH|].
  apply Forall_replicate. apply Z.ltb_irrefl.
Qed.

(** Without a worker the main goroutine sends the tasks, closes the
    channel and finds no worker to wait for. *)
Lemma run_no_worker lines ps workers :
  workers <= 0 ->
  run lines ps workers (replicate (length lines) zero_processResult) ps.
Proof.
  intros HW.
  exists {| pending := []; closed := true; taskChannel := tasks_from 0 lines;
            Pool.workers := []; resultChannel := []; provider := ps |},
         (replicate (length lines) zero_processResult).
  split.
  { unfold init. replace (Z.to_nat workers) with 0%nat by lia. cbn [replicate].
    etrans; [apply (steps_send GetVegreferanseMatches ParseFloat modeConfig)|].
    eapply rtc_l; [apply step_close; reflexivity|]. cbn. apply rtc_refl. }
  split; [split; [reflexivity|constructor]|].
  split; [reflexivity|]. split; [reflexivity|].
  split; [reflexivity|apply sorted_replicate].
Qed.

(** X19.  Without a worker nothing is looked up and nothing is reported as
    an error: for a number of workers that is zero or negative the function
    returns (a run exists, and after any [n] steps, of which there are never
    more than three for each line and one, [wg.Wait()] has returned or the
    main goroutine can take a step), and what it returns is one zero-valued
    result for each line (index 0, no text, no label, no error), the provider
    not being called. *)
Theorem no_worker_zero_results lines ps workers :
  workers <= 0 ->
  (exists results ps', run lines ps workers results ps') /\
  (forall n st,
     nsteps step n (init lines workers ps) st ->
     (n <= 3 * length lines + 1)%nat /\
     (joined st \/ exists st', step st st')) /\
  forall results ps',
    run lines ps workers results ps' ->
    results = replicate (length lines) zero_processResult /\ ps' = ps.
Proof.
  intros HW. split.
  { eexists _, _. by apply run_no_worker. }
  split.
  { intros n st Hsteps.
    pose proof (nsteps_steps_left _ _ _ Hsteps) as Hleft.
    rewrite steps_left_init in Hleft. split; [lia|].
    destruct (steps_no_worker _ st (rtc_nsteps_2 _ _ _ Hsteps)) as (Hws & _ & _).
    { unfold init. cbn [Pool.workers].
      replace (Z.to_nat workers) with 0%nat by lia. reflexivity. }
    destruct (pending st) as [|t rest] eqn:Hp.
    2: { right. eexists. by eapply step_send. }
    destruct (closed st) eqn:Hc.
    2: { right. eexists. by eapply step_close. }
    left. split; [done|]. rewrite Hws. constructor. }
  intros results ps' (st & collected & Hsteps & _ & Hps & Hcollect & Hperm & _).
  destruct (steps_no_worker _ _ Hsteps) as (_ & Hrc & Hprov).
  { unfold init. cbn [Pool.workers].
    replace (Z.to_nat workers) with 0%nat by lia. reflexivity. }
  rewrite Hrc in Hcollect. cbn in Hcollect. injection Hcollect as <-.
  split; [|by rewrite <- Hps, Hprov].
  symmetry. by apply replicate_Permutation.
Qed.

End PoolMore.

(** X18 at the three lines of the demonstration and two workers, before the
    first step. *)
Lemma pool_always_joins_witness :
  (Pool.joined (Pool.init demo_lines 2 0%nat) \/
   exists st', Pool.step demo_provider demo_ParseFloat demo_config
                 (Pool.init demo_lines 2 0%nat) st') /\
  (0 <= 3 * length demo_lines + Z.to_nat 2 + 1)%nat /\
  (Pool.joined (Pool.init demo_lines 2 0%nat)
   <-> 0%nat = (3 * length demo_lines + Z.to_nat 2 + 1)%nat).
Proof.
  apply (pool_always_joins demo_provider demo_ParseFloat demo_config
           demo_lines 0%nat 2 0%nat (Pool.init demo_lines 2 0%nat)).
  - lia.
  - cbn. lia.
  - cbn. lia.
  - apply nsteps_O.
Defined.

(** X19 at the three lines of the demonstration. *)
Lemma no_worker_zero_results_witness :
  (exists results ps',
     Pool.processCoordinatesToVegreferanse demo_provider demo_ParseFloat demo_config
       demo_lines 0%nat 0 results ps') /\
  (forall n st,
     nsteps (Pool.step demo_provider demo_ParseFloat demo_config) n
       (Pool.init demo_lines 0 0%nat) st ->
     (n <= 3 * length demo_lines + 1)%nat /\
     (Pool.joined st \/
      exists st', Pool.step demo_provider demo_ParseFloat demo_config st st')) /\
  forall results ps',
    Pool.processCoordinatesToVegreferanse demo_provider demo_ParseFloat demo_config
      demo_lines 0%nat 0 results ps' ->
    results = replicate (length demo_lines) Pool.zero_processResult /\ ps' = 0%nat.
Proof.
  apply (no_worker_zero_results demo_provider demo_ParseFloat demo_config
           demo_lines 0%nat 0).
  lia.
Defined.

(** * The input file *)

Section InputFacts.
Import Pool Input.

Lemma check_columns_None config count :
  check_columns config count = None ->
  (Mode config = "coord_to_vegref" ->
   exists c, CoordToVegref config = Some c /\
             0 <= XColumn c < count /\ 0 <= YColumn c < count) /\
  (Mode config = "vegref_to_coord" ->
   exists c, VegrefToCoord config = Some c /\
             0 <= VegreferanseColumn c < count).
Proof.
  unfold check_columns. intros Hcheck. split.
  - intros Hmode. rewrite Hmode in Hcheck. cbn [String.eqb] in Hcheck.
    change (String.eqb "coord_to_vegref" "coord_to_vegref") with true in Hcheck.
    cbv iota in Hcheck.
    destruct (CoordToVegref config) as [c|]; [|discriminate].
    exists c. split; [done|].
    destruct (XColumn c <? 0) eqn:E1; [discriminate|].
    destruct (count <=? XColumn c) eqn:E2; [discriminate|].
    destruct (YColumn c <? 0) eqn:E3; [discriminate|].
    destruct (count <=? YColumn c) eqn:E4; [discriminate|].
    apply Z.ltb_ge in E1, E3. apply Z.leb_gt in E2, E4. lia.
  - intros Hmode. rewrite Hmode in Hcheck.
    change (String.eqb "vegref_to_coord" "coord_to_vegref") with false in Hcheck.
    change (String.eqb "vegref_to_coord" "vegref_to_coord") with true in Hcheck.
    cbv iota in Hcheck.
    destruct (VegrefToCoord config) as [c|]; [|discriminate].
    exists c. split; [done|].
    destruct (VegreferanseColumn c <? 0) eqn:E1; [discriminate|].
    destruct (count <=? VegreferanseColumn c) eqn:E2; [discriminate|].
    apply Z.ltb_ge in E1. apply Z.leb_gt in E2. lia.
Qed.

(** X20.  [readInputFile] returns the lines of a file only when the file
    was read to its end without error and has a header in which the
    configured columns exist: for either mode the mode's configuration is
    there and each of its column indices is at least 0 and below the number
    of columns of the header. *)
Theorem readInputFile_accepts file config header lines :
  readInputFile file config = Ok (header, lines) ->
  file = Scans (header :: lines) None /\
  (Mode config = "coord_to_vegref" ->
   exists c, CoordToVegref config = Some c /\
             0 <= XColumn c < len (Split_tab header) /\
             0 <= YColumn c < len (Split_tab header)) /\
  (Mode config = "vegref_to_coord" ->
   exists c, VegrefToCoord config = Some c /\
             0 <= VegreferanseColumn c < len (Split_tab header)).
Proof.
  unfold readInputFile.
  destruct file as [err|[|header' lines'] scan_err]; [discriminate|discriminate|].
  cbv zeta.
  destruct (check_columns config _) eqn:Hcheck; [discriminate|].
  destruct scan_err; [discriminate|].
  intros [= <- <-]. split; [done|].
  by apply check_columns_None.
Qed.

Section Accepted.
Context {PS : Type}.
Context (GetVegreferanseMatches :
           PS -> float64 -> float64 -> result (list VegreferanseMatch) * PS).
Context (ParseFloat : string -> result float64).

Local Abbreviation run := (processCoordinatesToVegreferanse GetVegreferanseMatches ParseFloat).

Definition not_enough_columns : string :=
  "line doesn't have enough columns for coordinates".

(** The result of a line with a field at each of the two columns is not the
    error of a line that is too short. *)
Definition long_enough (c : CoordToVegrefConfig) (t : processTask)
    (r : processResult) : Prop :=
  lineIdx r = task_lineIdx t /\
  (Pool.max (XColumn c) (YColumn c) < len (Split_tab (task_line t)) ->
   err r <> Some not_enough_columns).

Lemma worker_body_long_enough c ps task r ps' :
  worker_body GetVegreferanseMatches ParseFloat c ps task = Some (r, ps') ->
  long_enough c task r.
Proof.
  unfold worker_body, long_enough, failed, not_enough_columns. intros H.
  destruct (len _ <=? Pool.max _ _) eqn:E.
  - injection H as <- _. cbn. split; [done|]. apply Z.leb_le in E. lia.
  - repeat match type of H with
           | match ?x with _ => _ end = _ => destruct x
           end;
      try discriminate; injection H as <- _; cbn; (split; [done|]);
      intros _; discriminate.
Qed.

(** X21.  A file that [readInputFile] accepts in the mode from coordinates
    to road references is processed without panic: with one worker at
    least, [processCoordinatesToVegreferanse] returns, with one result for
    each data line, and no data line that has as many columns as the header
    is reported as too short. *)
Theorem accepted_file_is_processed file config header lines ps :
  readInputFile file config = Ok (header, lines) ->
  Mode config = "coord_to_vegref" -> 1 <= Workers config ->
  exists c,
    CoordToVegref config = Some c /\
    (exists results ps', run c lines ps (Workers config) results ps') /\
    forall results ps',
      run c lines ps (Workers config) results ps' ->
      length results = length lines /\
      forall i l r,
        lines !! i = Some l -> results !! i = Some r ->
        len (Split_tab header) <= len (Split_tab l) ->
        err r <> Some "line doesn't have enough columns for coordinates".
Proof.
  intros Hread Hmode HW.
  assert (Hcheck : check_columns config (len (Split_tab header)) = None).
  { unfold readInputFile in Hread.
    destruct file as [err|[|header' lines'] scan_err]; [done|done|].
    cbv zeta in Hread.
    destruct (check_columns config _) eqn:Hcheck; [done|].
    destruct scan_err; [done|]. by injection Hread as -> _. }
  destruct (check_columns_None config _ Hcheck) as [Hcoord _].
  destruct (Hcoord Hmode) as (c & Hc & HX & HY).
  exists c. split; [done|]. split.
  - apply run_exists; [done|lia|lia].
  - intros results ps' Hrun.
    destruct (run_results GetVegreferanseMatches ParseFloat c
                (long_enough c) (worker_body_long_enough c)
                (fun t r H => proj1 H) lines ps (Workers config) results ps' HW Hrun)
      as [Hlen Hat].
    split; [done|]. intros i l r Hl Hr Hcols.
    destruct (lookup_lt_is_Some_2 (tasks_from 0 lines) i) as [t Ht].
    { rewrite tasks_from_length. by eapply lookup_lt_Some. }
    destruct (Hat i t Ht) as (r' & Hr' & _ & Hlong).
    destruct (tasks_from_lookup _ _ _ _ Ht) as [_ Hline].
    assert (r' = r) as -> by congruence.
    assert (task_line t = l) as Htl by congruence.
    apply Hlong. rewrite Htl. unfold Pool.max. destruct (_ <? _); lia.
Qed.

End Accepted.

End InputFacts.

(** X17 at the results of the demonstration, for the road of its first
    line. *)
Lemma mergeRanges_identified_witness :
  separated (Report.identifyRoadRanges demo_results !!! "E18") /\
  Report.mergeRanges (Report.identifyRoadRanges demo_results !!! "E18")
  = Report.identifyRoadRanges demo_results !!! "E18".
Proof.
  apply (mergeRanges_identified demo_results "E18").
  reflexivity.
Defined.

Section InputDemo.
Import Pool Input.

(** The lines of the demonstration under a header of two columns. *)
Definition demo_file : InputFile :=
  Scans (("X" +:+ tab +:+ "Y") :: demo_lines) None.

Definition demo_Config : Config :=
  {| Mode := "coord_to_vegref"; InputPath := "in.txt"; OutputPath := "out.txt";
     DisableCache := true; CacheDir := "cache/api_responses"; ClearCache := false;
     RateLimit := 40; RateLimitTime := 1000; Workers := 2;
     CoordToVegref := Some demo_config; VegrefToCoord := None |}.

End InputDemo.

(** X20 at the file of the demonstration. *)
Lemma readInputFile_accepts_witness :
  demo_file = Input.Scans (("X" +:+ tab +:+ "Y") :: demo_lines) None /\
  (Input.Mode demo_Config = "coord_to_vegref" ->
   exists c, Input.CoordToVegref demo_Config = Some c /\
             0 <= Pool.XColumn c < len (Pool.Split_tab ("X" +:+ tab +:+ "Y")) /\
             0 <= Pool.YColumn c < len (Pool.Split_tab ("X" +:+ tab +:+ "Y"))) /\
  (Input.Mode demo_Config = "vegref_to_coord" ->
   exists c, Input.VegrefToCoord demo_Config = Some c /\
             0 <= Input.VegreferanseColumn c
             < len (Pool.Split_tab ("X" +:+ tab +:+ "Y"))).
Proof.
  apply (readInputFile_accepts demo_file demo_Config ("X" +:+ tab +:+ "Y") demo_lines).
  reflexivity.
Defined.

(** X21 at the file of the demonstration. *)
Lemma accepted_file_is_processed_witness :
  exists c,
    Input.CoordToVegref demo_Config = Some c /\
    (exists results ps',
       Pool.processCoordinatesToVegreferanse demo_provider demo_ParseFloat c
         demo_lines 0%nat (Input.Workers demo_Config) results ps') /\
    forall results ps',
      Pool.processCoordinatesToVegreferanse demo_provider demo_ParseFloat c
        demo_lines 0%nat (Input.Workers demo_Config) results ps' ->
      length results = length demo_lines /\
      forall i l r,
        demo_lines !! i = Some l -> results !! i = Some r ->
        len (Pool.Split_tab ("X" +:+ tab +:+ "Y")) <= len (Pool.Split_tab l) ->
        Pool.err r <> Some "line doesn't have enough columns for coordinates".
Proof.
  apply (accepted_file_is_processed demo_provider demo_ParseFloat
           demo_file demo_Config ("X" +:+ tab +:+ "Y") demo_lines 0%nat).
  - reflexivity.
  - reflexivity.
  - cbn. lia.
Defined.

(** X25 at the results of the demonstration. *)
Lemma generateRoadReport_lines_witness :
  exists roads,
    Sorted (fun a b => String.leb a b = true) roads /\ NoDup roads /\
    (forall road,
       road ∈ roads
       <-> road <> "" /\
           exists k r, demo_results !! k = Some r /\
                       Report.extractRoadNumber (Pool.vegreferanse r) = road) /\
    Report.generateRoadReport (Report.identifyRoadRanges demo_results)
    = (String "010"%char "Road numbers summary:" +:+ String "010"%char EmptyString)
      :: match roads with
         | [] => ["No road numbers identified." +:+ String "010"%char EmptyString]
         | _ :: _ =>
             concat
               (map (fun road =>
                       map (Report.report_line road)
                         (Report.identifyRoadRanges demo_results !!! road))
                    roads)
         end.
Proof.
  apply (generateRoadReport_lines demo_results).
  reflexivity.
Defined.

(** * The worker pool of the reverse mode *)

Section ReversePoolFacts.
Import Pool Input Reverse.
Context {PS : Type}.
Context (GetCoordinatesFromVegreferanse : PS -> string -> result Coordinate * PS).
Context (Sprintf_6f : float64 -> string).
Context (modeConfig : VegrefToCoordConfig).

Local Abbreviation worker_body :=
  (ReversePool.worker_body GetCoordinatesFromVegreferanse Sprintf_6f modeConfig).
Local Abbreviation step :=
  (ReversePool.step GetCoordinatesFromVegreferanse Sprintf_6f modeConfig).
Local Abbreviation run :=
  (ReversePool.processVegreferanseToCoordinates
     GetCoordinatesFromVegreferanse Sprintf_6f modeConfig).

(** The result a worker sends carries the index and the text of its task. *)
Lemma rev_worker_body_task ps task r ps' :
  worker_body ps task = Some (r, ps') ->
  lineIdx r = task_lineIdx task /\ line r = task_line task.
Proof.
  unfold ReversePool.worker_body, failed. intros H.
  repeat match type of H with
         | (if ?b then _ else _) = _ => destruct b
         | match ?x with _ => _ end = _ => destruct x
         end;
    try discriminate; injection H as <- _; done.
Qed.

(** With a column that is not negative the body of the loop does not
    panic. *)
Lemma rev_worker_body_total ps task :
  0 <= VegreferanseColumn modeConfig ->
  exists r ps', worker_body ps task = Some (r, ps').
Proof.
  intros HC. unfold ReversePool.worker_body.
  destruct (len _ <=? _) eqn:E; [eauto|].
  apply Z.leb_gt in E. unfold at_index.
  replace (VegreferanseColumn modeConfig <? 0) with false
    by (symmetry; apply Z.ltb_ge; lia).
  destruct (lookup_lt_is_Some_2 (Split_tab (task_line task))
              (Z.to_nat (VegreferanseColumn modeConfig))) as [field ->];
    [unfold len in E; lia|].
  destruct (String.eqb _ ""); [eauto|].
  destruct (GetCoordinatesFromVegreferanse ps _) as [[c|e] ps']; eauto.
Qed.

Section Invariant.
Context (R : processTask -> processResult -> Prop).
Context (R_body : forall ps task r ps',
            worker_body ps task = Some (r, ps') -> R task r).
Context (tasks : list processTask).

Lemma rev_pool_inv_step st st' : pool_inv R tasks st -> step st st' -> pool_inv R tasks st'.
Proof.
  intros ((done & HR & Hperm) & Hclosed & Hexit) Hstep.
  destruct Hstep as [st t rest Hp | st Hp Hc | st w t rest Hw Hch
                     | st w t r ps Hw Hbody | st w Hw Hch Hc];
    unfold pool_inv; cbn [pending closed taskChannel workers resultChannel].
  - (* send *)
    split; [|split].
    + exists done. split; [exact HR|]. rewrite <- Hperm, Hp.
      rewrite <- !app_assoc. do 3 f_equiv. reflexivity.
    + intros Hc. rewrite (Hclosed Hc) in Hp. discriminate.
    + intros He. destruct (Hexit He) as [Hc _].
      rewrite (Hclosed Hc) in Hp. discriminate.
  - (* close *)
    split; [|split].
    + exists done. split; [exact HR|]. by rewrite <- Hperm, Hp.
    + done.
    + intros He. destruct (Hexit He) as [Hc' _]. congruence.
  - (* receive *)
    assert (Hlt : (w < length (workers st))%nat) by (eapply lookup_lt_Some; eauto).
    split; [|split].
    + exists done. split; [exact HR|]. rewrite <- Hperm, Hch.
      rewrite (held_insert _ _ _ Hlt), (held_lookup _ _ _ Hw).
      apply perm_receive.
    + exact Hclosed.
    + intros He. apply list_elem_of_lookup in He as [i Hi].
      destruct (decide (i = w)) as [->|Hne].
      * rewrite list_lookup_insert_eq in Hi by exact Hlt. discriminate.
      * rewrite list_lookup_insert_ne in Hi by done.
        destruct Hexit as [Hc Hnil]; [apply list_elem_of_lookup; eauto|].
        rewrite Hnil in Hch. discriminate.
  - (* work *)
    assert (Hlt : (w < length (workers st))%nat) by (eapply lookup_lt_Some; eauto).
    split; [|split].
    + exists (done ++ [t]). split.
      * apply Forall2_app; [exact HR|]. constructor; [|constructor]. eapply R_body; eauto.
      * rewrite <- Hperm.
        rewrite (held_insert _ _ _ Hlt), (held_lookup _ _ _ Hw).
        apply perm_work.
    + exact Hclosed.
    + intros He. apply Hexit. apply list_elem_of_lookup in He as [i Hi].
      destruct (decide (i = w)) as [->|Hne].
      * rewrite list_lookup_insert_eq in Hi by exact Hlt. discriminate.
      * rewrite list_lookup_insert_ne in Hi by done.
        apply list_elem_of_lookup; eauto.
  - (* exit *)
    assert (Hlt : (w < length (workers st))%nat) by (eapply lookup_lt_Some; eauto).
    split; [|split].
    + exists done. split; [exact HR|]. rewrite <- Hperm.
      rewrite (held_insert _ _ _ Hlt), (held_lookup _ _ _ Hw). reflexivity.
    + exact Hclosed.
    + done.
Qed.

Lemma rev_pool_inv_steps st st' : pool_inv R tasks st -> rtc step st st' -> pool_inv R tasks st'.
Proof. intros Hinv Hsteps. induction Hsteps; eauto using rev_pool_inv_step. Qed.

End Invariant.

Lemma rev_length_workers_step st st' :
  step st st' -> length (workers st') = length (workers st).
Proof. destruct 1; cbn; rewrite ?length_insert; reflexivity. Qed.

Lemma rev_length_workers_steps st st' :
  rtc step st st' -> length (workers st') = length (workers st).
Proof.
  induction 1 as [|? ? ? H1 _ IH]; [done|].
  rewrite IH. by apply rev_length_workers_step.
Qed.

Section Results.
Context (R : processTask -> processResult -> Prop).
Context (R_body : forall ps task r ps',
            worker_body ps task = Some (r, ps') -> R task r).
Context (R_key : forall task r, R task r -> lineIdx r = task_lineIdx task).

Lemma rev_joined_collect lines ps workers st :
  1 <= workers ->
  rtc step (init lines workers ps) st -> joined st ->
  exists arr,
    collect (replicate (length lines) zero_processResult) (resultChannel st)
      = Some arr /\
    length arr = length lines /\
    (forall i t, tasks_from 0 lines !! i = Some t ->
                 exists r, arr !! i = Some r /\ R t r) /\
    (forall i r, arr !! i = Some r -> lineIdx r = Z.of_nat i).
Proof.
  intros HW Hsteps Hjoined.
  set (tasks := tasks_from 0 lines).
  assert (Hinv : pool_inv R tasks st).
  { eapply rev_pool_inv_steps; [exact R_body| |exact Hsteps].
    by apply pool_inv_init. }
  assert (Hne : Pool.workers st <> []).
  { intros Hnil. apply (f_equal length) in Hnil.
    rewrite (rev_length_workers_steps _ _ Hsteps) in Hnil.
    unfold init in Hnil. cbn in Hnil. rewrite length_replicate in Hnil. lia. }
  destruct (pool_inv_joined R tasks st Hinv Hjoined Hne) as (done & HR & Hdone).
  pose proof (Forall2_keys R R_key _ _ HR) as Hkeys.
  assert (Hseq : map lineIdx (resultChannel st) ≡ₚ seqZ 0 (Z.of_nat (length lines))).
  { rewrite Hkeys, <- (tasks_from_keys lines 0). fold tasks.
    apply Permutation_map. exact Hdone. }
  destruct (collect_spec (resultChannel st)
              (replicate (length lines) zero_processResult))
    as (arr & Harr & Hlen & _ & Hset).
  { intros r Hr. unfold len. rewrite length_replicate.
    assert (Hin : lineIdx r ∈ seqZ 0 (Z.of_nat (length lines))).
    { rewrite <- Hseq. apply list_elem_of_In, in_map, list_elem_of_In, Hr. }
    apply elem_of_seqZ in Hin. lia. }
  rewrite length_replicate in Hlen.
  assert (Hnd : NoDup (map lineIdx (resultChannel st))).
  { rewrite Hseq. apply NoDup_seqZ. }
  specialize (Hset Hnd).
  assert (Hat : forall i t, tasks !! i = Some t ->
                            exists r, arr !! i = Some r /\ R t r).
  { intros i t Hi.
    assert (Hin : t ∈ done) by (rewrite Hdone; apply list_elem_of_lookup; eauto).
    apply list_elem_of_lookup in Hin as [j Hj].
    destruct (Forall2_lookup_l _ _ _ _ _ HR Hj) as (r & Hr & HRtr).
    exists r. split; [|exact HRtr].
    assert (Hrin : r ∈ resultChannel st) by (apply list_elem_of_lookup; eauto).
    specialize (Hset r Hrin).
    rewrite (R_key _ _ HRtr) in Hset.
    destruct (tasks_from_lookup _ _ _ _ Hi) as [Hk _].
    rewrite Hk in Hset. replace (Z.to_nat (0 + Z.of_nat i)) with i in Hset by lia.
    exact Hset. }
  exists arr. split; [exact Harr|]. split; [exact Hlen|]. split; [exact Hat|].
  intros i r Hi.
  destruct (lookup_lt_is_Some_2 tasks i) as [t Ht].
  { unfold tasks. rewrite tasks_from_length, <- Hlen. eapply lookup_lt_Some; eauto. }
  destruct (Hat i t Ht) as (r' & Hr' & HRtr).
  rewrite Hi in Hr'. injection Hr' as <-.
  rewrite (R_key _ _ HRtr).
  destruct (tasks_from_lookup _ _ _ _ Ht) as [Hk _]. lia.
Qed.

Lemma rev_run_results lines ps workers results ps' :
  1 <= workers ->
  run lines ps workers results ps' ->
  length results = length lines /\
  forall i t, tasks_from 0 lines !! i = Some t ->
              exists r, results !! i = Some r /\ R t r.
Proof.
  intros HW (st & collected & Hsteps & Hjoined & _ & Hcollect & Hsort).
  destruct (rev_joined_collect lines ps workers st HW Hsteps Hjoined)
    as (arr & Harr & Hlen & Hat & Hidx).
  rewrite Harr in Hcollect. injection Hcollect as <-.
  rewrite (sort_Slice_indexed arr results Hidx Hsort).
  split; [exact Hlen|exact Hat].
Qed.

End Results.

Lemma rev_steps_send ts : forall tc ws rc ps,
  rtc step {| pending := ts; closed := false; taskChannel := tc; workers := ws;
              resultChannel := rc; provider := ps |}
           {| pending := []; closed := false; taskChannel := tc ++ ts;
              workers := ws; resultChannel := rc; provider := ps |}.
Proof.
  induction ts as [|t ts IH]; intros tc ws rc ps.
  - rewrite app_nil_r. apply rtc_refl.
  - eapply rtc_l.
    + eapply (ReversePool.step_send _ _ _ _ t ts). reflexivity.
    + cbn. replace (tc ++ t :: ts) with ((tc ++ [t]) ++ ts) by (by rewrite <- app_assoc).
      apply IH.
Qed.

Lemma rev_steps_serial ts : forall ws rc ps,
  0 <= VegreferanseColumn modeConfig ->
  exists rs ps',
    rtc step {| pending := []; closed := true; taskChannel := ts;
                workers := Idle :: ws; resultChannel := rc; provider := ps |}
             {| pending := []; closed := true; taskChannel := [];
                workers := Idle :: ws; resultChannel := rc ++ rs; provider := ps' |}.
Proof.
  induction ts as [|t ts IH]; intros ws rc ps HC.
  - exists [], ps. rewrite app_nil_r. apply rtc_refl.
  - destruct (rev_worker_body_total ps t HC) as (r & ps1 & Hbody).
    destruct (IH ws (rc ++ [r]) ps1 HC) as (rs & ps' & Hsteps).
    exists (r :: rs), ps'.
    eapply rtc_l; [eapply (ReversePool.step_receive _ _ _ _ 0%nat t ts); reflexivity|].
    eapply rtc_l; [eapply (ReversePool.step_work _ _ _ _ 0%nat t r ps1); [reflexivity|exact Hbody]|].
    cbn. replace (rc ++ r :: rs) with ((rc ++ [r]) ++ rs) by (by rewrite <- app_assoc).
    exact Hsteps.
Qed.

Lemma rev_steps_exit n : forall k rc (ps : PS),
  rtc step {| pending := []; closed := true; taskChannel := [];
              workers := replicate k Exited ++ replicate n Idle;
              resultChannel := rc; provider := ps |}
           {| pending := []; closed := true; taskChannel := [];
              workers := replicate (k + n) Exited;
              resultChannel := rc; provider := ps |}.
Proof.
  induction n as [|n IH]; intros k rc ps.
  - rewrite app_nil_r, Nat.add_0_r. apply rtc_refl.
  - eapply rtc_l.
    + eapply (ReversePool.step_exit _ _ _ _ k); cbn; try reflexivity.
      rewrite lookup_app_r by (rewrite length_replicate; lia).
      rewrite length_replicate, Nat.sub_diag. reflexivity.
    + cbn [pending closed taskChannel Pool.workers resultChannel provider].
      replace (<[k:=Exited]> (replicate k Exited ++ replicate (S n) Idle))
        with (replicate (S k) Exited ++ replicate n Idle).
      * replace (k + S n)%nat with (S k + n)%nat by lia. apply IH.
      * symmetry. apply insert_replicate_exit.
Qed.

Lemma rev_run_exists lines ps workers :
  1 <= workers -> 0 <= VegreferanseColumn modeConfig ->
  exists results ps', run lines ps workers results ps'.
Proof.
  intros HW HC.
  destruct (Z.to_nat workers) as [|n] eqn:En; [lia|].
  destruct (rev_steps_serial (tasks_from 0 lines) (replicate n Idle) [] ps HC)
    as (rs & ps' & Hserial).
  set (st := {| pending := []; closed := true; taskChannel := [];
                workers := replicate (0 + S n) Exited;
                resultChannel := [] ++ rs; provider := ps' |}).
  assert (Hsteps : rtc step (init lines workers ps) st).
  { unfold init. rewrite En.
    etrans; [apply rev_steps_send|].
    eapply rtc_l; [apply ReversePool.step_close; reflexivity|]. cbn.
    etrans; [exact Hserial|].
    apply (rev_steps_exit (S n) 0). }
  assert (Hjoined : joined st).
  { split; [reflexivity|]. unfold st. cbn [Pool.workers].
    by apply Forall_replicate. }
  destruct (rev_joined_collect
              (fun t r => lineIdx r = task_lineIdx t /\ line r = task_line t)
              rev_worker_body_task (fun t r H => proj1 H)
              lines ps workers st HW Hsteps Hjoined)
    as (arr & Harr & Hlen & Hat & Hidx).
  exists arr, ps'. exists st, arr.
  split; [exact Hsteps|]. split; [exact Hjoined|]. split; [reflexivity|].
  split; [exact Harr|]. split; [reflexivity|].
  apply (indexed_sorted arr 0). intros i r Hi. rewrite (Hidx i r Hi). lia.
Qed.

(** The provider is deterministic: what it answers is a function [f] of
    the road reference, whatever it remembers. *)
Definition answers_by_reference (f : string -> result Coordinate) : Prop :=
  forall ps v, fst (GetCoordinatesFromVegreferanse ps v) = f v.

(** The result of a task when the provider answers by [f]. *)
Definition expected_coordinates (f : string -> result Coordinate)
    (task : processTask) : option processResult :=
  fst <$> ReversePool.worker_body (fun (_ : unit) v => (f v, tt))
            Sprintf_6f modeConfig tt task.

Lemma rev_worker_body_expected f ps task r ps' :
  answers_by_reference f ->
  worker_body ps task = Some (r, ps') ->
  expected_coordinates f task = Some r.
Proof.
  intros Hf. unfold expected_coordinates, ReversePool.worker_body.
  destruct (_ <=? _); [by intros [= <- _]|].
  destruct (at_index _ _) as [field|]; [|discriminate].
  destruct (String.eqb _ ""); [by intros [= <- _]|].
  specialize (Hf ps (ReversePool.TrimSpace field)).
  destruct (GetCoordinatesFromVegreferanse ps _) as [a ps1]. cbn in Hf.
  rewrite <- Hf. destruct a; by intros [= <- _].
Qed.

Lemma expected_coordinates_key f task r :
  expected_coordinates f task = Some r -> lineIdx r = task_lineIdx task.
Proof.
  unfold expected_coordinates. intros H.
  destruct (ReversePool.worker_body _ _ _ tt task) as [[r' u]|] eqn:E;
    [|discriminate].
  injection H as <-.
  unfold ReversePool.worker_body, failed in E.
  repeat match type of E with
         | (if ?b then _ else _) = _ => destruct b
         | match ?x with _ => _ end = _ => destruct x
         end;
    try discriminate; injection E as <- _; done.
Qed.

(** What a worker sends for a task. *)
Definition sent_for (t : processTask) (r : processResult) : Prop :=
  lineIdx r = task_lineIdx t /\ line r = task_line t /\ matches r = [] /\
  match err r with
  | Some _ => vegreferanse r = ""
  | None =>
      exists cell ps coords,
        at_index (Split_tab (task_line t)) (VegreferanseColumn modeConfig)
          = Some cell /\
        ReversePool.TrimSpace cell <> "" /\
        fst (GetCoordinatesFromVegreferanse ps (ReversePool.TrimSpace cell))
          = Ok coords /\
        vegreferanse r
        = Sprintf_6f (X coords) +:+ String "009"%char EmptyString
          +:+ Sprintf_6f (Y coords)
  end.

Lemma rev_worker_body_sent_for ps task r ps' :
  worker_body ps task = Some (r, ps') -> sent_for task r.
Proof.
  unfold ReversePool.worker_body, sent_for, failed.
  destruct (_ <=? _); [by intros [= <- _]|].
  destruct (at_index _ _) as [cell|]; [|discriminate].
  destruct (String.eqb_spec (ReversePool.TrimSpace cell) "") as [|Hne];
    [by intros [= <- _]|].
  destruct (GetCoordinatesFromVegreferanse ps _) as [[coords|e] ps1] eqn:Hget;
    intros [= <- _]; cbn; [|done].
  split; [done|]. split; [done|]. split; [done|].
  exists cell, ps, coords. by rewrite Hget.
Qed.


(** X23.  The reverse mode is deterministic: when what the provider answers
    depends on the road reference alone, two calls for the same lines return
    the same slice, whatever the numbers of workers, the schedules and what
    the provider remembered at the start. *)
Theorem reverse_results_determined f lines ps1 ps2 workers1 workers2
    results1 results2 ps1' ps2' :
  answers_by_reference f ->
  1 <= workers1 -> 1 <= workers2 ->
  run lines ps1 workers1 results1 ps1' ->
  run lines ps2 workers2 results2 ps2' ->
  results1 = results2.
Proof.
  intros Hf HW1 HW2 Hrun1 Hrun2.
  destruct (rev_run_results (fun t r => expected_coordinates f t = Some r)
              (fun ps t r ps' H => rev_worker_body_expected f ps t r ps' Hf H)
              (expected_coordinates_key f)
              lines ps1 workers1 results1 ps1' HW1 Hrun1) as [Hlen1 Hat1].
  destruct (rev_run_results (fun t r => expected_coordinates f t = Some r)
              (fun ps t r ps' H => rev_worker_body_expected f ps t r ps' Hf H)
              (expected_coordinates_key f)
              lines ps2 workers2 results2 ps2' HW2 Hrun2) as [Hlen2 Hat2].
  apply list_eq. intros i.
  destruct (tasks_from 0 lines !! i) as [t|] eqn:Ht.
  - destruct (Hat1 i t Ht) as (r1 & -> & E1).
    destruct (Hat2 i t Ht) as (r2 & -> & E2). congruence.
  - apply lookup_ge_None in Ht. rewrite tasks_from_length in Ht.
    rewrite (proj2 (lookup_ge_None results1 i)) by lia.
    rewrite (proj2 (lookup_ge_None results2 i)) by lia. reflexivity.
Qed.

(** *** The cell of the road reference *)

(** Every byte of [s] satisfies [p]. *)
Fixpoint all_bytes (p : ascii -> bool) (s : string) : bool :=
  match s with
  | EmptyString => true
  | String c r => p c && all_bytes p r
  end.

(** An ASCII white space byte, and a text made of such bytes only. *)
Definition blank_byte (c : ascii) : bool := asciiSpace (code c).
Definition blank (s : string) : bool := all_bytes blank_byte s.

(** The text starts with an ASCII byte that is not white space. *)
Definition starts_visible (s : string) : bool :=
  match s with
  | EmptyString => false
  | String c _ => (code c <? 128) && negb (asciiSpace (code c))
  end.

Lemma rev_app_append (s : string) : forall acc,
  String.rev_app s acc = String.rev_app s "" +:+ acc.
Proof.
  induction s as [|c s IH]; intros acc; [reflexivity|].
  cbn [String.rev_app]. rewrite (IH (String c acc)), (IH (String c "")).
  by rewrite append_assoc.
Qed.

Lemma rev_cons c (s : string) : String.rev (String c s) = String.rev s +:+ String c "".
Proof. unfold String.rev. cbn [String.rev_app]. apply rev_app_append. Qed.

Lemma append_empty_r (s : string) : s +:+ "" = s.
Proof. induction s as [|c s IH]; [reflexivity|]. by rewrite append_cons, IH. Qed.

Lemma rev_append (a b : string) :
  String.rev (a +:+ b) = String.rev b +:+ String.rev a.
Proof.
  induction a as [|c a IH].
  - rewrite append_nil. change (String.rev "") with "". by rewrite append_empty_r.
  - rewrite append_cons, !rev_cons, IH. by rewrite append_assoc.
Qed.

Lemma rev_rev (s : string) : String.rev (String.rev s) = s.
Proof.
  induction s as [|c s IH]; [reflexivity|].
  rewrite rev_cons, rev_append, IH. reflexivity.
Qed.

Lemma all_bytes_append p (a b : string) :
  all_bytes p (a +:+ b) = all_bytes p a && all_bytes p b.
Proof.
  induction a as [|c a IH]; [reflexivity|].
  rewrite append_cons. cbn [all_bytes]. by rewrite IH, andb_assoc.
Qed.

Lemma all_bytes_rev p (s : string) : all_bytes p (String.rev s) = all_bytes p s.
Proof.
  induction s as [|c s IH]; [reflexivity|].
  rewrite rev_cons, all_bytes_append, IH. cbn [all_bytes].
  rewrite andb_true_r. apply andb_comm.
Qed.

(** White space bytes at the head are dropped, from either end. *)
Lemma trim_scan_blank width (pad t : string) :
  (forall c r, blank_byte c = true -> width (String c r) = 1%nat) ->
  blank pad = true ->
  ReversePool.trim_scan width 0 (pad +:+ t) = ReversePool.trim_scan width 0 t.
Proof.
  intros Hwidth. induction pad as [|c pad IH]; intros Hpad; [reflexivity|].
  cbn [blank all_bytes] in Hpad. apply andb_true_iff in Hpad as [Hc Hpad].
  rewrite append_cons. cbn [ReversePool.trim_scan].
  rewrite (Hwidth c _ Hc). by apply IH.
Qed.

Lemma space_width_blank c r : blank_byte c = true -> space_width (String c r) = 1%nat.
Proof. unfold blank_byte. intros Hc. cbn [space_width]. cbv zeta. by rewrite Hc. Qed.

Lemma space_width_end_blank c r :
  blank_byte c = true -> ReversePool.space_width_end (String c r) = 1%nat.
Proof.
  unfold blank_byte. intros Hc. cbn [ReversePool.space_width_end]. cbv zeta.
  by rewrite Hc.
Qed.

(** A visible ASCII byte starts no white space code point and ends none. *)
Lemma space_width_visible s : starts_visible s = true -> space_width s = 0%nat.
Proof.
  destruct s as [|c0 r0]; [done|]. cbn [starts_visible space_width]. cbv zeta.
  intros [Hlt Hsp]%andb_true_iff. apply Z.ltb_lt in Hlt.
  apply negb_true_iff in Hsp. rewrite Hsp.
  replace (code c0 =? 194) with false by (symmetry; apply Z.eqb_neq; lia).
  replace (code c0 =? 225) with false by (symmetry; apply Z.eqb_neq; lia).
  replace (code c0 =? 226) with false by (symmetry; apply Z.eqb_neq; lia).
  replace (code c0 =? 227) with false by (symmetry; apply Z.eqb_neq; lia).
  cbn [andb]. destruct r0 as [|c1 [|c2 r2]]; reflexivity.
Qed.

Lemma space_width_end_visible s :
  starts_visible s = true -> ReversePool.space_width_end s = 0%nat.
Proof.
  destruct s as [|c2 r1]; [done|].
  cbn [starts_visible ReversePool.space_width_end]. cbv zeta.
  intros [Hlt Hsp]%andb_true_iff. apply Z.ltb_lt in Hlt.
  apply negb_true_iff in Hsp. rewrite Hsp.
  replace (code c2 =? 133) with false by (symmetry; apply Z.eqb_neq; lia).
  replace (code c2 =? 160) with false by (symmetry; apply Z.eqb_neq; lia).
  replace (code c2 =? 128) with false by (symmetry; apply Z.eqb_neq; lia).
  replace (code c2 =? 168) with false by (symmetry; apply Z.eqb_neq; lia).
  replace (code c2 =? 169) with false by (symmetry; apply Z.eqb_neq; lia).
  replace (code c2 =? 175) with false by (symmetry; apply Z.eqb_neq; lia).
  replace (code c2 =? 159) with false by (symmetry; apply Z.eqb_neq; lia).
  replace (128 <=? code c2) with false by (symmetry; apply Z.leb_gt; lia).
  rewrite ?andb_false_r. cbn [andb orb].
  destruct r1 as [|c1 [|c0 r0]]; rewrite ?andb_false_r; reflexivity.
Qed.

Lemma trim_scan_visible width s :
  width s = 0%nat -> ReversePool.trim_scan width 0 s = s.
Proof. intros Hw. destruct s as [|c r]; [done|]. cbn [ReversePool.trim_scan]. by rewrite Hw. Qed.

(** [TrimSpace] of a text between blanks, and of blanks alone. *)
Lemma TrimSpace_padded pad core pad' :
  blank pad = true -> blank pad' = true ->
  starts_visible core = true -> starts_visible (String.rev core) = true ->
  ReversePool.TrimSpace (pad +:+ core +:+ pad') = core.
Proof.
  intros Hpad Hpad' Hfirst Hlast. unfold ReversePool.TrimSpace.
  rewrite (trim_scan_blank _ pad _ space_width_blank Hpad).
  assert (Hhead : space_width (core +:+ pad') = 0%nat).
  { apply space_width_visible. destruct core; [done|]. by rewrite append_cons. }
  rewrite (trim_scan_visible _ _ Hhead), rev_append.
  rewrite (trim_scan_blank _ (String.rev pad') _ space_width_end_blank)
    by (unfold blank; by rewrite all_bytes_rev).
  rewrite (trim_scan_visible _ _ (space_width_end_visible _ Hlast)).
  apply rev_rev.
Qed.

Lemma TrimSpace_blank pad : blank pad = true -> ReversePool.TrimSpace pad = "".
Proof.
  intros Hpad. unfold ReversePool.TrimSpace.
  rewrite <- (append_empty_r pad).
  by rewrite (trim_scan_blank _ pad "" space_width_blank Hpad).
Qed.

(** X24.  The cell of the road reference is trimmed before it is looked
    up.  For a line that has the cell: when the cell holds ASCII white space
    only (or nothing), the result is the error of an empty road reference and
    the provider is not called; when it holds a text that starts and ends
    with visible ASCII bytes, between blanks, the provider is called once,
    with that text. *)
Theorem cell_is_trimmed ps task cell :
  at_index (Split_tab (task_line task)) (VegreferanseColumn modeConfig) = Some cell ->
  (blank cell = true ->
   worker_body ps task = Some (failed task "empty vegreferanse", ps)) /\
  (forall pad core pad',
     cell = pad +:+ core +:+ pad' ->
     blank pad = true -> blank pad' = true ->
     starts_visible core = true -> starts_visible (String.rev core) = true ->
     exists r,
       worker_body ps task
       = Some (r, snd (GetCoordinatesFromVegreferanse ps core)) /\
       match fst (GetCoordinatesFromVegreferanse ps core) with
       | Err e => r = failed task ("API error: " +:+ e)
       | Ok coords =>
           err r = None /\
           vegreferanse r
           = Sprintf_6f (X coords) +:+ String "009"%char EmptyString
             +:+ Sprintf_6f (Y coords)
       end).
Proof.
  intros Hcell.
  assert (Hlen : (len (Split_tab (task_line task)) <=? VegreferanseColumn modeConfig)
                 = false).
  { unfold at_index in Hcell.
    destruct (VegreferanseColumn modeConfig <? 0) eqn:Hneg; [discriminate|].
    apply Z.ltb_ge in Hneg. apply lookup_lt_Some in Hcell.
    apply Z.leb_gt. unfold len. lia. }
  split.
  - intros Hblank. unfold ReversePool.worker_body. cbv zeta.
    by rewrite Hlen, Hcell, (TrimSpace_blank cell Hblank).
  - intros pad core pad' -> Hpad Hpad' Hfirst Hlast.
    unfold ReversePool.worker_body. cbv zeta.
    rewrite Hlen, Hcell, (TrimSpace_padded pad core pad' Hpad Hpad' Hfirst Hlast).
    destruct (String.eqb_spec core "") as [->|_]; [done|].
    destruct (GetCoordinatesFromVegreferanse ps core) as [[coords|e] ps1];
      eexists; (split; [reflexivity|]); cbn; done.
Qed.

End ReversePoolFacts.

Section ReversePoolDemo.
Import Pool Input Reverse.

(** Three lines with the road reference in the second column: a reference
    between blanks, an empty cell, and a reference the provider does not
    know. *)
Definition demo_references : list string :=
  ["a" +:+ tab +:+ " E18 S65D1 m12621 ";
   "b" +:+ tab +:+ "  ";
   "c" +:+ tab +:+ "Kv1 S1D1 m1"].

Definition demo_column : VegrefToCoordConfig := {| VegreferanseColumn := 1 |}.

Definition demo_point (v : string) : result Coordinate :=
  if String.eqb v "E18 S65D1 m12621"
  then Ok {| X := 600000%float; Y := 6600000%float |}
  else Err ("vegreferanse not found: " +:+ v).

(** A provider that counts its calls and answers by the road reference. *)
Definition demo_coordinates (calls : nat) (v : string) : result Coordinate * nat :=
  (demo_point v, S calls).

Definition demo_reverse_result (i : nat) : processResult :=
  Eval vm_compute in
    match tasks_from 0 demo_references !! i with
    | Some t =>
        match ReversePool.worker_body demo_coordinates demo_Sprintf_6f
                demo_column 0%nat t with
        | Some (r, _) => r
        | None => zero_processResult
        end
    | None => zero_processResult
    end.

Definition demo_reverse_results : list processResult :=
  [demo_reverse_result 0; demo_reverse_result 1; demo_reverse_result 2].

Local Abbreviation demo_reverse_run :=
  (ReversePool.processVegreferanseToCoordinates demo_coordinates demo_Sprintf_6f
     demo_column).

Ltac rsend := eapply rtc_l; [eapply ReversePool.step_send; reflexivity|cbn].
Ltac rclose := eapply rtc_l; [eapply ReversePool.step_close; reflexivity|cbn].
Ltac rreceive w :=
  eapply rtc_l; [eapply (ReversePool.step_receive _ _ _ _ w); reflexivity|cbn].
Ltac rwork w :=
  eapply rtc_l;
  [eapply (ReversePool.step_work _ _ _ _ w); [reflexivity|vm_compute; reflexivity]|cbn].
Ltac rleave w :=
  eapply rtc_l; [eapply (ReversePool.step_exit _ _ _ _ w); reflexivity|cbn].

(** Two workers; the second line is answered first. *)
Lemma demo_reverse_two_workers :
  demo_reverse_run demo_references 0%nat 2 demo_reverse_results 2%nat.
Proof.
  eexists _, _. split.
  { unfold init. cbn.
    rsend. rsend. rsend. rclose.
    rreceive 0%nat. rreceive 1%nat. rwork 1%nat. rreceive 1%nat.
    rwork 0%nat. rwork 1%nat. rleave 0%nat. rleave 1%nat. apply rtc_refl. }
  split; [split; [reflexivity|repeat constructor]|].
  split; [reflexivity|]. split; [vm_compute; reflexivity|].
  split; [reflexivity|]. repeat constructor.
Qed.

(** One worker. *)
Lemma demo_reverse_one_worker :
  demo_reverse_run demo_references 5%nat 1 demo_reverse_results 7%nat.
Proof.
  eexists _, _. split.
  { unfold init. cbn.
    rsend. rsend. rsend. rclose.
    rreceive 0%nat. rwork 0%nat. rreceive 0%nat. rwork 0%nat.
    rreceive 0%nat. rwork 0%nat. rleave 0%nat. apply rtc_refl. }
  split; [split; [reflexivity|repeat constructor]|].
  split; [reflexivity|]. split; [vm_compute; reflexivity|].
  split; [reflexivity|]. repeat constructor.
Qed.

End ReversePoolDemo.

(** The output of the reverse mode for these lines: the header with the two
    new columns and the row of the first line; the other two lines are
    reported as errors and left out. *)
Example demo_reverse_output :
  ReversePool.output_of ("Id" +:+ tab +:+ "Ref") demo_reverse_results
  = ["Id" +:+ tab +:+ "Ref" +:+ tab +:+ "X_UTM33" +:+ tab +:+ "Y_UTM33"
     +:+ String "010"%char EmptyString;
     "a" +:+ tab +:+ " E18 S65D1 m12621 " +:+ tab +:+ "600000.000000" +:+ tab
     +:+ "6600000.000000" +:+ String "010"%char EmptyString].
Proof. vm_compute. reflexivity. Qed.


(** X23 at the runs with two workers and with one, from different
    providers. *)
Lemma reverse_results_determined_witness :
  demo_reverse_results = demo_reverse_results.
Proof.
  apply (reverse_results_determined demo_coordinates demo_Sprintf_6f demo_column
           demo_point demo_references 0%nat 5%nat 2 1
           demo_reverse_results demo_reverse_results 2%nat 7%nat).
  - intros ps v. reflexivity.
  - lia.
  - lia.
  - exact demo_reverse_two_workers.
  - exact demo_reverse_one_worker.
Defined.

(** X24 at the first line of these. *)
Lemma cell_is_trimmed_witness :
  let task := {| Pool.task_lineIdx := 0;
                 Pool.task_line := "a" +:+ tab +:+ " E18 S65D1 m12621 " |} in
  (blank " E18 S65D1 m12621 " = true ->
   ReversePool.worker_body demo_coordinates demo_Sprintf_6f demo_column 0%nat task
   = Some (Pool.failed task "empty vegreferanse", 0%nat)) /\
  (forall pad core pad',
     " E18 S65D1 m12621 " = pad +:+ core +:+ pad' ->
     blank pad = true -> blank pad' = true ->
     starts_visible core = true -> starts_visible (String.rev core) = true ->
     exists r,
       ReversePool.worker_body demo_coordinates demo_Sprintf_6f demo_column 0%nat task
       = Some (r, snd (demo_coordinates 0%nat core)) /\
       match fst (demo_coordinates 0%nat core) with
       | Err e => r = Pool.failed task ("API error: " +:+ e)
       | Ok coords =>
           Pool.err r = None /\
           Pool.vegreferanse r
           = demo_Sprintf_6f (Reverse.X coords) +:+ String "009"%char EmptyString
             +:+ demo_Sprintf_6f (Reverse.Y coords)
       end).
Proof.
  apply (cell_is_trimmed demo_coordinates demo_Sprintf_6f demo_column 0%nat
           {| Pool.task_lineIdx := 0;
              Pool.task_line := "a" +:+ tab +:+ " E18 S65D1 m12621 " |}
           " E18 S65D1 m12621 ").
  reflexivity.
Defined.
